(** * gradient-forest: sampling and local linear prediction

    A shallow embedding of
      - [core/src/sampling/RandomSampler.cpp],
      - [core/src/prediction/LocalLinearPredictionStrategy.cpp]
        (single penalty, dense weights),
      - the multi-penalty [LocalLinearPredictionStrategy] (linear
        correction variables, LDLT solve, variance and debiased error),
      - the R binding [regression_train],
    and the properties the specification states about them.

    Conventions.
      - [double] is the kernel's binary64 type [float]; its operations are
        the IEEE ones, so rounding, infinities and NaN are those of the
        program.
      - [size_t] and [uint] values are integers in [Z]; arithmetic that can
        wrap is written with [wrap64] / [wrap32].
      - [std::vector] is [list]; [std::unordered_map] iterated in order is an
        association list, looked up by key it is a [gmap].
      - The C++ standard library's generator, distributions and [std::shuffle],
        and Eigen's solvers, are not part of the repository: they are
        parameters of the sections that use them. *)

From Stdlib Require Import ZArith QArith Qround Floats Sorted Lia.
From stdpp Require Import base option list strings gmap.

(** ** Machine integers and conversions to [double] *)

Module Machine.

Definition wrap64 (z : Z) : Z := z mod 2 ^ 64.
Definition wrap32 (z : Z) : Z := z mod 2 ^ 32.

(** [(double) n] for an unsigned integer [n]: the nearest binary64 value. *)
Definition double_of_Z (n : Z) : float :=
  SF2Prim (binary_normalize prec emax n 0 false).

Definition double_of_nat (n : nat) : float := double_of_Z (Z.of_nat n).

Lemma wrap64_small z : (0 <= z < 2 ^ 64)%Z -> wrap64 z = z.
Proof. intros H. unfold wrap64. by rewrite Z.mod_small. Qed.

Lemma wrap32_small z : (0 <= z < 2 ^ 32)%Z -> wrap32 z = z.
Proof. intros H. unfold wrap32. by rewrite Z.mod_small. Qed.

(** NaN is absorbing for the operations the variance estimate applies to
    it. *)
Lemma sub_nan_r (x : float) : (x - nan)%float = nan.
Proof.
  apply Prim2SF_inj. rewrite FloatAxioms.sub_spec.
  change (Prim2SF nan) with S754_nan. by destruct (Prim2SF x).
Qed.

Lemma div_nan_l (x : float) : (nan / x)%float = nan.
Proof.
  apply Prim2SF_inj. rewrite FloatAxioms.div_spec.
  change (Prim2SF nan) with S754_nan. by destruct (Prim2SF x).
Qed.

Lemma is_nan_iff (x : float) : is_nan x = true <-> x = nan.
Proof.
  split; [| by intros ->].
  unfold is_nan. rewrite FloatAxioms.eqb_spec. intros H.
  apply Prim2SF_inj. change (Prim2SF nan) with S754_nan.
  destruct (Prim2SF x) as [[]|[]| |[] m e]; try done; simpl in H;
    unfold SFeqb, SFcompare in H; rewrite ?Z.compare_refl, ?Pos.compare_cont_refl in H;
    done.
Qed.

End Machine.

(** ** Counted loops *)

Module Loop.
Section For.
Context {S : Type}.

(** [for (i = lo; i < lo + n; ++i) s = body i s] *)
Fixpoint for_up (n lo : nat) (body : nat -> S -> S) (s : S) : S :=
  match n with
  | O => s
  | Datatypes.S n' => for_up n' (Datatypes.S lo) body (body lo s)
  end.

(** [for (i = lo; i < hi; ++i) s = body i s] *)
Definition for_loop (lo hi : nat) (body : nat -> S -> S) (s : S) : S :=
  for_up (hi - lo) lo body s.

Lemma for_up_invariant (P : nat -> S -> Prop) n lo body s :
  P lo s ->
  (forall i t, lo <= i < lo + n -> P i t -> P (Datatypes.S i) (body i t)) ->
  P (lo + n) (for_up n lo body s).
Proof.
  revert lo s. induction n as [|n IH]; intros lo s H0 Hstep; simpl.
  - by rewrite Nat.add_0_r.
  - replace (lo + Datatypes.S n) with (Datatypes.S lo + n) by lia.
    apply IH.
    + apply Hstep; [lia | done].
    + intros i t Hi. apply Hstep. lia.
Qed.

Lemma for_loop_invariant (P : nat -> S -> Prop) lo hi body s :
  lo <= hi ->
  P lo s ->
  (forall i t, lo <= i < hi -> P i t -> P (Datatypes.S i) (body i t)) ->
  P hi (for_loop lo hi body s).
Proof.
  intros Hle H0 Hstep. unfold for_loop.
  replace hi with (lo + (hi - lo)) at 1 by lia.
  apply for_up_invariant; [done |].
  intros i t Hi. apply Hstep. lia.
Qed.

Lemma for_up_ext n lo body body' s :
  (forall i t, lo <= i < lo + n -> body i t = body' i t) ->
  for_up n lo body s = for_up n lo body' s.
Proof.
  revert lo s. induction n as [|n IH]; intros lo s H; simpl; [done |].
  rewrite H by lia. apply IH. intros i t Hi. apply H. lia.
Qed.

Lemma for_loop_ext lo hi body body' s :
  (forall i t, lo <= i < hi -> body i t = body' i t) ->
  for_loop lo hi body s = for_loop lo hi body' s.
Proof.
  intros H. unfold for_loop. apply for_up_ext. intros i t Hi. apply H. lia.
Qed.

(** A counted loop that reads [l[i]] at step [i] is a fold over [l]. *)
Lemma for_up_lookup {A : Type} (pre l : list A) (f : option A -> S -> S) (s : S) :
  for_up (length l) (length pre) (fun i t => f ((pre ++ l) !! i) t) s
  = foldl (fun t x => f (Some x) t) s l.
Proof.
  revert pre s. induction l as [|x l IH]; intros pre s; simpl; [done |].
  rewrite (lookup_app_r pre (x :: l)) by lia. rewrite Nat.sub_diag. simpl.
  specialize (IH (pre ++ [x]) (f (Some x) s)).
  rewrite length_app in IH. simpl in IH.
  rewrite Nat.add_1_r in IH. rewrite <- IH.
  apply for_up_ext. intros i t _. by rewrite <- app_assoc.
Qed.

Lemma for_loop_lookup {A : Type} (l : list A) (f : option A -> S -> S) (s : S) :
  for_loop 0 (length l) (fun i t => f (l !! i) t) s
  = foldl (fun t x => f (Some x) t) s l.
Proof.
  unfold for_loop. rewrite Nat.sub_0_r. apply (for_up_lookup [] l f s).
Qed.

End For.
End Loop.

(** ** Dense matrices (the part of Eigen the strategies use) *)

Abbreviation Vector := (list float).
(** A matrix is the list of its rows. *)
Abbreviation Matrix := (list (list float)).

Module Eigen.
Import Loop.

Definition Zero (rows cols : nat) : Matrix :=
  replicate rows (replicate cols 0%float).

Definition rows (A : Matrix) : nat := length A.

(** [A(i,j)]; Eigen leaves an access outside the matrix undefined, here it
    reads [0]. *)
Definition coeff (A : Matrix) (i j : nat) : float :=
  default 0%float (A !! i ≫= fun r => r !! j).

(** [A(i,j) = v] *)
Definition set_coeff (A : Matrix) (i j : nat) (v : float) : Matrix :=
  alter (fun r => <[j := v]> r) i A.

Definition vcoeff (v : Vector) (i : nat) : float := default 0%float (v !! i).

Definition sum (l : list float) : float := foldl PrimFloat.add 0%float l.

Definition dot (u v : Vector) : float := sum (zip_with PrimFloat.mul u v).

Definition col (A : Matrix) (j : nat) : Vector :=
  (fun r => default 0%float (r !! j)) <$> A.

(** [A.transpose()] for a matrix with [cols] columns *)
Definition transpose (cols : nat) (A : Matrix) : Matrix :=
  (fun j => col A j) <$> seq 0 cols.

(** [A * w.asDiagonal()] *)
Definition mul_diag (A : Matrix) (w : Vector) : Matrix :=
  (fun r => zip_with PrimFloat.mul r w) <$> A.

(** [A * B] for [B] with [cols] columns *)
Definition mul (cols : nat) (A B : Matrix) : Matrix :=
  (fun r => (fun j => dot r (col B j)) <$> seq 0 cols) <$> A.

(** [A * v] *)
Definition mul_vec (A : Matrix) (v : Vector) : Vector :=
  (fun r => dot r v) <$> A.

(** [A.trace()] *)
Definition trace (A : Matrix) : float :=
  sum ((fun i => coeff A i i) <$> seq 0 (rows A)).

(** A matrix with [n] rows of [m] entries each. *)
Definition shaped (n m : nat) (A : Matrix) : Prop :=
  length A = n /\ Forall (fun r => length r = m) A.

Lemma shaped_Zero n m : shaped n m (Zero n m).
Proof.
  split; [apply length_replicate |].
  apply Forall_replicate, length_replicate.
Qed.

Lemma shaped_set_coeff n m A i j v :
  shaped n m A -> shaped n m (set_coeff A i j v).
Proof.
  intros [Hn Hm]. split.
  - unfold set_coeff. by rewrite length_alter.
  - unfold set_coeff. apply Forall_alter; [done |].
    intros r _ Hr. by rewrite length_insert.
Qed.

Lemma shaped_row n m A i r : shaped n m A -> A !! i = Some r -> length r = m.
Proof.
  intros [_ Hm] Hi. rewrite Forall_lookup in Hm. by eapply Hm.
Qed.

Lemma coeff_set_coeff_eq n m A i j v :
  shaped n m A -> i < n -> j < m -> coeff (set_coeff A i j v) i j = v.
Proof.
  intros HA Hi Hj. unfold coeff, set_coeff.
  destruct (lookup_lt_is_Some_2 A i) as [r Hr]; [destruct HA; lia |].
  rewrite list_lookup_alter_eq, Hr. simpl.
  rewrite list_lookup_insert_eq; [done |].
  rewrite (shaped_row n m A i r); done.
Qed.

Lemma coeff_set_coeff_ne A i j i' j' v :
  (i, j) <> (i', j') -> coeff (set_coeff A i j v) i' j' = coeff A i' j'.
Proof.
  intros Hne. unfold coeff, set_coeff.
  destruct (decide (i = i')) as [->|Hi].
  - rewrite list_lookup_alter_eq.
    destruct (A !! i') as [r|]; simpl; [|done].
    rewrite list_lookup_insert_ne; [done | congruence].
  - by rewrite list_lookup_alter_ne.
Qed.

Lemma rows_set_coeff A i j v : rows (set_coeff A i j v) = rows A.
Proof. unfold rows, set_coeff. by rewrite length_alter. Qed.


(** *** Two loops shared by both strategies *)

(** The loop that fills a design matrix: row [i] gets [1] in column 0 and
    [val i j] in column [j + 1], and [Y(i)] gets [yval i]. *)
Lemma design_loop_spec k m (val : nat -> nat -> float) (yval : nat -> float)
    (X0 : Matrix) (Y0 : Vector) :
  shaped k (m + 1) X0 -> length Y0 = k ->
  let XY := for_loop 0 k (fun i '(X, Y) =>
              let X := for_loop 0 m (fun j X => set_coeff X i (j + 1) (val i j)) X in
              let Y := <[i := yval i]> Y in
              let X := set_coeff X i 0 1%float in
              (X, Y)) (X0, Y0) in
  shaped k (m + 1) XY.1 /\ length XY.2 = k /\
  forall i, i < k ->
    coeff XY.1 i 0 = 1%float /\
    (forall j, j < m -> coeff XY.1 i (j + 1) = val i j) /\
    vcoeff XY.2 i = yval i.
Proof.
  intros HX0 HY0 XY. subst XY.
  set (row_ok := fun (X : Matrix) (i : nat) =>
    coeff X i 0 = 1%float /\ forall j, j < m -> coeff X i (j + 1) = val i j).
  set (P := fun n (XY : Matrix * Vector) =>
    shaped k (m + 1) XY.1 /\ length XY.2 = k /\
    forall i, i < n -> row_ok XY.1 i /\ vcoeff XY.2 i = yval i).
  match goal with |- context [for_loop 0 k ?b ?s] =>
    assert (H : P k (for_loop 0 k b s)) end.
  { apply (for_loop_invariant P);
      [lia | split_and!; [exact HX0 | exact HY0 | intros; lia] |].
    intros i [X Y] Hi (HX & HY & Hrows). simpl in HX, HY, Hrows.
    set (inner := for_loop 0 m _ X).
    set (Q := fun n (X' : Matrix) =>
      shaped k (m + 1) X' /\
      (forall i', i' < i -> row_ok X' i') /\
      (forall j, j < n -> coeff X' i (j + 1) = val i j)).
    assert (Hinner : Q m inner).
    { subst inner. apply (for_loop_invariant Q);
        [lia | split_and!; [exact HX | intros i' Hi'; by apply Hrows | intros; lia] |].
      intros j X' Hj (HX' & Hprev & Hcur). split_and!.
      - by apply shaped_set_coeff.
      - intros i' Hi'. destruct (Hprev i' Hi') as [H0 Hj'].
        split.
        + rewrite coeff_set_coeff_ne; [done | intros [=]; lia].
        + intros j' Hj''. rewrite coeff_set_coeff_ne; [by apply Hj' | intros [=]; lia].
      - intros j' Hj'. destruct (decide (j' = j)) as [->|Hne].
        + by rewrite (coeff_set_coeff_eq k (m + 1)) by (done || lia).
        + rewrite coeff_set_coeff_ne; [apply Hcur; lia | intros [=]; lia]. }
    destruct Hinner as (Hsh & Hprev & Hcur). split_and!; simpl.
    - by apply shaped_set_coeff.
    - by rewrite length_insert.
    - intros i' Hi'. destruct (decide (i' = i)) as [->|Hne].
      + split; [split |].
        * by rewrite (coeff_set_coeff_eq k (m + 1)) by (done || lia).
        * intros j Hj. rewrite coeff_set_coeff_ne; [by apply Hcur | intros [=]; lia].
        * unfold vcoeff. rewrite list_lookup_insert_eq; [done | lia].
      + assert (Hlt : i' < i) by lia. split; [split |].
        * rewrite coeff_set_coeff_ne; [apply (Hprev i' Hlt) | intros [=]; lia].
        * intros j Hj. rewrite coeff_set_coeff_ne; [by apply (Hprev i' Hlt) | intros [=]; lia].
        * unfold vcoeff. rewrite list_lookup_insert_ne by lia.
          by apply (Hrows i' Hlt). }
  destruct H as (H1 & H2 & H3). split_and!; [done | done |].
  intros i Hi. destruct (H3 i Hi) as [[Ha Hb] Hc]. done.
Qed.

(** A loop that adds [delta M' i] to every diagonal entry from 1 to [nv]
    changes those entries only. *)
Lemma diagonal_loop_spec nv (delta : Matrix -> nat -> float) (M : Matrix) :
  shaped (nv + 1) (nv + 1) M ->
  (forall M' i, (forall a, coeff M' a a = coeff M a a \/ a < i) ->
                coeff M' i i = coeff M i i -> delta M' i = delta M i) ->
  let M1 := for_loop 1 (nv + 1) (fun i M' =>
              set_coeff M' i i (coeff M' i i + delta M' i)%float) M in
  shaped (nv + 1) (nv + 1) M1 /\
  (forall j, 1 <= j <= nv -> coeff M1 j j = (coeff M j j + delta M j)%float) /\
  (forall a b, a <> b \/ a = 0 \/ nv < a -> coeff M1 a b = coeff M a b).
Proof.
  intros HM Hdelta M1. subst M1.
  set (body := fun (i : nat) (M' : Matrix) =>
                 set_coeff M' i i (coeff M' i i + delta M' i)%float).
  set (P := fun n (M' : Matrix) =>
    shaped (nv + 1) (nv + 1) M' /\
    (forall j, 1 <= j < n -> coeff M' j j = (coeff M j j + delta M j)%float) /\
    (forall a b, a <> b \/ a = 0 \/ n <= a -> coeff M' a b = coeff M a b)).
  assert (Hinv : P (nv + 1) (for_loop 1 (nv + 1) body M)).
  { apply (for_loop_invariant P);
      [lia | split_and!; [exact HM | intros; lia | intros; reflexivity] |].
    intros i M' Hi (HM' & Hdone & Hrest). subst body. simpl. split_and!.
    - by apply shaped_set_coeff.
    - intros j Hj. destruct (decide (j = i)) as [->|Hne].
      + rewrite (coeff_set_coeff_eq (nv + 1) (nv + 1)) by (done || lia).
        rewrite (Hrest i i) by lia. f_equal. apply Hdelta.
        * intros a. destruct (decide (a < i)); [by right | left].
          apply Hrest. lia.
        * apply Hrest. lia.
      + rewrite coeff_set_coeff_ne by (intros [=]; lia). apply Hdone. lia.
    - intros a b Hab. rewrite coeff_set_coeff_ne by (intros [=]; lia).
      apply Hrest. lia. }
  destruct Hinv as (H1 & H2 & H3).
  split_and!; [done | intros; apply H2; lia |].
  intros a b Hab. apply H3. lia.
Qed.

End Eigen.

(** ** The collaborators of the prediction strategies *)

(** [Data]: the read interface [get(row, col)], [get_num_rows()],
    [get_num_cols()]. *)
Record Data := {
  get : nat -> nat -> float;
  get_num_rows : nat;
  get_num_cols : nat
}.

(** [Observations]: [get(type, sample)] and [get_num_samples()]. *)
Record Observations := {
  obs_get : nat -> nat -> float;
  get_num_samples : nat
}.

(** [PredictionValues]: one vector of values per node, empty when the tree has
    no leaf value for the sample. *)
Record PredictionValues := { values : list (list float) }.

Definition get_num_nodes (pv : PredictionValues) : nat := length (values pv).
Definition pv_empty (pv : PredictionValues) (n : nat) : bool :=
  match values pv !! n with Some (_ :: _) => false | _ => true end.
Definition pv_get (pv : PredictionValues) (n i : nat) : float :=
  Eigen.coeff (values pv) n i.

(** ** LocalLinearPredictionStrategy with linear correction variables
       and several penalties *)

Module LocalLinearMulti.
Import Loop Eigen Machine.

Record Strategy := {
  original_data : Data;
  test_data : Data;
  lambdas : list float;
  use_unweighted_penalty : bool;
  linear_correction_variables : list nat
}.

(** [const size_t LocalLinearPredictionStrategy::OUTCOME = 0] *)
Definition OUTCOME : nat := 0.

Definition prediction_length (self : Strategy) : nat := length (lambdas self).

Definition prediction_value_length : nat := 1.

(** [v[i]] on a [std::vector<size_t>] and on a [std::vector<double>]; the
    loops below only read inside the vector. *)
Definition at_index (v : list nat) (i : nat) : nat := default 0 (v !! i).
Definition at_value (v : list float) (i : nat) : float := default 0%float (v !! i).

Section WithSolver.
(** [Observations::OUTCOME], declared in a header that is not part of the
    sources. *)
Variable Observations_OUTCOME : nat.
(** [M.ldlt().solve(b)], Eigen's LDLT solver. *)
Variable ldlt_solve : Matrix -> Vector -> Vector.

(** The loop filling [X] and [Y]: row [i] is written for the [i]-th entry
    of the weight map. *)
Definition fill_design (self : Strategy) (sampleID : nat)
    (indices : list nat) (observations : Observations)
    (X : Matrix) (Y : Vector) : Matrix * Vector :=
  let num_variables := length (linear_correction_variables self) in
  let num_nonzero_weights := length indices in
  for_loop 0 num_nonzero_weights (fun i '(X, Y) =>
    let X := for_loop 0 num_variables (fun j X =>
      let current_predictor := at_index (linear_correction_variables self) j in
      set_coeff X i (j + 1)
        (get (original_data self) (at_index indices i) current_predictor
         - get (test_data self) sampleID current_predictor)%float) X in
    let Y := <[i := obs_get observations Observations_OUTCOME (at_index indices i)]> Y in
    let X := set_coeff X i 0 1%float in
    (X, Y)) (X, Y).

(** [X] and [Y] as [predict] builds them from the weight map. *)
Definition design (self : Strategy) (sampleID : nat)
    (weights_by_sampleID : list (nat * float))
    (observations : Observations) : Matrix * Vector :=
  let num_variables := length (linear_correction_variables self) in
  let num_nonzero_weights := length weights_by_sampleID in
  let indices := weights_by_sampleID.*1 in
  fill_design self sampleID indices observations
    (Zero num_nonzero_weights (num_variables + 1))
    (replicate num_nonzero_weights 0%float).

(** [X.transpose() * weights_vec.asDiagonal() * X] *)
Definition XtWX (num_variables : nat) (X : Matrix) (weights_vec : Vector) : Matrix :=
  mul (num_variables + 1) (mul_diag (transpose (num_variables + 1) X) weights_vec) X.

(** [X.transpose() * weights_vec.asDiagonal() * Y] *)
Definition XtWY (num_variables : nat) (X : Matrix) (weights_vec Y : Vector) : Vector :=
  mul_vec (mul_diag (transpose (num_variables + 1) X) weights_vec) Y.

(** The ridge penalty added to [M] for one [lambda]. *)
Definition regularize (use_unweighted_penalty : bool) (num_variables : nat)
    (lambda : float) (M : Matrix) : Matrix :=
  if use_unweighted_penalty then
    let normalization := (trace M / double_of_nat (num_variables + 1))%float in
    for_loop 1 (num_variables + 1) (fun i M =>
      set_coeff M i i (coeff M i i + lambda * normalization)%float) M
  else
    for_loop 1 (num_variables + 1) (fun i M =>
      set_coeff M i i (coeff M i i + lambda * coeff M i i)%float) M.

Definition predict (self : Strategy) (sampleID : nat)
    (weights_by_sampleID : list (nat * float))
    (observations : Observations) : list float :=
  let num_variables := length (linear_correction_variables self) in
  let weights_vec := weights_by_sampleID.*2 in
  let '(X, Y) := design self sampleID weights_by_sampleID observations in
  let M := XtWX num_variables X weights_vec in
  let M_stored := M in
  let num_lambdas := length (lambdas self) in
  let predictions := replicate num_lambdas 0%float in
  snd (for_loop 0 num_lambdas (fun i '(M, predictions) =>
    let lambda := at_value (lambdas self) i in
    let M := M_stored in
    let M := regularize (use_unweighted_penalty self) num_variables lambda M in
    let preds := ldlt_solve M (XtWY num_variables X weights_vec Y) in
    (M, <[i := vcoeff preds 0]> predictions)) (M, predictions)).

(** The prediction for one penalty, from the stored matrix. *)
Definition predict_one (self : Strategy) (sampleID : nat)
    (weights_by_sampleID : list (nat * float))
    (observations : Observations) (lambda : float) : float :=
  let num_variables := length (linear_correction_variables self) in
  let weights_vec := weights_by_sampleID.*2 in
  let '(X, Y) := design self sampleID weights_by_sampleID observations in
  let M_stored := XtWX num_variables X weights_vec in
  vcoeff (ldlt_solve
            (regularize (use_unweighted_penalty self) num_variables lambda M_stored)
            (XtWY num_variables X weights_vec Y)) 0.

(** *** The design matrix *)

Lemma fill_design_spec self sampleID indices observations X0 Y0 :
  let k := length indices in
  let nv := length (linear_correction_variables self) in
  shaped k (nv + 1) X0 -> length Y0 = k ->
  let XY := fill_design self sampleID indices observations X0 Y0 in
  shaped k (nv + 1) XY.1 /\ length XY.2 = k /\
  forall i, i < k ->
    coeff XY.1 i 0 = 1%float /\
    (forall j, j < nv ->
       coeff XY.1 i (j + 1) =
         (get (original_data self) (at_index indices i)
              (at_index (linear_correction_variables self) j)
          - get (test_data self) sampleID
              (at_index (linear_correction_variables self) j))%float) /\
    vcoeff XY.2 i = obs_get observations Observations_OUTCOME (at_index indices i).
Proof.
  intros k nv HX0 HY0.
  exact (design_loop_spec k nv
    (fun i j => (get (original_data self) (at_index indices i)
                     (at_index (linear_correction_variables self) j)
                 - get (test_data self) sampleID
                     (at_index (linear_correction_variables self) j))%float)
    (fun i => obs_get observations Observations_OUTCOME (at_index indices i))
    X0 Y0 HX0 HY0).
Qed.

(** *** The matrix [M] and its penalty *)

Lemma XtWX_shaped nv X w : shaped (nv + 1) (nv + 1) (XtWX nv X w).
Proof.
  unfold XtWX, mul, mul_diag, transpose. split.
  - by rewrite !length_fmap, length_seq.
  - apply Forall_fmap, Forall_forall. intros r _. simpl.
    by rewrite length_fmap, length_seq.
Qed.

Lemma regularize_shaped uw nv lambda M :
  shaped (nv + 1) (nv + 1) M -> shaped (nv + 1) (nv + 1) (regularize uw nv lambda M).
Proof.
  intros HM. unfold regularize. destruct uw.
  - by apply (diagonal_loop_spec nv
      (fun _ _ => (lambda * (trace M / double_of_nat (nv + 1)))%float) M).
  - apply (diagonal_loop_spec nv (fun M' i => (lambda * coeff M' i i)%float) M); [done |].
    intros M' i _ Hi. by rewrite Hi.
Qed.

Lemma regularize_unweighted_diagonal nv lambda M j :
  shaped (nv + 1) (nv + 1) M -> 1 <= j <= nv ->
  coeff (regularize true nv lambda M) j j =
    (coeff M j j + lambda * (trace M / double_of_nat (nv + 1)))%float.
Proof.
  intros HM Hj. unfold regularize.
  by apply (diagonal_loop_spec nv
    (fun _ _ => (lambda * (trace M / double_of_nat (nv + 1)))%float) M).
Qed.

Lemma regularize_covariance_diagonal nv lambda M j :
  shaped (nv + 1) (nv + 1) M -> 1 <= j <= nv ->
  coeff (regularize false nv lambda M) j j =
    (coeff M j j + lambda * coeff M j j)%float.
Proof.
  intros HM Hj. unfold regularize.
  apply (diagonal_loop_spec nv (fun M' i => (lambda * coeff M' i i)%float) M);
    [done | | done].
  intros M' i _ Hi. by rewrite Hi.
Qed.

Lemma regularize_elsewhere uw nv lambda M a b :
  shaped (nv + 1) (nv + 1) M -> a <> b \/ a = 0 \/ nv < a ->
  coeff (regularize uw nv lambda M) a b = coeff M a b.
Proof.
  intros HM Hab. unfold regularize. destruct uw.
  - by apply (diagonal_loop_spec nv
      (fun _ _ => (lambda * (trace M / double_of_nat (nv + 1)))%float) M).
  - apply (diagonal_loop_spec nv (fun M' i => (lambda * coeff M' i i)%float) M);
      [done | | done].
    intros M' i _ Hi. by rewrite Hi.
Qed.

(** *** The loop over the penalties *)

Lemma penalty_loop_spec (f : float -> float) (ls : list float) (M0 : Matrix)
    (step : float -> Matrix) :
  snd (for_loop 0 (length ls) (fun i '(M, predictions) =>
         let lambda := at_value ls i in
         (step lambda, <[i := f lambda]> predictions))
       (M0, replicate (length ls) 0%float))
  = f <$> ls.
Proof.
  set (body := fun (i : nat) '((M, predictions) : Matrix * list float) =>
         let lambda := at_value ls i in
         (step lambda, <[i := f lambda]> predictions)).
  set (P := fun n (s : Matrix * list float) =>
         s.2 = (f <$> take n ls) ++ replicate (length ls - n) 0%float).
  assert (H : P (length ls) (for_loop 0 (length ls) body (M0, replicate (length ls) 0%float))).
  { apply (for_loop_invariant P); [lia | |].
    - unfold P. simpl. by rewrite Nat.sub_0_r.
    - intros i [M preds] Hi HP. unfold P in *. simpl in *. subst preds.
      destruct (lookup_lt_is_Some_2 ls i) as [x Hx]; [lia |].
      unfold at_value. rewrite Hx. simpl.
      rewrite (take_S_r _ _ _ Hx), fmap_app. simpl.
      replace (length ls - i) with (Datatypes.S (length ls - Datatypes.S i)) by lia.
      simpl. rewrite <- app_assoc. simpl.
      rewrite insert_app_r_alt; rewrite length_fmap, length_take; [| lia].
      replace (i - i `min` length ls) with 0 by lia. done. }
  unfold P in H. rewrite H, Nat.sub_diag, firstn_all. simpl. by rewrite app_nil_r.
Qed.

Lemma predict_eq self sampleID weights observations :
  predict self sampleID weights observations =
    predict_one self sampleID weights observations <$> lambdas self.
Proof.
  unfold predict, predict_one.
  destruct (design self sampleID weights observations) as [X Y].
  apply (penalty_loop_spec
    (fun lambda => vcoeff (ldlt_solve
       (regularize (use_unweighted_penalty self)
          (length (linear_correction_variables self)) lambda
          (XtWX (length (linear_correction_variables self)) X weights.*2))
       (XtWY (length (linear_correction_variables self)) X weights.*2 Y)) 0)
    (lambdas self)
    (XtWX (length (linear_correction_variables self)) X weights.*2)
    (fun lambda => regularize (use_unweighted_penalty self)
          (length (linear_correction_variables self)) lambda
          (XtWX (length (linear_correction_variables self)) X weights.*2))).
Qed.

End WithSolver.

(** *** The variance estimate and the debiased error *)

(** The sums [compute_variance] accumulates over the groups of trees. *)
Record Scores := {
  num_good_groups : float;
  psi_squared : float;
  psi_grouped_squared : float;
  avg_score : float
}.

Definition no_scores : Scores :=
  {| num_good_groups := 0; psi_squared := 0; psi_grouped_squared := 0; avg_score := 0 |}.

(** [samples_by_tree[b]]; the loops only read inside the vector. *)
Definition at_tree (samples_by_tree : list (list nat)) (b : nat) : list nat :=
  default [] (samples_by_tree !! b).

(** The loop that decides whether a group is good: every one of its
    [ci_group_size] trees has a sample for the query. *)
Definition good_group (samples_by_tree : list (list nat)) (ci_group_size group : nat) : bool :=
  for_loop 0 ci_group_size (fun j good_group =>
    if length (at_tree samples_by_tree (group * ci_group_size + j)) =? 0
    then false else good_group) true.

(** [sample_index_map]: [-1] (as a [size_t]) everywhere, then the position
    of every sample of the weight map. *)
Definition sample_index_map (num_samples : nat) (indices : list nat) : list Z :=
  (for_loop 0 (length indices) (fun i map =>
     <[at_index indices i := Z.of_nat i]> map)
   (replicate num_samples (wrap64 (-1)))).

(** [pseudo_residual(sample_index_map[s])]: nothing when [s] is not a sample
    of the observations or has no weight, where the program reads outside
    its vectors. *)
Definition residual_of_sample (map : list Z) (pseudo_residual : Vector) (s : nat)
    : option float :=
  idx ← map !! s;
  if (idx <? Z.of_nat (length pseudo_residual))%Z
  then pseudo_residual !! Z.to_nat idx else None.

(** The mean pseudo-residual of the samples of tree [b]. *)
Definition tree_score (map : list Z) (pseudo_residual : Vector) (tree : list nat)
    : option float :=
  psi_1 ← foldl (fun acc s =>
             psi_1 ← acc; r ← residual_of_sample map pseudo_residual s;
             Some (psi_1 + r)%float) (Some 0%float) tree;
  Some (psi_1 / double_of_nat (length tree))%float.

(** One pass of the loop over the groups. *)
Definition score_group (map : list Z) (pseudo_residual : Vector)
    (samples_by_tree : list (list nat)) (ci_group_size group : nat)
    (acc : option Scores) : option Scores :=
  sc ← acc;
  if negb (good_group samples_by_tree ci_group_size group) then Some sc
  else
    let ngg := (num_good_groups sc + 1)%float in
    '(psi_sq, group_psi) ←
      for_loop 0 ci_group_size (fun j st =>
        '(psi_sq, group_psi) ← st;
        let b := group * ci_group_size + j in
        psi_1 ← tree_score map pseudo_residual (at_tree samples_by_tree b);
        Some ((psi_sq + psi_1 * psi_1)%float, (group_psi + psi_1)%float))
      (Some (psi_squared sc, 0%float));
    let group_psi := (group_psi / double_of_nat ci_group_size)%float in
    Some {| num_good_groups := ngg;
            psi_squared := psi_sq;
            psi_grouped_squared := (psi_grouped_squared sc + group_psi * group_psi)%float;
            avg_score := (avg_score sc + group_psi)%float |}.

Definition var_between (sc : Scores) : float :=
  let avg_score := (avg_score sc / num_good_groups sc)%float in
  (psi_grouped_squared sc / num_good_groups sc - avg_score * avg_score)%float.

Definition var_total (ci_group_size : nat) (sc : Scores) : float :=
  let avg_score := (avg_score sc / num_good_groups sc)%float in
  (psi_squared sc / (num_good_groups sc * double_of_nat ci_group_size)
   - avg_score * avg_score)%float.

Definition group_noise (ci_group_size : nat) (sc : Scores) : float :=
  ((var_total ci_group_size sc - var_between sc)
   / double_of_nat (ci_group_size - 1))%float.

Section WithDebiaser.
Variable Observations_OUTCOME : nat.
Variable ldlt_solve : Matrix -> Vector -> Vector.
(** [bayes_debiaser.debias(var_between, group_noise, num_good_groups)]; the
    debiaser's class is not part of the sources. *)
Variable debias : float -> float -> float -> float.

(** [pseudo_residual(i) = X_times_zeta(i) * (Y(i) - local_prediction(i))] *)
Definition pseudo_residuals (self : Strategy) (sampleID : nat)
    (weights_by_sampleID : list (nat * float)) (observations : Observations)
    (lambda : float) : Vector :=
  let num_variables := length (linear_correction_variables self) in
  let num_nonzero_weights := length weights_by_sampleID in
  let weights_vec := weights_by_sampleID.*2 in
  let '(X, Y) := design Observations_OUTCOME self sampleID weights_by_sampleID observations in
  let M := XtWX num_variables X weights_vec in
  let M := regularize (use_unweighted_penalty self) num_variables lambda M in
  let theta := ldlt_solve M (XtWY num_variables X weights_vec Y) in
  let e_one := <[0 := 1%float]> (replicate (num_variables + 1) 0%float) in
  let zeta := ldlt_solve M e_one in
  let X_times_zeta := mul_vec X zeta in
  let local_prediction := mul_vec X theta in
  for_loop 0 num_nonzero_weights (fun i pseudo_residual =>
    <[i := (vcoeff X_times_zeta i * (vcoeff Y i - vcoeff local_prediction i))%float]>
      pseudo_residual)
    (replicate num_nonzero_weights 0%float).

(** The sums after the loop over the groups. Nothing when
    [ci_group_size] is 0 (the number of groups divides by it) or [lambdas] is
    empty ([lambdas[0]]), or a tree holds a sample without weight. The lines
    written to [Rcpp::Rcout] on the way are not part of the result. *)
Definition scores (self : Strategy) (samples_by_tree : list (list nat))
    (ci_group_size : nat) (sampleID : nat)
    (weights_by_sampleID : list (nat * float)) (observations : Observations)
    : option Scores :=
  lambda ← lambdas self !! 0;
  let map := sample_index_map (get_num_samples observations) weights_by_sampleID.*1 in
  let pseudo_residual :=
    pseudo_residuals self sampleID weights_by_sampleID observations lambda in
  if ci_group_size =? 0 then None
  else
    for_loop 0 (length samples_by_tree / ci_group_size)
      (score_group map pseudo_residual samples_by_tree ci_group_size)
      (Some no_scores).

Definition compute_variance (self : Strategy) (samples_by_tree : list (list nat))
    (ci_group_size : nat) (sampleID : nat)
    (weights_by_sampleID : list (nat * float)) (observations : Observations)
    (leaf_values : PredictionValues) : option (list float) :=
  sc ← scores self samples_by_tree ci_group_size sampleID weights_by_sampleID observations;
  let var_debiased :=
    debias (var_between sc) (group_noise ci_group_size sc) (num_good_groups sc) in
  Some [var_debiased].

(** The loop over the leaf values: the sum of their squares and their
    number. *)
Definition squared_leaf_values (leaf_values : PredictionValues) : float * Z :=
  for_loop 0 (get_num_nodes leaf_values) (fun n '(bias, num_trees) =>
    if pv_empty leaf_values n then (bias, num_trees)
    else
      let tree_variance := pv_get leaf_values n OUTCOME in
      ((bias + tree_variance * tree_variance)%float, wrap64 (num_trees + 1)))
    (0%float, 0%Z).

Definition compute_debiased_error (sample : nat) (leaf_values : PredictionValues)
    (observations : Observations) : list float :=
  let outcome := obs_get observations Observations_OUTCOME sample in
  let error := outcome in
  let mse := (error * error)%float in
  let '(bias, num_trees) := squared_leaf_values leaf_values in
  if (num_trees <=? 1)%Z then [nan]
  else
    let bias := (bias / double_of_Z (wrap64 (num_trees * wrap64 (num_trees - 1))))%float in
    [(mse - bias)%float].

(** *** The groups of trees *)

(** The number of good groups among the [length samples_by_tree / ci_group_size]
    groups. *)
Definition count_good_groups (samples_by_tree : list (list nat)) (ci_group_size : nat) : nat :=
  length (List.filter (good_group samples_by_tree ci_group_size)
            (seq 0 (length samples_by_tree / ci_group_size))).

(** [num_good_groups] after [n] increments. *)
Definition counted (n : nat) : float := Nat.iter n (fun x => (x + 1)%float) 0%float.

Lemma score_group_bad map pr sbt g group acc :
  good_group sbt g group = false -> score_group map pr sbt g group acc = acc.
Proof. intros H. unfold score_group. rewrite H. by destruct acc. Qed.

Lemma score_group_good map pr sbt g group acc sc' :
  good_group sbt g group = true ->
  score_group map pr sbt g group acc = Some sc' ->
  exists sc, acc = Some sc /\ num_good_groups sc' = (num_good_groups sc + 1)%float.
Proof.
  intros H. unfold score_group. rewrite H. destruct acc as [sc|]; [|done].
  simpl. destruct (for_loop _ _ _ _) as [[psi_sq group_psi]|]; [|done].
  simpl. intros [= <-]. by exists sc.
Qed.

Lemma filter_length_snoc {A} (f : A -> bool) (l : list A) (x : A) :
  length (List.filter f (l ++ [x])) =
    (length (List.filter f l) + if f x then 1 else 0)%nat.
Proof.
  rewrite List.filter_app, length_app. simpl. by destruct (f x).
Qed.

Lemma scores_count self sbt g sampleID weights observations sc :
  scores self sbt g sampleID weights observations = Some sc ->
  num_good_groups sc = counted (count_good_groups sbt g).
Proof.
  unfold scores, count_good_groups.
  destruct (lambdas self !! 0) as [lambda|]; [|done]. simpl.
  destruct (g =? 0); [done |].
  set (map := sample_index_map _ _). set (pr := pseudo_residuals _ _ _ _ _).
  set (P := fun n (acc : option Scores) =>
    forall sc, acc = Some sc ->
      num_good_groups sc = counted (length (List.filter (good_group sbt g) (seq 0 n)))).
  intros H. revert sc H. change (P (length sbt / g)
    (for_loop 0 (length sbt / g) (score_group map pr sbt g) (Some no_scores))).
  apply (for_loop_invariant P); [lia | by intros sc [= <-] |].
  intros i acc Hi HP sc' Hsc'.
  rewrite seq_S, filter_length_snoc. simpl.
  destruct (good_group sbt g i) eqn:Hgood.
  - destruct (score_group_good _ _ _ _ _ _ _ Hgood Hsc') as (sc & -> & ->).
    rewrite (HP sc eq_refl), Nat.add_1_r. done.
  - rewrite score_group_bad in Hsc' by done. rewrite Nat.add_0_r. by apply HP.
Qed.

Lemma filter_length_0 {A} (f : A -> bool) (l : list A) :
  length (List.filter f l) = 0 -> forall x, In x l -> f x = false.
Proof.
  induction l as [|y l IH]; simpl; [done |].
  destruct (f y) eqn:Hy; simpl; [done |].
  intros H x [<-|Hx]; [done | by apply IH].
Qed.

Lemma scores_without_good_groups self sbt g sampleID weights observations :
  lambdas self <> [] -> 0 < g -> count_good_groups sbt g = 0 ->
  scores self sbt g sampleID weights observations = Some no_scores.
Proof.
  intros Hl Hg Hcount. unfold scores.
  destruct (lambdas self) as [|lambda ls] eqn:El; [done |]. simpl.
  destruct (Nat.eqb_spec g 0) as [->|_]; [lia |].
  set (map := sample_index_map _ _). set (pr := pseudo_residuals _ _ _ _ _).
  apply (for_loop_invariant (fun _ acc => acc = Some no_scores)); [lia | done |].
  intros i acc Hi ->. apply score_group_bad.
  apply (filter_length_0 _ _ Hcount). apply in_seq. lia.
Qed.

Lemma var_between_no_scores : var_between no_scores = nan.
Proof. reflexivity. Qed.

Lemma group_noise_no_scores g : group_noise g no_scores = nan.
Proof.
  unfold group_noise. rewrite var_between_no_scores, sub_nan_r. apply div_nan_l.
Qed.

(** *** The debiased error *)

(** The first value of every node that has values, in node order. *)
Definition leaf_outcomes (leaf_values : PredictionValues) : list float :=
  omap (fun vs => match vs with [] => None | v :: _ => Some v end) (values leaf_values).

Definition sum_of_squares (vs : list float) : float :=
  foldl (fun bias v => (bias + v * v)%float) 0%float vs.

Lemma leaf_outcomes_length leaf_values :
  length (leaf_outcomes leaf_values) <= get_num_nodes leaf_values.
Proof.
  unfold leaf_outcomes, get_num_nodes.
  induction (values leaf_values) as [|[|v vs] l IH]; simpl;
    try change (list_omap _ _ ?f ?k) with (omap f k); lia.
Qed.

Lemma squared_leaf_values_spec leaf_values :
  (Z.of_nat (get_num_nodes leaf_values) < 2 ^ 64)%Z ->
  squared_leaf_values leaf_values =
    (sum_of_squares (leaf_outcomes leaf_values),
     Z.of_nat (length (leaf_outcomes leaf_values))).
Proof.
  intros Hn. unfold squared_leaf_values, get_num_nodes in *.
  set (g := fun (o : option (list float)) '((bias, num_trees) : float * Z) =>
    match o with
    | Some (v :: _) => ((bias + v * v)%float, wrap64 (num_trees + 1))
    | _ => (bias, num_trees)
    end).
  rewrite (for_loop_ext _ _ _ (fun n t => g (values leaf_values !! n) t)).
  2:{ intros n [bias num] _. unfold g, pv_empty, pv_get, coeff, OUTCOME.
      destruct (values leaf_values !! n) as [[|v vs]|]; done. }
  rewrite for_loop_lookup. unfold leaf_outcomes, sum_of_squares.
  generalize 0%float as b.
  assert (Hgen : forall l b (c : nat),
    (Z.of_nat c + Z.of_nat (length l) < 2 ^ 64)%Z ->
    foldl (fun t x => g (Some x) t) (b, Z.of_nat c) l =
    (foldl (fun bias v => (bias + v * v)%float) b
       (omap (fun vs => match vs with [] => None | v :: _ => Some v end) l),
     Z.of_nat (c + length (omap (fun vs => match vs with [] => None | v :: _ => Some v end) l)))).
  { induction l as [|[|v vs] l IH]; intros b c Hc; simpl in *.
    - by rewrite Nat.add_0_r.
    - apply IH. lia.
    - rewrite wrap64_small by lia.
      replace (Z.of_nat c + 1)%Z with (Z.of_nat (Datatypes.S c)) by lia.
      rewrite IH by lia. f_equal.
      change (list_omap _ _ ?f ?k) with (omap f k). lia. }
  intros b. apply (Hgen (values leaf_values) b 0). lia.
Qed.

End WithDebiaser.
End LocalLinearMulti.


(** ** LocalLinearPredictionStrategy.cpp: one penalty, dense weights *)

Module LocalLinear.
Import Loop Eigen Machine.

Record Strategy := {
  original_data : Data;
  test_data : Data;
  lambda : float;
  ridge_type : bool
}.

(** [const size_t LocalLinearPredictionStrategy::OUTCOME = 0] *)
Definition OUTCOME : nat := 0.

Definition prediction_length : nat := 1.

Definition requires_leaf_sampleIDs : bool := true.

Section WithSolver.
(** [Observations::OUTCOME], declared in a header that is not part of the
    sources. *)
Variable Observations_OUTCOME : nat.
(** [M.colPivHouseholderQr().solve(b)], Eigen's pivoted QR solver. *)
Variable qr_solve : Matrix -> Vector -> Vector.

(** The [n] by [n] matrix [weights]: zero, then [weights(i,i) = weight] for
    every entry of the weight map. *)
Definition weights_matrix (n : nat) (weights_by_sampleID : list (nat * float)) : Matrix :=
  foldl (fun W '(i, weight) => set_coeff W i i weight) (Zero n n) weights_by_sampleID.

(** The loop filling [X] and [Y]: one row for every sample. *)
Definition fill_design (self : Strategy) (sampleID n p : nat)
    (observations : Observations) (X : Matrix) (Y : Vector) : Matrix * Vector :=
  for_loop 0 n (fun i '(X, Y) =>
    let X := for_loop 0 p (fun j X =>
      set_coeff X i (j + 1)
        (get (test_data self) sampleID j - get (original_data self) i j)%float) X in
    let Y := <[i := obs_get observations Observations_OUTCOME i]> Y in
    let X := set_coeff X i 0 1%float in
    (X, Y)) (X, Y).

Definition design (self : Strategy) (sampleID : nat)
    (observations : Observations) : Matrix * Vector :=
  let n := get_num_samples observations in
  let p := get_num_cols (test_data self) in
  fill_design self sampleID n p observations (Zero n (p + 1)) (replicate n 0%float).

(** The ridge penalty; [M.trace()/p+1] is read as C++ reads it,
    [(M.trace() / p) + 1]. *)
Definition regularize (ridge_type : bool) (p : nat) (lambda : float)
    (M : Matrix) : Matrix :=
  if ridge_type then
    let additional_regularization := (trace M / double_of_nat p + 1)%float in
    for_loop 1 (p + 1) (fun i M =>
      set_coeff M i i (coeff M i i + lambda * additional_regularization)%float) M
  else
    for_loop 1 (p + 1) (fun i M =>
      set_coeff M i i (coeff M i i + lambda * coeff M i i)%float) M.

(** [M = X.transpose()*weights*X] before the penalty. *)
Definition gram (self : Strategy) (sampleID : nat)
    (weights_by_sampleID : list (nat * float))
    (observations : Observations) : Matrix :=
  let n := get_num_samples observations in
  let p := get_num_cols (test_data self) in
  let weights := weights_matrix n weights_by_sampleID in
  let '(X, Y) := design self sampleID observations in
  mul (p + 1) (mul n (transpose (p + 1) X) weights) X.

(** [M] as the solver receives it. *)
Definition ridge_matrix (self : Strategy) (sampleID : nat)
    (weights_by_sampleID : list (nat * float))
    (observations : Observations) : Matrix :=
  let p := get_num_cols (test_data self) in
  regularize (ridge_type self) p (lambda self)
    (gram self sampleID weights_by_sampleID observations).

Definition predict (self : Strategy) (sampleID : nat)
    (weights_by_sampleID : list (nat * float))
    (observations : Observations) : list float :=
  let n := get_num_samples observations in
  let p := get_num_cols (test_data self) in
  let weights := weights_matrix n weights_by_sampleID in
  let '(X, Y) := design self sampleID observations in
  let M := ridge_matrix self sampleID weights_by_sampleID observations in
  let preds := qr_solve M (mul_vec (mul n (transpose (p + 1) X) weights) Y) in
  let yhat_vector := [] in
  yhat_vector ++ [vcoeff preds 0].

Lemma dense_design_spec self sampleID observations :
  let n := get_num_samples observations in
  let p := get_num_cols (test_data self) in
  let XY := design self sampleID observations in
  shaped n (p + 1) XY.1 /\ length XY.2 = n /\
  forall i, i < n ->
    coeff XY.1 i 0 = 1%float /\
    (forall j, j < p ->
       coeff XY.1 i (j + 1) =
         (get (test_data self) sampleID j - get (original_data self) i j)%float) /\
    vcoeff XY.2 i = obs_get observations Observations_OUTCOME i.
Proof.
  intros n p.
  exact (design_loop_spec n p
    (fun i j => (get (test_data self) sampleID j - get (original_data self) i j)%float)
    (fun i => obs_get observations Observations_OUTCOME i)
    (Zero n (p + 1)) (replicate n 0%float)
    (shaped_Zero n (p + 1)) (length_replicate n 0%float)).
Qed.

Lemma gram_shaped self sampleID weights observations :
  let p := get_num_cols (test_data self) in
  shaped (p + 1) (p + 1) (gram self sampleID weights observations).
Proof.
  intros p. unfold gram. fold p.
  destruct (design self sampleID observations) as [X Y].
  unfold mul, transpose. split.
  - by rewrite !length_fmap, length_seq.
  - apply Forall_fmap, Forall_forall. intros r _. simpl.
    by rewrite length_fmap, length_seq.
Qed.

(** What the standard-penalty branch adds to the diagonal. *)
Lemma dense_regularize_diagonal p lam M j :
  shaped (p + 1) (p + 1) M -> 1 <= j <= p ->
  coeff (regularize true p lam M) j j =
    (coeff M j j + lam * (trace M / double_of_nat p + 1))%float.
Proof.
  intros HM Hj. unfold regularize.
  by apply (diagonal_loop_spec p
    (fun _ _ => (lam * (trace M / double_of_nat p + 1))%float) M).
Qed.

End WithSolver.
End LocalLinear.


(** ** RandomSampler.cpp *)

Module Sampling.
Import Machine.

(** *** What the sampler takes from the platform *)

(** [double] arithmetic as [RandomSampler.cpp] uses it: the conversion of a
    [size_t] or [uint], product, quotient, comparison, and the two conversions
    back to integers, [(uint) std::ceil(x)] and [(size_t) x]. A conversion
    whose value does not fit has no defined result. *)
Class Arith := {
  double : Type;
  of_size : Z -> double;
  dmul : double -> double -> double;
  ddiv : double -> double -> double;
  dle : double -> double -> bool;
  dlt : double -> double -> bool;
  ceil_to_uint : double -> option Z;
  trunc_to_size : double -> option Z
}.

(** The integer value of a finite binary64 number rounded up ([up = true])
    or toward zero. *)
Definition integer_part (up : bool) (x : spec_float) : option Z :=
  match x with
  | S754_zero _ => Some 0%Z
  | S754_finite s m e =>
      let q := if (0 <=? e)%Z then (Z.pos m * 2 ^ e)%Z else (Z.pos m / 2 ^ (- e))%Z in
      let exact := (0 <=? e)%Z || (Z.pos m mod 2 ^ (- e) =? 0)%Z in
      Some (if s then (- q)%Z else if up && negb exact then (q + 1)%Z else q)
  | _ => None
  end.

Definition in_range (bits : Z) (z : Z) : option Z :=
  if (0 <=? z)%Z && (z <? 2 ^ bits)%Z then Some z else None.

(** The program's arithmetic: IEEE binary64. *)
Definition binary64 : Arith := {|
  double := float;
  of_size := double_of_Z;
  dmul := PrimFloat.mul;
  ddiv := PrimFloat.div;
  dle := PrimFloat.leb;
  dlt := PrimFloat.ltb;
  ceil_to_uint := fun x => integer_part true (Prim2SF x) ≫= in_range 32;
  trunc_to_size := fun x => integer_part false (Prim2SF x) ≫= in_range 64
|}.

(** Arithmetic without rounding, on the rationals. *)
Definition exact : Arith := {|
  double := Q;
  of_size := inject_Z;
  dmul := Qmult;
  ddiv := Qdiv;
  dle := Qle_bool;
  dlt := fun x y => negb (Qle_bool y x);
  ceil_to_uint := fun x => in_range 32 (Qceiling x);
  trunc_to_size := fun x => in_range 64 (Z.quot (Qnum x) (Z.pos (Qden x)))
|}.

(** The standard library's random engine and distributions, each a function
    of the engine's state: [random_number_generator.seed(seed)],
    [std::shuffle], [uniform_int_distribution<size_t>(a, b)],
    [uniform_real_distribution<double>(0.0, 1.0)],
    [discrete_distribution<>(weights)] and [poisson_distribution<size_t>(mean)]. *)
Class StdRandom (A : Arith) := {
  engine : Type;
  seed_engine : Z -> engine;
  std_shuffle : list Z -> engine -> list Z * engine;
  uniform_int : Z -> Z -> engine -> Z * engine;
  uniform_real : engine -> double * engine;
  discrete : list double -> engine -> Z * engine;
  poisson : Z -> engine -> Z * engine
}.

(** *** Outcomes *)

(** A call returns, or fails, or is still retrying when its budget of loop
    iterations is spent. [Fault] stands for an exception
    ([std::length_error] from [resize]) and also for a step that C++ leaves
    undefined (a read outside a vector, a conversion of a [double] that does
    not fit, an overflow of an [int]): past such a step nothing is said about
    what a build of the program does. *)
Inductive outcome (T : Type) : Type :=
  | Done (x : T)
  | Fault
  | OutOfFuel.
Arguments Done {T} x.
Arguments Fault {T}.
Arguments OutOfFuel {T}.

Definition obind {T U : Type} (m : outcome T) (f : T -> outcome U) : outcome U :=
  match m with
  | Done x => f x
  | Fault => Fault
  | OutOfFuel => OutOfFuel
  end.

#[global] Instance outcome_bind : MBind outcome := fun _ _ f m => obind m f.
#[global] Instance outcome_ret : MRet outcome := fun _ x => Done x.

Definition of_option {T : Type} (o : option T) : outcome T :=
  match o with Some x => Done x | None => Fault end.

(** *** Vectors *)

(** [std::vector<size_t>::max_size()] where [size_t] has 64 bits. *)
Definition max_size : Z := (2 ^ 63 - 1) / 8.

Definition size_of (v : list Z) : Z := Z.of_nat (length v).

(** [v.resize(n)]: the first [n] elements, padded with zeros; a length
    above [max_size] throws. *)
Definition resize (n : Z) (v : list Z) : outcome (list Z) :=
  if (max_size <? n)%Z then Fault
  else Done (take (Z.to_nat n) v ++ replicate (Z.to_nat n - length v) 0%Z).

(** The indices [0 .. n-1]. *)
Definition first_indices (n : nat) : list Z := Z.of_nat <$> seq 0 n.

(** [std::iota(v.begin(), v.end(), 0)] on a vector of [n] elements. The
    counter has the type of the literal [0], [int], and is incremented once
    for every element: from [2^31] elements on the increment overflows. *)
Definition iota (n : nat) : outcome (list Z) :=
  if (Z.of_nat n <? 2 ^ 31)%Z then Done (first_indices n) else Fault.

(** [for (auto& skip_value : skip) if (draw >= skip_value) ++draw;] over the
    set in increasing order. *)
Definition skip_shift (skip : list Z) (draw : Z) : Z :=
  foldl (fun draw skip_value =>
           if (skip_value <=? draw)%Z then wrap64 (draw + 1) else draw) draw skip.

(** *** The sampler *)

(** Modelled from the spec: [SamplingOptions] is missing from the sources. It
    holds the per-row draw weights (empty for uniform draws), the cluster map
    from cluster id to row indices (empty for no clustering) and
    [samples_per_cluster]. *)
Record SamplingOptions {A : Arith} := {
  sample_weights : list double;
  cluster_map : gmap Z (list Z);
  samples_per_cluster : Z
}.
Arguments SamplingOptions : clear implicits.

Definition opt_clustering_enabled {A : Arith} (o : SamplingOptions A) : bool :=
  negb (bool_decide (cluster_map o = ∅)).
Definition get_num_clusters {A : Arith} (o : SamplingOptions A) : Z :=
  Z.of_nat (size (cluster_map o)).

Record RandomSampler {A : Arith} {R : StdRandom A} := {
  options : SamplingOptions A;
  random_number_generator : engine
}.
Arguments RandomSampler A R : clear implicits.

Section Sampler.
Context {A : Arith} {R : StdRandom A}.

Abbreviation Sampler := (RandomSampler A R).

(** [RandomSampler::RandomSampler(seed, options)] *)
Definition new (seed : Z) (options : SamplingOptions A) : Sampler :=
  {| options := options; random_number_generator := seed_engine seed |}.

Definition with_engine (s : Sampler) (g : engine) : Sampler :=
  {| options := options s; random_number_generator := g |}.

(** [cluster_map[cluster_id]] on the non-const map: the key is converted to
    [uint], and a missing key is inserted with an empty vector. *)
Definition cluster_lookup (s : Sampler) (cluster_id : Z) : list Z * Sampler :=
  let key := wrap32 cluster_id in
  match cluster_map (options s) !! key with
  | Some obs => (obs, s)
  | None =>
      ([], {| options := {| sample_weights := sample_weights (options s);
                            cluster_map := <[key := []]> (cluster_map (options s));
                            samples_per_cluster := samples_per_cluster (options s) |};
              random_number_generator := random_number_generator s |})
  end.

(** [std::shuffle(v.begin(), v.end(), random_number_generator)] *)
Definition shuffle (v : list Z) (s : Sampler) : list Z * Sampler :=
  let '(v', g) := std_shuffle v (random_number_generator s) in (v', with_engine s g).

Definition shuffle_and_split (samples : list Z) (n_all size : Z) (s : Sampler)
    : outcome (list Z * Sampler) :=
  samples ← resize n_all samples ;
  samples ← iota (length samples) ;
  let '(samples, s) := shuffle samples s in
  samples ← resize size samples ;
  Done (samples, s).

(** The retry loop of [draw_weighted]. The source reads [temp[draw]]
    unchecked: a draw beyond the [max + 1] flags is a read outside the
    vector. *)
Fixpoint draw_weighted_retry (fuel : nat) (weights : list double) (temp : list bool)
    (g : engine) : outcome (Z * engine) :=
  match fuel with
  | O => OutOfFuel
  | S fuel' =>
      let '(draw, g) := discrete weights g in
      match temp !! Z.to_nat draw with
      | None => Fault
      | Some true => draw_weighted_retry fuel' weights temp g
      | Some false => Done (draw, g)
      end
  end.

(** A loop body run [n] times. *)
Fixpoint repeat_loop {T : Type} (n : nat) (body : T -> outcome T) (t : T) : outcome T :=
  match n with
  | O => Done t
  | S n' => t' ← body t ; repeat_loop n' body t'
  end.

Definition draw_weighted (fuel : nat) (result : list Z) (max num_samples : Z)
    (weights : list double) (s : Sampler) : outcome (list Z * Sampler) :=
  if (max_size <? num_samples)%Z then Fault
  else
    let temp := replicate (Z.to_nat (wrap64 (max + 1))) false in
    '(result, temp, g) ←
      repeat_loop (Z.to_nat num_samples) (fun '(result, temp, g) =>
        '(draw, g) ← draw_weighted_retry fuel weights temp g ;
        Done (result ++ [draw], <[Z.to_nat draw := true]> temp, g))
      (result, temp, random_number_generator s) ;
    Done (result, with_engine s g).

Definition sample (fuel : nat) (num_samples : Z) (sample_fraction : double)
    (samples : list Z) (s : Sampler) : outcome (list Z * Sampler) :=
  num_samples_inbag ← of_option (trunc_to_size (dmul (of_size num_samples) sample_fraction)) ;
  match sample_weights (options s) with
  | [] => shuffle_and_split samples num_samples num_samples_inbag s
  | _ => draw_weighted fuel samples (wrap64 (num_samples - 1)) num_samples_inbag
           (sample_weights (options s)) s
  end.

(** [sample_clusters(data, ...)] reads [data->get_num_rows()] only. *)
Definition sample_clusters (fuel : nat) (n_rows : Z) (sample_fraction : double)
    (samples : list Z) (s : Sampler) : outcome (list Z * Sampler) :=
  if opt_clustering_enabled (options s) then
    let num_samples := get_num_clusters (options s) in
    sample fuel num_samples sample_fraction samples s
  else
    let num_samples := n_rows in
    sample fuel num_samples sample_fraction samples s.

(** [(uint) std::ceil(samples.size() * sample_fraction)] *)
Definition subsample_size (samples : list Z) (sample_fraction : double) : option Z :=
  ceil_to_uint (dmul (of_size (size_of samples)) sample_fraction).

(** [subsample] with one output. [std::copy] reads [subsamples.size()]
    elements of the shuffled vector; the source does not test that it holds
    as many, and where it does not the copy reads past its end. *)
Definition subsample (samples : list Z) (sample_fraction : double)
    (subsamples : list Z) (s : Sampler) : outcome (list Z * Sampler) :=
  let '(shuffled_sample, s) := shuffle samples s in
  subsample_size ← of_option (subsample_size samples sample_fraction) ;
  subsamples ← resize subsample_size subsamples ;
  if (size_of shuffled_sample <? size_of subsamples)%Z then Fault
  else Done (take (length subsamples) shuffled_sample, s).

(** [subsample] with two outputs. The conversion to [uint] is unchecked in
    the source; [oob_samples.resize] throws when the difference of the sizes
    has wrapped around. *)
Definition subsample_oob (samples : list Z) (sample_fraction : double)
    (subsamples oob_samples : list Z) (s : Sampler)
    : outcome (list Z * list Z * Sampler) :=
  let '(shuffled_sample, s) := shuffle samples s in
  subsample_size ← of_option (subsample_size samples sample_fraction) ;
  subsamples ← resize subsample_size subsamples ;
  oob_samples ← resize (wrap64 (size_of samples - subsample_size)) oob_samples ;
  if (size_of shuffled_sample <? size_of subsamples)%Z then Fault
  else Done (take (length subsamples) shuffled_sample,
             drop (length subsamples) shuffled_sample, s).

(** One pass of the loop of [sample_from_clusters]. *)
Definition sample_from_cluster (cluster_id : Z) (st : list Z * Sampler)
    : outcome (list Z * Sampler) :=
  let '(samples, s) := st in
  let '(cluster_obs, s) := cluster_lookup s cluster_id in
  let cluster_obs_sample_fraction :=
    ddiv (of_size (samples_per_cluster (options s))) (of_size (size_of cluster_obs)) in
  '(cluster_obs_subsample, _, s) ←
    subsample_oob cluster_obs cluster_obs_sample_fraction [] [] s ;
  Done (samples ++ cluster_obs_subsample, s).

Fixpoint for_each {T : Type} (l : list Z) (body : Z -> T -> outcome T) (t : T)
    : outcome T :=
  match l with
  | [] => Done t
  | x :: l' => t' ← body x t ; for_each l' body t'
  end.

Definition sample_from_clusters (cluster_samples samples : list Z) (s : Sampler)
    : outcome (list Z * Sampler) :=
  for_each cluster_samples sample_from_cluster (samples, s).

(** The retry loop of [draw_simple]: draw, step over the skipped values,
    until the value has not been drawn before. [temp[draw]] is read
    unchecked. *)
Fixpoint draw_simple_retry (fuel : nat) (upper : Z) (skip : list Z) (temp : list bool)
    (g : engine) : outcome (Z * engine) :=
  match fuel with
  | O => OutOfFuel
  | S fuel' =>
      let '(draw, g) := uniform_int 0 upper g in
      let draw := skip_shift skip draw in
      match temp !! Z.to_nat draw with
      | None => Fault
      | Some true => draw_simple_retry fuel' upper skip temp g
      | Some false => Done (draw, g)
      end
  end.

Definition draw_simple (fuel : nat) (result : list Z) (max : Z) (skip : list Z)
    (num_samples : Z) (s : Sampler) : outcome (list Z * Sampler) :=
  if (max_size <? num_samples)%Z then Fault
  else
    let temp := replicate (Z.to_nat max) false in
    let upper := wrap64 (max - 1 - size_of skip) in
    '(result, temp, g) ←
      repeat_loop (Z.to_nat num_samples) (fun '(result, temp, g) =>
        '(draw, g) ← draw_simple_retry fuel upper skip temp g ;
        Done (result ++ [draw], <[Z.to_nat draw := true]> temp, g))
      (result, temp, random_number_generator s) ;
    Done (result, with_engine s g).

(** The loop of [draw_knuth]. *)
Fixpoint draw_knuth_loop (fuel : nat) (size_no_skip num_samples : Z) (skip : list Z)
    (result : list Z) (i j : Z) (g : engine) : outcome (list Z * engine) :=
  if (i <? num_samples)%Z then
    match fuel with
    | O => OutOfFuel
    | S fuel' =>
        let '(u, g) := uniform_real g in
        if dle (of_size (wrap64 (num_samples - i)))
               (dmul (of_size (wrap64 (size_no_skip - j))) u)
        then draw_knuth_loop fuel' size_no_skip num_samples skip result
               i (wrap64 (j + 1)) g
        else
          let final_value := skip_shift skip j in
          draw_knuth_loop fuel' size_no_skip num_samples skip
            (<[Z.to_nat i := final_value]> result)
            (wrap64 (i + 1)) (wrap64 (j + 1)) g
    end
  else Done (result, g).

Definition draw_knuth (fuel : nat) (result : list Z) (max : Z) (skip : list Z)
    (num_samples : Z) (s : Sampler) : outcome (list Z * Sampler) :=
  let size_no_skip := wrap64 (max - size_of skip) in
  result ← resize num_samples result ;
  '(result, g) ←
    draw_knuth_loop fuel size_no_skip num_samples skip result 0 0
      (random_number_generator s) ;
  Done (result, with_engine s g).

Definition draw (fuel : nat) (result : list Z) (max : Z) (skip : list Z)
    (num_samples : Z) (s : Sampler) : outcome (list Z * Sampler) :=
  if (num_samples <? max / 2)%Z then draw_simple fuel result max skip num_samples s
  else draw_knuth fuel result max skip num_samples s.

Definition sample_poisson (mean : Z) (s : Sampler) : Z * Sampler :=
  let '(x, g) := poisson mean (random_number_generator s) in (x, with_engine s g).

Definition clustering_enabled (s : Sampler) : bool :=
  opt_clustering_enabled (options s).

End Sampler.

(** *** A counting engine

    A stand-in for the standard library's engine, for running the sampler on
    concrete inputs: the state is a counter, a draw from [a..b] is the counter
    reduced into the range, [std::shuffle] rotates by the counter. *)

Definition counting_engine (A : Arith) : StdRandom A := {|
  engine := Z;
  seed_engine := fun seed => seed;
  std_shuffle := fun v g => (rotate (Z.to_nat (Z.abs g)) v, (g + 1)%Z);
  uniform_int := fun a b g => ((a + g mod (b - a + 1))%Z, (g + 1)%Z);
  uniform_real := fun g => (ddiv (of_size (g mod 2)) (of_size 2), (g + 1)%Z);
  discrete := fun weights g => ((g mod Z.of_nat (length weights))%Z, (g + 1)%Z);
  poisson := fun mean g => (mean, (g + 1)%Z)
|}.

End Sampling.


(** ** What the sampler's properties rest on *)

Module SamplingLaws.
Import Machine Sampling.

(** Two facts of [double] arithmetic: a size scaled by a fraction between 0
    and 1 and rounded up is a [uint] no larger than the size, and a positive
    size scaled by a number below 1 stays below the size. Both are proved
    for binary64 below. *)
Class ArithLaws (A : Arith) : Prop := {
  ceil_fraction : forall n f,
    (0 <= n < 2 ^ 32)%Z ->
    dle (of_size 0) f = true -> dle f (of_size 1) = true ->
    exists c, ceil_to_uint (dmul (of_size n) f) = Some c /\ (0 <= c <= n)%Z;
  scale_below : forall r u,
    (1 <= r < 2 ^ 64)%Z ->
    dle (of_size 0) u = true -> dlt u (of_size 1) = true ->
    dle (of_size r) (dmul (of_size r) u) = false
}.

(** The engine after [k] draws from [uniform_int a b]. *)
Definition after_draws {A : Arith} {R : StdRandom A} (a b : Z) (k : nat) (g : engine) : engine :=
  Nat.iter k (fun g => (uniform_int a b g).2) g.

(** The contracts of the standard library: [std::shuffle] permutes,
    [uniform_int_distribution(a, b)] draws from [a..b] and sooner or later
    draws every value of the range, [uniform_real_distribution(0, 1)] draws
    from [0, 1). *)
Class StdRandomLaws {A : Arith} (R : StdRandom A) : Prop := {
  shuffle_permutation : forall v g, (std_shuffle v g).1 ≡ₚ v;
  uniform_int_range : forall a b g,
    (a <= b)%Z -> (a <= (uniform_int a b g).1 <= b)%Z;
  uniform_int_fair : forall a b g v,
    (a <= v <= b)%Z -> exists k, (uniform_int a b (after_draws a b k g)).1 = v;
  uniform_real_unit : forall g,
    dle (of_size 0) (uniform_real g).1 = true /\
    dlt (uniform_real g).1 (of_size 1) = true
}.

(** Arithmetic on the rationals has both facts. *)
Lemma exact_laws : ArithLaws exact.
Proof.
  split.
  - intros n f Hn Hf0 Hf1. simpl in *.
    apply Qle_bool_iff in Hf0, Hf1.
    assert (H0 : (0 <= inject_Z n * f)%Q).
    { apply Qmult_le_0_compat; [| done]. change 0%Q with (inject_Z 0).
      rewrite <- Zle_Qle. lia. }
    assert (H1 : (inject_Z n * f <= inject_Z n)%Q).
    { assert (Hn0 : (0 <= inject_Z n)%Q).
      { change 0%Q with (inject_Z 0). rewrite <- Zle_Qle. lia. }
      pose proof (Qmult_le_compat_nonneg (inject_Z n) (inject_Z n) f 1
        (conj Hn0 (Qle_refl _)) (conj Hf0 Hf1)) as H.
      by rewrite Qmult_1_r in H. }
    exists (Qceiling (inject_Z n * f)).
    assert (Hc : (0 <= Qceiling (inject_Z n * f) <= n)%Z).
    { split.
      - change 0%Z with (Qceiling (inject_Z 0)). by apply Qceiling_resp_le.
      - rewrite <- (Qceiling_Z n) at 2. by apply Qceiling_resp_le. }
    split; [| done]. unfold in_range.
    destruct (Z.leb_spec 0 (Qceiling (inject_Z n * f))); [| lia].
    destruct (Z.ltb_spec (Qceiling (inject_Z n * f)) (2 ^ 32)); [done | lia].
  - intros r u Hr Hu0 Hu1. simpl in *.
    apply Qle_bool_iff in Hu0. apply negb_true_iff in Hu1.
    destruct (Qle_bool (inject_Z r) (inject_Z r * u)) eqn:E; [| done].
    apply Qle_bool_iff in E.
    assert (Hu : (u < 1)%Q).
    { apply Qnot_le_lt. intros H. apply Qle_bool_iff in H. change (inject_Z 1) with 1%Q in Hu1.
      congruence. }
    assert (Hr0 : (0 < inject_Z r)%Q).
    { change 0%Q with (inject_Z 0). rewrite <- Zlt_Qlt. lia. }
    assert (Hlt : (inject_Z r * u < inject_Z r * 1)%Q).
    { by apply Qmult_lt_l. }
    rewrite Qmult_1_r in Hlt. exfalso. eapply Qlt_not_le; done.
Qed.

Lemma rotate_permutation (n : nat) (v : list Z) : rotate n v ≡ₚ v.
Proof.
  unfold rotate. rewrite Permutation_app_comm. by rewrite take_drop.
Qed.

Lemma counting_after_draws {A : Arith} (a b : Z) (k : nat) (g : Z) :
  @after_draws A (counting_engine A) a b k g = (g + Z.of_nat k)%Z.
Proof.
  unfold after_draws. induction k as [|k IH]; [simpl; lia |].
  rewrite Nat.iter_succ, IH. simpl. lia.
Qed.

(** The counting engine keeps the library's contracts, given that its
    [uniform_real] draws, 0 and 1/2, are in [0, 1). *)
Lemma counting_engine_laws (A : Arith) :
  (forall z, (0 <= z < 2)%Z ->
     dle (of_size 0) (ddiv (of_size z) (of_size 2)) = true /\
     dlt (ddiv (of_size z) (of_size 2)) (of_size 1) = true) ->
  StdRandomLaws (counting_engine A).
Proof.
  intros Hunit. split.
  - intros v g. simpl. apply rotate_permutation.
  - intros a b g Hab. simpl.
    pose proof (Z.mod_pos_bound g (b - a + 1)). lia.
  - intros a b g v Hv.
    exists (Z.to_nat ((v - a - g) mod (b - a + 1))).
    rewrite counting_after_draws. simpl.
    pose proof (Z.mod_pos_bound (v - a - g) (b - a + 1)).
    rewrite Z2Nat.id by lia.
    rewrite Zplus_mod_idemp_r.
    replace (g + (v - a - g))%Z with (v - a)%Z by lia.
    rewrite Z.mod_small; lia.
  - intros g. simpl. apply Hunit. apply Z.mod_pos_bound. lia.
Qed.

Lemma counting_exact_laws : StdRandomLaws (counting_engine exact).
Proof.
  apply counting_engine_laws. intros z Hz.
  assert (z = 0 \/ z = 1)%Z as [-> | ->] by lia; by vm_compute.
Qed.

Lemma counting_binary64_laws : StdRandomLaws (counting_engine binary64).
Proof.
  apply counting_engine_laws. intros z Hz.
  assert (z = 0 \/ z = 1)%Z as [-> | ->] by lia; by vm_compute.
Qed.

End SamplingLaws.


(** ** Both facts hold in IEEE binary64

    The kernel specifies [float] by [SpecFloat]: a product is the exact
    product of the mantissas rounded to nearest, ties to even, by
    [binary_round_aux]. This section reads that rounding off as arithmetic on
    integers and derives the two facts the sampler rests on. *)

Module Binary64.
Import Machine Sampling SamplingLaws.
Local Open Scope Z_scope.

(** [iter_pos] is iteration. *)
Lemma iter_pos_nat {T : Type} (f : T -> T) (p : positive) (x : T) :
  SpecFloat.iter_pos f p x = Nat.iter (Pos.to_nat p) f x.
Proof.
  revert x. induction p as [p IH|p IH|]; intros x.
  - change (SpecFloat.iter_pos f p~1 x)
      with (SpecFloat.iter_pos f p (SpecFloat.iter_pos f p (f x))).
    rewrite !IH, Pos2Nat.inj_xI.
    replace (Datatypes.S (2 * Pos.to_nat p)) with (Pos.to_nat p + (Pos.to_nat p + 1))%nat by lia.
    rewrite !Nat.iter_add. done.
  - change (SpecFloat.iter_pos f p~0 x)
      with (SpecFloat.iter_pos f p (SpecFloat.iter_pos f p x)).
    rewrite !IH, Pos2Nat.inj_xO.
    replace (2 * Pos.to_nat p)%nat with (Pos.to_nat p + Pos.to_nat p)%nat by lia.
    by rewrite Nat.iter_add.
  - done.
Qed.

(** One step of the right shift: the mantissa is halved, the round bit is
    the bit shifted out, the sticky bit collects the earlier ones. *)
Lemma shr_1_spec (m : Z) (r s : bool) :
  0 <= m ->
  shr_1 {| shr_m := m; shr_r := r; shr_s := s |}
  = {| shr_m := m / 2; shr_r := Z.odd m; shr_s := r || s |}.
Proof.
  intros Hm. rewrite <- Z.div2_div.
  destruct m as [|[p|p|]|]; done || lia.
Qed.

Lemma mod_pow2_succ (m j : Z) :
  0 <= j ->
  m mod 2 ^ (j + 1) = m mod 2 ^ j + 2 ^ j * Z.b2z (Z.testbit m j).
Proof.
  intros Hj. rewrite Z.pow_add_r, Z.pow_1_r by lia.
  rewrite Z.rem_mul_r by lia. by rewrite Z.testbit_spec' by lia.
Qed.

Lemma iter_shr_1 (j : nat) (m : Z) :
  0 <= m ->
  Nat.iter (Datatypes.S j) shr_1 {| shr_m := m; shr_r := false; shr_s := false |}
  = {| shr_m := m / 2 ^ (Z.of_nat j + 1);
       shr_r := Z.testbit m (Z.of_nat j);
       shr_s := negb (m mod 2 ^ Z.of_nat j =? 0) |}.
Proof.
  intros Hm. induction j as [|j IH].
  - unfold Nat.iter. cbn [nat_rect]. rewrite shr_1_spec by done.
    change (Z.of_nat 0) with 0. rewrite Z.bit0_odd, Z.mod_1_r. done.
  - rewrite Nat.iter_succ, IH.
    rewrite shr_1_spec by (apply Z.div_pos; lia).
    rewrite Nat2Z.inj_succ. unfold Z.succ.
    assert (E1 : m / 2 ^ (Z.of_nat j + 1) / 2 = m / 2 ^ (Z.of_nat j + 1 + 1)).
    { rewrite Z.div_div by lia. f_equal.
      rewrite (Z.pow_add_r 2 (Z.of_nat j + 1) 1) by lia. done. }
    assert (E2 : Z.odd (m / 2 ^ (Z.of_nat j + 1)) = Z.testbit m (Z.of_nat j + 1)).
    { by rewrite Z.testbit_odd, Z.shiftr_div_pow2 by lia. }
    assert (E3 : Z.testbit m (Z.of_nat j) || negb (m mod 2 ^ Z.of_nat j =? 0)
                 = negb (m mod 2 ^ (Z.of_nat j + 1) =? 0)).
    { rewrite (mod_pow2_succ m (Z.of_nat j)) by lia.
      pose proof (Z.mod_pos_bound m (2 ^ Z.of_nat j) ltac:(lia)).
      assert (0 < 2 ^ Z.of_nat j) by lia.
      destruct (Z.testbit m (Z.of_nat j)); simpl.
      - symmetry. apply negb_true_iff, Z.eqb_neq. lia.
      - f_equal. f_equal. lia. }
    by rewrite E1, E2, E3.
Qed.

Lemma shr_exact (m e k : Z) :
  0 <= m -> 0 < k ->
  shr {| shr_m := m; shr_r := false; shr_s := false |} e k
  = ({| shr_m := m / 2 ^ k;
        shr_r := Z.testbit m (k - 1);
        shr_s := negb (m mod 2 ^ (k - 1) =? 0) |}, e + k).
Proof.
  intros Hm Hk. destruct k as [|p|p]; [lia | | lia].
  unfold shr. rewrite iter_pos_nat.
  destruct (Pos2Nat.is_succ p) as [j Hj]. rewrite Hj, iter_shr_1 by done.
  assert (E : Z.of_nat j + 1 = Z.pos p).
  { rewrite <- (positive_nat_Z p), Hj. lia. }
  rewrite E. replace (Z.of_nat j) with (Z.pos p - 1) by lia. done.
Qed.

(** The mantissa [m] shifted right by [k] and rounded to nearest, ties to
    even. *)
Definition rounded (m k : Z) : Z :=
  round_nearest_even (m / 2 ^ k)
    (loc_of_shr_record
       {| shr_m := m / 2 ^ k;
          shr_r := Z.testbit m (k - 1);
          shr_s := negb (m mod 2 ^ (k - 1) =? 0) |}).

Lemma rounded_spec (m k : Z) :
  0 <= m -> 0 < k ->
  m / 2 ^ k <= rounded m k <= m / 2 ^ k + 1 /\
  (2 * (m mod 2 ^ k) < 2 ^ k -> rounded m k = m / 2 ^ k).
Proof.
  intros Hm Hk. unfold rounded.
  pose proof (mod_pow2_succ m (k - 1) ltac:(lia)) as Hrem.
  replace (k - 1 + 1) with k in Hrem by lia.
  assert (Hpow : 2 ^ k = 2 * 2 ^ (k - 1)).
  { rewrite <- Z.pow_succ_r by lia. f_equal. lia. }
  pose proof (Z.mod_pos_bound m (2 ^ (k - 1)) ltac:(lia)) as Hlow.
  destruct (Z.testbit m (k - 1)), (Z.eqb_spec (m mod 2 ^ (k - 1)) 0) as [E|E];
    simpl in *; try destruct (Z.even (m / 2 ^ k)); lia.
Qed.

(** Rounding never passes a point of the grid. *)
Lemma rounded_le (m k B : Z) :
  0 <= m -> 0 < k -> m <= B * 2 ^ k -> rounded m k <= B.
Proof.
  intros Hm Hk HB.
  destruct (rounded_spec m k Hm Hk) as [[_ Hup] Hdown].
  assert (Hp : 0 < 2 ^ k) by lia.
  pose proof (Z.div_mod m (2 ^ k) ltac:(lia)) as Hdm.
  pose proof (Z.mod_pos_bound m (2 ^ k) Hp) as Hr.
  destruct (decide (m mod 2 ^ k = 0)) as [E|E].
  - rewrite Hdown by lia. nia.
  - assert (m / 2 ^ k < B) by nia. lia.
Qed.

(** *** The number of binary digits *)

Lemma digits2_pos_bounds (p : positive) :
  2 ^ (Z.pos (digits2_pos p) - 1) <= Z.pos p < 2 ^ Z.pos (digits2_pos p).
Proof.
  induction p as [p IH|p IH|]; [| | done].
  - cbn [digits2_pos]. rewrite Pos2Z.inj_succ. change (Z.pos p~1) with (2 * Z.pos p + 1).
    replace (Z.succ (Z.pos (digits2_pos p)) - 1) with (Z.succ (Z.pos (digits2_pos p) - 1)) by lia.
    rewrite !Z.pow_succ_r by lia. lia.
  - cbn [digits2_pos]. rewrite Pos2Z.inj_succ. change (Z.pos p~0) with (2 * Z.pos p).
    replace (Z.succ (Z.pos (digits2_pos p)) - 1) with (Z.succ (Z.pos (digits2_pos p) - 1)) by lia.
    rewrite !Z.pow_succ_r by lia. lia.
Qed.

Lemma Zdigits2_bounds (m : Z) :
  0 < m -> 0 < Zdigits2 m /\ 2 ^ (Zdigits2 m - 1) <= m < 2 ^ Zdigits2 m.
Proof.
  intros Hm. destruct m as [|p|p]; [lia | | lia].
  split; [done | apply digits2_pos_bounds].
Qed.

Lemma Zdigits2_le (m d : Z) : 0 < m -> m < 2 ^ d -> Zdigits2 m <= d.
Proof.
  intros Hm Hd. destruct (Zdigits2_bounds m Hm) as [Hpos [Hlo _]].
  destruct (Z_lt_le_dec d 0) as [Hneg|Hnn].
  { rewrite Z.pow_neg_r in Hd by done. lia. }
  destruct (Z_le_gt_dec (Zdigits2 m) d) as [|Hgt]; [done |].
  pose proof (Z.pow_le_mono_r 2 d (Zdigits2 m - 1) ltac:(lia) ltac:(lia)). lia.
Qed.

Lemma Zdigits2_ge (m d : Z) : 0 < m -> 2 ^ (d - 1) <= m -> d <= Zdigits2 m.
Proof.
  intros Hm Hd. destruct (Zdigits2_bounds m Hm) as [Hpos [_ Hhi]].
  destruct (Z_le_gt_dec d (Zdigits2 m)) as [|Hgt]; [done |].
  pose proof (Z.pow_le_mono_r 2 (Zdigits2 m) (d - 1) ltac:(lia) ltac:(lia)). lia.
Qed.

(** *** Rounding a mantissa and an exponent to binary64 *)

Lemma fexp_eq (x : Z) : fexp prec emax x = Z.max (x - 53) (-1074).
Proof. reflexivity. Qed.

Lemma shr_fexp_exact (m e : Z) :
  0 <= m ->
  let e1 := Z.max e (fexp prec emax (Zdigits2 m + e)) in
  shr_fexp prec emax m e loc_Exact
  = (if e <? e1
     then {| shr_m := m / 2 ^ (e1 - e);
             shr_r := Z.testbit m (e1 - e - 1);
             shr_s := negb (m mod 2 ^ (e1 - e - 1) =? 0) |}
     else {| shr_m := m; shr_r := false; shr_s := false |}, e1).
Proof.
  intros Hm e1. unfold shr_fexp. cbn [shr_record_of_loc].
  destruct (Z.ltb_spec e e1) as [Hlt|Hge].
  - rewrite shr_exact by lia. f_equal; [| lia]. repeat f_equal; lia.
  - assert (E : fexp prec emax (Zdigits2 m + e) - e <= 0) by lia.
    unfold shr. destruct (fexp prec emax (Zdigits2 m + e) - e) as [|p|p] eqn:Hk; [| lia |];
      f_equal; lia.
Qed.

(** The mantissa and exponent [binary_round_aux] leaves: one rounding to the
    exponent of the number's magnitude, then one more shift if the rounding
    carried into a new digit. *)
Definition round_mantissa (m e : Z) : Z * Z :=
  let e1 := Z.max e (fexp prec emax (Zdigits2 m + e)) in
  let m2 := if e <? e1 then rounded m (e1 - e) else m in
  let e3 := Z.max e1 (fexp prec emax (Zdigits2 m2 + e1)) in
  (m2 / 2 ^ (e3 - e1), e3).

Lemma binary_round_aux_spec (s : bool) (m e : Z) :
  0 < m ->
  binary_round_aux prec emax s m e loc_Exact
  = match (round_mantissa m e).1 with
    | Z0 => S754_zero s
    | Z.pos p =>
        if (round_mantissa m e).2 <=? emax - prec
        then S754_finite s p (round_mantissa m e).2 else S754_infinity s
    | Z.neg _ => S754_nan
    end.
Proof.
  intros Hm. unfold binary_round_aux, round_mantissa.
  rewrite shr_fexp_exact by lia.
  set (e1 := Z.max e (fexp prec emax (Zdigits2 m + e))).
  set (m2 := if e <? e1 then rounded m (e1 - e) else m).
  assert (Hm2 : round_nearest_even
            (shr_m (if e <? e1
                    then {| shr_m := m / 2 ^ (e1 - e);
                            shr_r := Z.testbit m (e1 - e - 1);
                            shr_s := negb (m mod 2 ^ (e1 - e - 1) =? 0) |}
                    else {| shr_m := m; shr_r := false; shr_s := false |}))
            (loc_of_shr_record
                   (if e <? e1
                    then {| shr_m := m / 2 ^ (e1 - e);
                            shr_r := Z.testbit m (e1 - e - 1);
                            shr_s := negb (m mod 2 ^ (e1 - e - 1) =? 0) |}
                    else {| shr_m := m; shr_r := false; shr_s := false |})) = m2).
  { unfold m2. by destruct (e <? e1). }
  rewrite Hm2.
  assert (Hm2pos : 0 <= m2).
  { unfold m2. destruct (Z.ltb_spec e e1); [| lia].
    destruct (rounded_spec m (e1 - e) ltac:(lia) ltac:(lia)) as [[Hlo _] _].
    pose proof (Z.div_pos m (2 ^ (e1 - e)) ltac:(lia) ltac:(lia)). lia. }
  rewrite shr_fexp_exact by done.
  set (e3 := Z.max e1 (fexp prec emax (Zdigits2 m2 + e1))).
  cbn [fst snd].
  assert (E : shr_m (if e1 <? e3
                     then {| shr_m := m2 / 2 ^ (e3 - e1);
                             shr_r := Z.testbit m2 (e3 - e1 - 1);
                             shr_s := negb (m2 mod 2 ^ (e3 - e1 - 1) =? 0) |}
                     else {| shr_m := m2; shr_r := false; shr_s := false |})
              = m2 / 2 ^ (e3 - e1)).
  { destruct (Z.ltb_spec e1 e3); [done |]. cbn [shr_m].
    replace (e3 - e1) with 0 by lia. by rewrite Z.pow_0_r, Z.div_1_r. }
  rewrite E. done.
Qed.

(** A rounded mantissa of at least 53 digits in the normal range has 53
    digits, at the exponent of the number's magnitude or, after a carry, one
    above. *)
Lemma round_mantissa_normal (m e : Z) :
  0 < m -> 53 <= Zdigits2 m -> -1074 <= Zdigits2 m + e - 53 ->
  Zdigits2 (round_mantissa m e).1 = 53 /\
  0 < (round_mantissa m e).1 /\
  Zdigits2 m + e - 53 <= (round_mantissa m e).2 <= Zdigits2 m + e - 52.
Proof.
  intros Hm Hd Hn. unfold round_mantissa. rewrite !fexp_eq.
  destruct (Zdigits2_bounds m Hm) as [_ [Hlo Hhi]].
  set (d := Zdigits2 m) in *.
  replace (Z.max e (Z.max (d + e - 53) (-1074))) with (d + e - 53) by lia.
  set (e1 := d + e - 53).
  set (m2 := if e <? e1 then rounded m (e1 - e) else m).
  assert (Hm2 : 2 ^ 52 <= m2 <= 2 ^ 53).
  { unfold m2. destruct (Z.ltb_spec e e1) as [Hlt|Hge].
    - destruct (rounded_spec m (e1 - e) ltac:(lia) ltac:(lia)) as [[H1 H2] _].
      assert (Hk : e1 - e = d - 53) by (unfold e1; lia).
      rewrite Hk in *.
      assert (Hpow : 2 ^ d = 2 ^ 53 * 2 ^ (d - 53)).
      { rewrite <- Z.pow_add_r by lia. f_equal. lia. }
      assert (Hpow' : 2 ^ (d - 1) = 2 ^ 52 * 2 ^ (d - 53)).
      { rewrite <- Z.pow_add_r by lia. f_equal. lia. }
      assert (Hp : 0 < 2 ^ (d - 53)) by lia.
      assert (2 ^ 52 <= m / 2 ^ (d - 53)).
      { apply Z.div_le_lower_bound; lia. }
      assert (m / 2 ^ (d - 53) < 2 ^ 53).
      { apply Z.div_lt_upper_bound; lia. }
      lia.
    - assert (d = 53) by (unfold e1 in Hge; lia).
      replace (d - 1) with 52 in Hlo by lia. replace d with 53 in Hhi by lia. lia. }
  destruct (decide (m2 = 2 ^ 53)) as [E|E].
  - rewrite E. change (Zdigits2 (2 ^ 53)) with 54.
    replace (Z.max e1 (Z.max (54 + e1 - 53) (-1074))) with (e1 + 1) by lia.
    replace (e1 + 1 - e1) with 1 by lia. cbn [fst snd].
    change (2 ^ 53 / 2 ^ 1) with (2 ^ 52). change (Zdigits2 (2 ^ 52)) with 53. lia.
  - assert (Hd2 : Zdigits2 m2 = 53).
    { apply Z.le_antisymm.
      - apply Zdigits2_le; lia.
      - apply Zdigits2_ge; [lia |]. change (53 - 1) with 52. lia. }
    rewrite Hd2.
    replace (Z.max e1 (Z.max (53 + e1 - 53) (-1074))) with e1 by lia.
    rewrite Z.sub_diag, Z.pow_0_r, Z.div_1_r. cbn [fst snd]. lia.
Qed.

(** *** Valid numbers *)

Lemma valid_finite (s : bool) (m : positive) (e : Z) :
  valid_binary (S754_finite s m e) = true ->
  Z.max (Zdigits2 (Z.pos m) + e - 53) (-1074) = e /\ e <= 971.
Proof.
  unfold SpecFloat.valid_binary, bounded, canonical_mantissa. rewrite fexp_eq.
  intros H. apply andb_true_iff in H as [H1 H2].
  apply Z.eqb_eq in H1. apply Z.leb_le in H2.
  change (emax - prec) with 971 in H2. done.
Qed.

Lemma finite_valid (s : bool) (m : positive) (e : Z) :
  Zdigits2 (Z.pos m) = 53 -> -1074 <= e <= 971 ->
  valid_binary (S754_finite s m e) = true.
Proof.
  intros Hd He. unfold SpecFloat.valid_binary, bounded, canonical_mantissa.
  rewrite fexp_eq. change (Z.pos (digits2_pos m)) with (Zdigits2 (Z.pos m)).
  rewrite Hd. apply andb_true_iff. split; [apply Z.eqb_eq | apply Z.leb_le]; [lia |].
  change (emax - prec) with 971. lia.
Qed.

(** *** The conversion of a [size_t] *)

Lemma iter_xO (p d : positive) : Z.pos (Pos.iter xO p d) = Z.pos p * 2 ^ Z.pos d.
Proof.
  induction d as [|d IH] using Pos.peano_ind.
  - cbn [Pos.iter]. change (Z.pos p~0) with (2 * Z.pos p). change (2 ^ 1) with 2. lia.
  - rewrite Pos.iter_succ. change (Z.pos (Pos.iter xO p d)~0) with (2 * Z.pos (Pos.iter xO p d)).
    rewrite IH, Pos2Z.inj_succ, Z.pow_succ_r by lia. lia.
Qed.

Lemma double_of_Z_spec (r : Z) :
  1 <= r < 2 ^ 64 ->
  exists M E,
    Prim2SF (double_of_Z r) = S754_finite false M E /\
    Zdigits2 (Z.pos M) = 53 /\ -52 <= E <= 12 /\
    (r < 2 ^ 53 -> E <= 0 /\ Z.pos M = r * 2 ^ (- E)).
Proof.
  intros Hr. destruct r as [|p|p]; [lia | | lia].
  destruct (Zdigits2_bounds (Z.pos p) ltac:(lia)) as [Hdpos [Hlo Hhi]].
  assert (Hd64 : Zdigits2 (Z.pos p) <= 64) by (apply Zdigits2_le; lia).
  set (d := Zdigits2 (Z.pos p)) in *.
  unfold double_of_Z, binary_normalize, binary_round. rewrite fexp_eq.
  change (Z.pos (digits2_pos p)) with d. rewrite Z.add_0_r.
  replace (Z.max (d - 53) (-1074)) with (d - 53) by lia.
  unfold shl_align. rewrite Z.sub_0_r.
  destruct (d - 53) as [|k|k] eqn:Hk.
  - (* exactly 53 digits *)
    rewrite binary_round_aux_spec by lia.
    destruct (round_mantissa_normal (Z.pos p) 0 ltac:(lia) ltac:(fold d; lia) ltac:(fold d; lia))
      as (H1 & H2 & H3). fold d in H3.
    assert (Hexact : round_mantissa (Z.pos p) 0 = (Z.pos p, 0)).
    { unfold round_mantissa. rewrite !fexp_eq. fold d.
      replace (Z.max 0 (Z.max (d + 0 - 53) (-1074))) with 0 by lia.
      rewrite Z.ltb_irrefl. fold d.
      replace (Z.max 0 (Z.max (d + 0 - 53) (-1074))) with 0 by lia.
      by rewrite Z.sub_diag, Z.pow_0_r, Z.div_1_r. }
    rewrite Hexact. cbn [fst snd]. change (0 <=? emax - prec) with true. cbn iota.
    exists p, 0. rewrite Prim2SF_SF2Prim by (apply finite_valid; [fold d; lia | lia]).
    split_and!; [done | fold d; lia | lia | lia |]. intros _. split; [lia |].
    change (- 0) with 0. rewrite Z.pow_0_r. lia.
  - (* more than 53 digits: rounded *)
    rewrite binary_round_aux_spec by lia.
    destruct (round_mantissa_normal (Z.pos p) 0 ltac:(lia) ltac:(fold d; lia) ltac:(fold d; lia))
      as (H1 & H2 & H3). fold d in H3.
    destruct (round_mantissa (Z.pos p) 0) as [m3 e3]. cbn [fst snd] in *.
    destruct m3 as [|M|M]; [lia | | lia].
    assert (He3 : e3 <= 971) by lia.
    apply Z.leb_le in He3 as He3'. change (emax - prec) with 971. rewrite He3'.
    exists M, e3. rewrite Prim2SF_SF2Prim by (apply finite_valid; [done | lia]).
    split_and!; [done | done | lia | lia |].
    intros Hsmall. assert (d <= 53) by (apply Zdigits2_le; lia). lia.
  - (* fewer than 53 digits: shifted left, exact *)
    rewrite binary_round_aux_spec by lia.
    assert (Hmz : Z.pos (Pos.iter xO p k) = Z.pos p * 2 ^ (53 - d)).
    { rewrite iter_xO. f_equal. f_equal. lia. }
    assert (Hpow : 2 ^ 53 = 2 ^ d * 2 ^ (53 - d)).
    { rewrite <- Z.pow_add_r by lia. f_equal. lia. }
    assert (Hpow' : 2 ^ 52 = 2 ^ (d - 1) * 2 ^ (53 - d)).
    { rewrite <- Z.pow_add_r by lia. f_equal. lia. }
    assert (Hp : 0 < 2 ^ (53 - d)) by lia.
    assert (Hdz : Zdigits2 (Z.pos (Pos.iter xO p k)) = 53).
    { apply Z.le_antisymm.
      - apply Zdigits2_le; [lia |]. rewrite Hmz. nia.
      - apply Zdigits2_ge; [lia |]. change (53 - 1) with 52. rewrite Hmz. nia. }
    assert (Hexact : round_mantissa (Z.pos (Pos.iter xO p k)) (Z.neg k)
                     = (Z.pos (Pos.iter xO p k), Z.neg k)).
    { unfold round_mantissa. rewrite !fexp_eq, Hdz.
      replace (Z.max (Z.neg k) (Z.max (53 + Z.neg k - 53) (-1074))) with (Z.neg k) by lia.
      rewrite Z.ltb_irrefl, Hdz.
      replace (Z.max (Z.neg k) (Z.max (53 + Z.neg k - 53) (-1074))) with (Z.neg k) by lia.
      by rewrite Z.sub_diag, Z.pow_0_r, Z.div_1_r. }
    rewrite Hexact. cbn [fst snd].
    assert (He : (Z.neg k <=? emax - prec) = true) by (apply Z.leb_le; change (emax - prec) with 971; lia).
    rewrite He.
    exists (Pos.iter xO p k), (Z.neg k).
    rewrite Prim2SF_SF2Prim by (apply finite_valid; [done | lia]).
    split_and!; [done | done | lia | lia |]. intros _. split; [lia |].
    rewrite Hmz. f_equal. f_equal. lia.
Qed.

(** *** Numbers between 0 and 1 *)

Lemma zero_spec : Prim2SF (double_of_Z 0) = S754_zero false.
Proof. reflexivity. Qed.

Lemma one_spec : Prim2SF (double_of_Z 1) = S754_finite false 4503599627370496 (-52).
Proof. reflexivity. Qed.

(** A number [u] with [0 <= u < 1] is a zero or a positive
    [mu * 2^eu] of at most 53 digits with [eu <= -53]. *)
Lemma below_one (u : float) :
  (double_of_Z 0 <=? u)%float = true -> (u <? double_of_Z 1)%float = true ->
  (exists s, Prim2SF u = S754_zero s) \/
  (exists mu eu, Prim2SF u = S754_finite false mu eu /\
     eu <= -53 /\ Z.pos mu < 2 ^ 53).
Proof.
  rewrite leb_spec, ltb_spec, zero_spec, one_spec.
  pose proof (Prim2SF_valid u) as Hv.
  destruct (Prim2SF u) as [s|s| |s mu eu]; intros H0 H1.
  - left. by exists s.
  - by destruct s.
  - done.
  - right. destruct s; [done |].
    apply valid_finite in Hv as [Hc _].
    destruct (Zdigits2_bounds (Z.pos mu) ltac:(lia)) as [Hdpos [Hlo Hhi]].
    set (d := Zdigits2 (Z.pos mu)) in *.
    assert (Hd : d <= 53) by lia.
    assert (Hmu : Z.pos mu < 2 ^ 53).
    { pose proof (Z.pow_le_mono_r 2 d 53 ltac:(lia) Hd). lia. }
    exists mu, eu. split_and!; [done | | done].
    unfold SFltb, SFcompare in H1.
    destruct (Z.compare_spec eu (-52)) as [E|E|E]; [| lia | done].
    subst eu. assert (d = 53) by lia.
    assert (Hge : 2 ^ 52 <= Z.pos mu).
    { replace (d - 1) with 52 in Hlo by lia. done. }
    rewrite Pos.compare_cont_spec in H1. cbn [Pos.switch_Eq] in H1.
    destruct (Pos.compare_spec mu 4503599627370496) as [E|E|E]; try done.
    apply Pos2Z.pos_lt_pos in E. change (Z.pos 4503599627370496) with (2 ^ 52) in E.
    clear -E Hge. lia.
Qed.

Lemma pow_split (a b : Z) : 0 <= a -> 0 <= b -> 2 ^ (a + b) = 2 ^ a * 2 ^ b.
Proof. intros. by rewrite Z.pow_add_r. Qed.

(** *** The second fact: a size scaled by a number below 1 is below it *)

Lemma scaled_mantissa_below (M mu E eu : Z) :
  2 ^ 52 <= M < 2 ^ 53 -> -52 <= E -> 0 < mu < 2 ^ 53 -> eu <= -53 ->
  let r := round_mantissa (M * mu) (E + eu) in
  0 <= r.1 /\ r.2 <= E /\ (r.2 = E -> r.1 < M).
Proof.
  intros HM HE Hmu Heu. cbv zeta. unfold round_mantissa. rewrite !fexp_eq.
  set (m := M * mu). set (e := E + eu).
  assert (Hm : 0 < m) by (unfold m; nia).
  destruct (Zdigits2_bounds m Hm) as [Hdpos [Hlo Hhi]].
  set (d := Zdigits2 m) in *.
  set (w := - eu).
  assert (Hw : 53 <= w) by (unfold w; lia).
  (* the magnitude of the product *)
  assert (Hd : d <= 106).
  { apply Zdigits2_le; [done |]. unfold m. change (2 ^ 106) with (2 ^ 53 * 2 ^ 53). nia. }
  set (e1 := Z.max e (Z.max (d + e - 53) (-1074))).
  assert (He1 : e1 <= E) by (unfold e1, e; lia).
  set (t := E - e1).
  (* [u <= 1 - 2^-53], in units of [2^-w] *)
  set (V := 2 ^ (w - 53)).
  assert (HV : 1 <= V) by (unfold V; lia).
  assert (HW : 2 ^ w = 2 ^ 53 * V).
  { unfold V. rewrite <- pow_split by lia. f_equal. lia. }
  assert (Hprod : m <= M * 2 ^ w - M * V).
  { unfold m. rewrite HW. nia. }
  set (m2 := if e <? e1 then rounded m (e1 - e) else m).
  assert (Hm2 : 0 <= m2 < M * 2 ^ t).
  { unfold m2. destruct (Z.ltb_spec e e1) as [Hlt|Hge].
    - set (k := e1 - e).
      assert (Hk : 0 < k) by (unfold k; lia).
      assert (Hwk : w = t + k) by (unfold w, t, k, e; lia).
      assert (Hsplit : 2 ^ w = 2 ^ t * 2 ^ k).
      { rewrite Hwk. apply pow_split; unfold t; lia. }
      assert (HT : 0 < 2 ^ t) by (unfold t; lia).
      assert (HK : 0 < 2 ^ k) by lia.
      destruct (rounded_spec m k ltac:(lia) Hk) as [[Hq1 Hq2] Hdown].
      pose proof (Z.div_pos m (2 ^ k) ltac:(lia) HK) as Hq0.
      split; [lia |].
      destruct (decide (t = 0)) as [Ht0|Ht0].
      + (* the grid of the size itself: the product rounds down *)
        rewrite Ht0, Z.pow_0_r, Z.mul_1_r.
        rewrite Ht0, Z.pow_0_r, Z.mul_1_l in Hsplit.
        assert (Hkw : k = w) by lia.
        assert (Hd53 : d = 53 + w) by (unfold t, e1, e, w in *; lia).
        assert (Hhalf : 2 ^ w = 2 * (2 ^ 52 * V)) by (rewrite HW; lia).
        assert (Hlow : 2 ^ 52 * 2 ^ w <= m).
        { replace (d - 1) with (52 + w) in Hlo by lia.
          rewrite pow_split in Hlo by lia. done. }
        rewrite Hkw in *.
        pose proof (Z.div_mod m (2 ^ w) ltac:(lia)) as Hdm.
        pose proof (Z.mod_pos_bound m (2 ^ w) ltac:(lia)) as Hr.
        assert (HMgt : 2 ^ 52 < M) by nia.
        assert (Hq : m / 2 ^ w <= M - 1) by nia.
        destruct (decide (m / 2 ^ w = M - 1)) as [Eq|Ne]; [| lia].
        rewrite Hdown; [lia |]. nia.
      + (* a finer grid: the next point below the size bounds the product *)
        assert (Ht : 1 <= t) by (unfold t in *; lia).
        assert (HT2 : 2 <= 2 ^ t).
        { pose proof (Z.pow_le_mono_r 2 1 t ltac:(lia) Ht). lia. }
        assert (Hle : rounded m k <= M * 2 ^ t - 1); [| lia].
        apply rounded_le; [lia | done |]. nia.
    - assert (Hte : t = w) by (unfold t, w, e, e1 in *; lia).
      rewrite Hte, HW. unfold m. nia. }
  cbn [fst snd].
  set (e3 := Z.max e1 (Z.max (Zdigits2 m2 + e1 - 53) (-1074))).
  assert (HT : 0 < 2 ^ t) by (unfold t; lia).
  assert (He3 : e3 <= E).
  { destruct (decide (m2 = 0)) as [->|Hne]; [change (Zdigits2 0) with 0 in e3; lia |].
    assert (Zdigits2 m2 <= 53 + t); [| unfold e3, t in *; lia].
    apply Zdigits2_le; [lia |]. rewrite pow_split by (unfold t; lia). nia. }
  split_and!.
  - apply Z.div_pos; [lia |]. assert (0 <= e3 - e1) by lia. lia.
  - done.
  - intros HeE. rewrite HeE. fold t. apply Z.div_lt_upper_bound; lia.
Qed.

Lemma binary64_scale_below (r : Z) (u : float) :
  1 <= r < 2 ^ 64 ->
  (double_of_Z 0 <=? u)%float = true -> (u <? double_of_Z 1)%float = true ->
  (double_of_Z r <=? double_of_Z r * u)%float = false.
Proof.
  intros Hr H0 H1.
  destruct (double_of_Z_spec r Hr) as (M & E & HR & HdM & HE & _).
  rewrite leb_spec, mul_spec, HR.
  destruct (below_one u H0 H1) as [[s Hu] | (mu & eu & Hu & Heu & Hmu)]; rewrite Hu.
  { reflexivity. }
  unfold SF64mul, SFmul. cbn [xorb].
  change (Z.pos (M * mu)) with (Z.pos M * Z.pos mu).
  rewrite binary_round_aux_spec by lia.
  destruct (Zdigits2_bounds (Z.pos M) ltac:(lia)) as [_ HM]. rewrite HdM in HM.
  change (53 - 1) with 52 in HM.
  destruct (scaled_mantissa_below (Z.pos M) (Z.pos mu) E eu HM ltac:(lia) ltac:(lia) Heu)
    as (Hr0 & Hr1 & Hr2).
  destruct (round_mantissa (Z.pos M * Z.pos mu) (E + eu)) as [m3 e3].
  cbn [fst snd] in *.
  destruct m3 as [|p|p]; [reflexivity | | lia].
  assert (He : (e3 <=? emax - prec) = true).
  { apply Z.leb_le. change (emax - prec) with 971. lia. }
  rewrite He. unfold SFleb, SFcompare.
  destruct (Z.compare_spec E e3) as [Heq|Hlt|Hgt]; [| lia | done].
  specialize (Hr2 (eq_sym Heq)).
  rewrite Pos.compare_cont_spec. cbn [Pos.switch_Eq].
  destruct (Pos.compare_spec M p) as [Hc|Hc|Hc]; [subst; lia | | done].
  apply Pos2Z.pos_lt_pos in Hc. lia.
Qed.

(** *** The first fact: a fraction of a size, rounded up, is at most the
    size *)

(** A number [f] with [0 <= f <= 1] is a zero or a positive [mf * 2^ef]
    with [ef <= -52] and [mf <= 2^-ef]. *)
Lemma at_most_one (f : float) :
  (double_of_Z 0 <=? f)%float = true -> (f <=? double_of_Z 1)%float = true ->
  (exists s, Prim2SF f = S754_zero s) \/
  (exists mf ef, Prim2SF f = S754_finite false mf ef /\
     ef <= -52 /\ Z.pos mf <= 2 ^ (- ef)).
Proof.
  rewrite !leb_spec, zero_spec, one_spec.
  pose proof (Prim2SF_valid f) as Hv.
  destruct (Prim2SF f) as [s|s| |s mf ef]; intros H0 H1.
  - left. by exists s.
  - by destruct s.
  - done.
  - right. destruct s; [done |].
    apply valid_finite in Hv as [Hc _].
    destruct (Zdigits2_bounds (Z.pos mf) ltac:(lia)) as [Hdpos [Hlo Hhi]].
    set (d := Zdigits2 (Z.pos mf)) in *.
    assert (Hd : d <= 53) by lia.
    assert (Hmf : Z.pos mf < 2 ^ 53).
    { pose proof (Z.pow_le_mono_r 2 d 53 ltac:(lia) Hd). lia. }
    exists mf, ef.
    unfold SFleb, SFcompare in H1.
    destruct (Z.compare_spec ef (-52)) as [E|E|E]; [| | done].
    + subst ef. split_and!; [done | lia |]. change (2 ^ (- -52)) with (2 ^ 52).
      rewrite Pos.compare_cont_spec in H1. cbn [Pos.switch_Eq] in H1.
      destruct (Pos.compare_spec mf 4503599627370496) as [Hc'|Hc'|Hc']; try done.
      * subst mf. done.
      * apply Pos2Z.pos_lt_pos in Hc'. change (Z.pos 4503599627370496) with (2 ^ 52) in Hc'.
        clear -Hc'. lia.
    + split_and!; [done | lia |].
      pose proof (Z.pow_le_mono_r 2 53 (- ef) ltac:(lia) ltac:(lia)). lia.
Qed.

Lemma fraction_mantissa_below (n M mf E ef : Z) :
  1 <= n < 2 ^ 32 -> -52 <= E <= 0 -> M = n * 2 ^ (- E) ->
  ef <= -52 -> 0 < mf <= 2 ^ (- ef) ->
  let r := round_mantissa (M * mf) (E + ef) in
  0 <= r.1 /\ r.2 < 0 /\ r.1 <= n * 2 ^ (- r.2).
Proof.
  intros Hn HE HM Hef Hmf. cbv zeta. unfold round_mantissa. rewrite !fexp_eq.
  set (m := M * mf). set (e := E + ef).
  assert (HpE : 0 < 2 ^ (- E)) by lia.
  assert (HMpos : 0 < M) by nia.
  assert (Hm : 0 < m) by (unfold m; nia).
  assert (Hme : m <= n * 2 ^ (- e)).
  { unfold m, e. replace (- (E + ef)) with (- E + - ef) by lia.
    rewrite pow_split by lia. subst M. nia. }
  set (d := Zdigits2 m).
  assert (Hd : d <= 32 - e).
  { apply Zdigits2_le; [done |]. replace (32 - e) with (32 + - e) by lia.
    rewrite pow_split by (unfold e; lia).
    assert (0 < 2 ^ (- e)) by (unfold e; lia). nia. }
  set (e1 := Z.max e (Z.max (d + e - 53) (-1074))).
  assert (He1 : e <= e1 <= -21) by (unfold e1, e in *; lia).
  set (m2 := if e <? e1 then rounded m (e1 - e) else m).
  assert (Hm2 : 0 <= m2 <= n * 2 ^ (- e1)).
  { unfold m2. destruct (Z.ltb_spec e e1) as [Hlt|Hge].
    - destruct (rounded_spec m (e1 - e) ltac:(lia) ltac:(lia)) as [[Hq1 _] _].
      pose proof (Z.div_pos m (2 ^ (e1 - e)) ltac:(lia) ltac:(lia)).
      split; [lia |]. apply rounded_le; [lia | lia |].
      rewrite <- Z.mul_assoc, <- pow_split by lia.
      replace (- e1 + (e1 - e)) with (- e) by lia. done.
    - replace e1 with e by lia. lia. }
  cbn [fst snd].
  set (e3 := Z.max e1 (Z.max (Zdigits2 m2 + e1 - 53) (-1074))).
  assert (He3 : e1 <= e3 <= -21).
  { destruct (decide (m2 = 0)) as [->|Hne]; [change (Zdigits2 0) with 0 in e3; lia |].
    assert (Zdigits2 m2 <= 32 - e1); [| unfold e3 in *; lia].
    apply Zdigits2_le; [lia |]. replace (32 - e1) with (32 + - e1) by lia.
    rewrite pow_split by lia.
    assert (0 < 2 ^ (- e1)) by lia. nia. }
  assert (Hsplit : 2 ^ (- e1) = 2 ^ (- e3) * 2 ^ (e3 - e1)).
  { rewrite <- pow_split by lia. f_equal. lia. }
  assert (Hp3 : 0 < 2 ^ (e3 - e1)) by lia.
  split_and!.
  - apply Z.div_pos; lia.
  - lia.
  - apply Z.div_le_upper_bound; [lia |]. rewrite Hsplit in Hm2. lia.
Qed.

Lemma integer_part_up_below (p : positive) (e n : Z) :
  e < 0 -> Z.pos p <= n * 2 ^ (- e) ->
  exists c, integer_part true (S754_finite false p e) = Some c /\ 0 <= c <= n.
Proof.
  intros He Hp. unfold integer_part.
  destruct (Z.leb_spec 0 e) as [|_]; [lia |]. cbn [orb andb].
  assert (Hpow : 0 < 2 ^ (- e)) by lia.
  pose proof (Z.div_mod (Z.pos p) (2 ^ (- e)) ltac:(lia)) as Hdm.
  pose proof (Z.mod_pos_bound (Z.pos p) (2 ^ (- e)) Hpow) as Hr.
  pose proof (Z.div_pos (Z.pos p) (2 ^ (- e)) ltac:(lia) Hpow) as Hq.
  destruct (Z.eqb_spec (Z.pos p mod 2 ^ (- e)) 0) as [E|E]; cbn [negb].
  - eexists. split; [done |]. split; [done |]. nia.
  - eexists. split; [done |]. split; [lia |]. nia.
Qed.

Lemma binary64_ceil_fraction (n : Z) (f : float) :
  0 <= n < 2 ^ 32 ->
  (double_of_Z 0 <=? f)%float = true -> (f <=? double_of_Z 1)%float = true ->
  exists c,
    integer_part true (Prim2SF (double_of_Z n * f)) ≫= in_range 32 = Some c /\
    0 <= c <= n.
Proof.
  intros Hn H0 H1.
  assert (Hin : forall c, 0 <= c <= n -> in_range 32 c = Some c).
  { intros c Hc. unfold in_range.
    destruct (Z.leb_spec 0 c); [| lia]. destruct (Z.ltb_spec c (2 ^ 32)); [done | lia]. }
  rewrite mul_spec.
  destruct (decide (n = 0)) as [->|Hn0].
  { exists 0. rewrite zero_spec.
    destruct (at_most_one f H0 H1) as [[s Hf] | (mf & ef & Hf & _)]; rewrite Hf; done. }
  destruct (double_of_Z_spec n ltac:(lia)) as (M & E & HR & HdM & HE & Hexact).
  destruct (Hexact ltac:(lia)) as [HE0 HM]. rewrite HR.
  destruct (at_most_one f H0 H1) as [[s Hf] | (mf & ef & Hf & Hef & Hmf)]; rewrite Hf.
  { exists 0. split; [done | lia]. }
  unfold SF64mul, SFmul. cbn [xorb].
  change (Z.pos (M * mf)) with (Z.pos M * Z.pos mf).
  rewrite binary_round_aux_spec by lia.
  destruct (fraction_mantissa_below n (Z.pos M) (Z.pos mf) E ef
              ltac:(lia) ltac:(lia) HM Hef ltac:(lia)) as (Hr0 & Hr1 & Hr2).
  destruct (round_mantissa (Z.pos M * Z.pos mf) (E + ef)) as [m3 e3].
  cbn [fst snd] in *.
  destruct m3 as [|p|p]; [| | lia].
  { exists 0. split; [done | lia]. }
  assert (He : (e3 <=? emax - prec) = true).
  { apply Z.leb_le. change (emax - prec) with 971. lia. }
  rewrite He.
  destruct (integer_part_up_below p e3 n Hr1 Hr2) as (c & Hc & Hrange).
  exists c. rewrite Hc. split; [| done]. by apply Hin.
Qed.

(** IEEE binary64 arithmetic has both facts. *)
Lemma binary64_laws : ArithLaws binary64.
Proof.
  split.
  - intros n f Hn H0 H1. by apply binary64_ceil_fraction.
  - intros r u Hr H0 H1. by apply binary64_scale_below.
Qed.

End Binary64.


(** ** Subsampling *)

Module Subsampling.
Import Machine Sampling SamplingLaws.

Lemma max_size_value : max_size = 1152921504606846975%Z.
Proof. reflexivity. Qed.

Lemma resize_length n v v' :
  resize n v = Done v' -> (0 <= n)%Z -> size_of v' = n.
Proof.
  unfold resize, size_of. destruct (max_size <? n)%Z; [done |].
  intros [= <-] Hn. rewrite length_app, length_take, length_replicate. lia.
Qed.

Lemma resize_done n v :
  (n <= max_size)%Z ->
  resize n v = Done (take (Z.to_nat n) v ++ replicate (Z.to_nat n - length v) 0%Z).
Proof.
  intros Hn. unfold resize. destruct (Z.ltb_spec max_size n); [lia | done].
Qed.

Lemma resize_fault n v : (max_size < n)%Z -> resize n v = Fault.
Proof.
  intros Hn. unfold resize. destruct (Z.ltb_spec max_size n); [done | lia].
Qed.

Lemma resize_done_length n v :
  (0 <= n <= max_size)%Z ->
  exists v', resize n v = Done v' /\ length v' = Z.to_nat n.
Proof.
  intros Hn. eexists. split; [apply resize_done; lia |].
  rewrite length_app, length_take, length_replicate. lia.
Qed.

Section Split.
Context {A : Arith} {R : StdRandom A} {RL : StdRandomLaws R}.

Lemma shuffle_spec (v : list Z) (s : RandomSampler A R) :
  (shuffle v s).1 ≡ₚ v /\ options (shuffle v s).2 = options s.
Proof.
  unfold shuffle. pose proof (shuffle_permutation v (random_number_generator s)) as H.
  destruct (std_shuffle v (random_number_generator s)) as [v' g]. done.
Qed.

(** What [subsample] with two outputs returns when the computed size [c]
    fits the pool: the shuffled pool cut at [c]. *)
Lemma subsample_oob_cut (pool : list Z) (f : double) (sub oob : list Z)
    (s : RandomSampler A R) (c : Z) :
  subsample_size pool f = Some c -> (0 <= c <= size_of pool)%Z ->
  (size_of pool <= max_size)%Z ->
  subsample_oob pool f sub oob s =
    Done (take (Z.to_nat c) (shuffle pool s).1,
          drop (Z.to_nat c) (shuffle pool s).1, (shuffle pool s).2).
Proof.
  intros Hc Hrange Hmax. unfold subsample_oob.
  destruct (shuffle_spec pool s) as [Hperm _].
  destruct (shuffle pool s) as [sh s'] eqn:Hsh. simpl in *.
  assert (Hlen : length sh = length pool) by (by rewrite Hperm).
  rewrite Hc. simpl.
  destruct (resize_done_length c sub) as (sub' & -> & Hsub'); [lia |]. simpl.
  rewrite (wrap64_small (size_of pool - c)) by (rewrite max_size_value in Hmax; lia).
  destruct (resize_done_length (size_of pool - c) oob) as (oob' & -> & Hoob'); [lia |].
  simpl. unfold size_of in *.
  destruct (Z.ltb_spec (Z.of_nat (length sh)) (Z.of_nat (length sub'))); [lia |].
  by rewrite Hsub'.
Qed.

(** When the computed size exceeds the pool, the second output's size wraps
    and its [resize] throws. *)
Lemma subsample_oob_overdraw (pool : list Z) (f : double) (sub oob : list Z)
    (s : RandomSampler A R) (c : Z) :
  subsample_size pool f = Some c -> (size_of pool < c < 2 ^ 32)%Z ->
  subsample_oob pool f sub oob s = Fault.
Proof.
  intros Hc Hrange. unfold subsample_oob.
  destruct (shuffle pool s) as [sh s']. rewrite Hc. simpl.
  destruct (resize_done_length c sub) as (sub' & -> & Hsub').
  { rewrite max_size_value. unfold size_of in *. lia. }
  simpl. rewrite resize_fault; [done |].
  unfold wrap64, size_of in *. rewrite max_size_value.
  replace ((Z.of_nat (length pool) - c) mod 2 ^ 64)%Z
    with (2 ^ 64 + (Z.of_nat (length pool) - c))%Z; [lia |].
  apply Z.mod_unique with (q := (-1)%Z); lia.
Qed.

End Split.
End Subsampling.


(** ** Sampling from clusters *)

Module Clusters.
Import Machine Sampling SamplingLaws Subsampling.

(** Without rounding, the size computed for a cluster of at least [spc] rows
    is [spc]. *)
Lemma exact_fraction_size (obs : list Z) (spc : Z) :
  (0 <= spc <= size_of obs)%Z -> (1 <= size_of obs < 2 ^ 32)%Z ->
  @subsample_size exact obs (ddiv (of_size spc) (of_size (size_of obs))) = Some spc.
Proof.
  intros Hspc Hn.
  change (in_range 32
    (Qceiling (inject_Z (size_of obs) * (inject_Z spc / inject_Z (size_of obs)))%Q)
    = Some spc).
  assert (Hq : (inject_Z (size_of obs) * (inject_Z spc / inject_Z (size_of obs)) == inject_Z spc)%Q).
  { rewrite Qmult_div_r; [done |].
    intros H. pose proof (proj1 (inject_Z_injective (size_of obs) 0) H). lia. }
  assert (Hc : Qceiling (inject_Z (size_of obs) * (inject_Z spc / inject_Z (size_of obs))) = spc).
  { rewrite <- (Qceiling_Z spc) at 2. by apply Qceiling_comp. }
  rewrite Hc. unfold in_range.
  destruct (Z.leb_spec 0 spc); [| lia].
  destruct (Z.ltb_spec spc (2 ^ 32)); [done | lia].
Qed.

End Clusters.


(** ** Drawing without replacement *)

Module Drawing.
Import Machine Sampling SamplingLaws Subsampling.

(** *** Stepping over the skipped values *)

(** [skip_shift] without the wrap-around of [++draw]. *)
Definition shift (skip : list Z) (draw : Z) : Z :=
  foldl (fun draw skip_value => if (skip_value <=? draw)%Z then (draw + 1)%Z else draw)
        draw skip.

Lemma shift_cons sv skip d :
  shift (sv :: skip) d = shift skip (if (sv <=? d)%Z then (d + 1)%Z else d).
Proof. reflexivity. Qed.

Lemma skip_shift_cons sv skip d :
  skip_shift (sv :: skip) d =
    skip_shift skip (if (sv <=? d)%Z then wrap64 (d + 1) else d).
Proof. reflexivity. Qed.

Lemma size_of_cons (x : Z) (l : list Z) : size_of (x :: l) = (size_of l + 1)%Z.
Proof. unfold size_of. rewrite length_cons. lia. Qed.

Lemma shift_bounds skip d : (d <= shift skip d <= d + size_of skip)%Z.
Proof.
  revert d. induction skip as [|sv skip IH]; intros d.
  - unfold shift, size_of. simpl. lia.
  - rewrite shift_cons, size_of_cons.
    destruct (sv <=? d)%Z.
    + specialize (IH (d + 1)%Z). lia.
    + specialize (IH d). lia.
Qed.

Lemma skip_shift_shift skip d :
  (0 <= d)%Z -> (d + size_of skip < 2 ^ 64)%Z -> skip_shift skip d = shift skip d.
Proof.
  revert d. induction skip as [|sv skip IH]; intros d Hd Hb; [done |].
  rewrite shift_cons, skip_shift_cons. rewrite size_of_cons in Hb.
  destruct (sv <=? d)%Z.
  - rewrite wrap64_small by (unfold size_of in *; lia). apply IH; lia.
  - apply IH; lia.
Qed.

Lemma shift_below skip d : Forall (fun x => (d < x)%Z) skip -> shift skip d = d.
Proof.
  induction 1 as [|sv skip Hsv _ IH]; [done |].
  rewrite shift_cons. destruct (Z.leb_spec sv d); [lia | done].
Qed.

Lemma shift_mono skip d1 d2 : (d1 < d2)%Z -> (shift skip d1 < shift skip d2)%Z.
Proof.
  revert d1 d2. induction skip as [|sv skip IH]; intros d1 d2 H; [done |].
  rewrite !shift_cons.
  apply IH. destruct (Z.leb_spec sv d1), (Z.leb_spec sv d2); lia.
Qed.


(** Over a set iterated in increasing order, the shifted value is none of
    the skipped ones. *)
Lemma shift_not_skipped skip d :
  StronglySorted Z.lt skip -> shift skip d ∉ skip.
Proof.
  intros Hsorted. revert d.
  induction Hsorted as [|sv skip Hs IH Hall]; intros d; [apply not_elem_of_nil |].
  rewrite shift_cons, not_elem_of_cons. split; [| apply IH].
  destruct (Z.leb_spec sv d).
  - pose proof (shift_bounds skip (d + 1)). lia.
  - rewrite shift_below; [lia |].
    eapply Forall_impl; [exact Hall |]. simpl. intros; lia.
Qed.

(** The shifted values of [0 .. n-1]. *)
Definition candidates (skip : list Z) (n : Z) : list Z := shift skip <$> seqZ 0 n.



(** *** Selection sampling *)

Section Knuth.
Context {A : Arith} {R : StdRandom A} {AL : ArithLaws A} {RL : StdRandomLaws R}.

Lemma draw_knuth_loop_end fuel N n skip result i j (g : engine) :
  (n <= i)%Z -> draw_knuth_loop fuel N n skip result i j g = Done (result, g).
Proof.
  intros H. destruct fuel; simpl; destruct (Z.ltb_spec i n); done || lia.
Qed.

Lemma draw_knuth_loop_step fuel N n skip result i j (g : engine) :
  (i < n)%Z ->
  draw_knuth_loop (S fuel) N n skip result i j g =
    let '(u, g1) := uniform_real g in
    if dle (of_size (wrap64 (n - i))) (dmul (of_size (wrap64 (N - j))) u)
    then draw_knuth_loop fuel N n skip result i (wrap64 (j + 1)) g1
    else draw_knuth_loop fuel N n skip (<[Z.to_nat i := skip_shift skip j]> result)
           (wrap64 (i + 1)) (wrap64 (j + 1)) g1.
Proof.
  intros H. simpl. destruct (Z.ltb_spec i n); [done | lia].
Qed.

(** From a state with [i] values selected among the first [j] candidates
    and at least as many candidates left as values needed, the loop ends
    within [N - j] passes; it keeps the [i] selected values and fills the rest
    with the shifted values of increasing candidates from [j] on. *)
Lemma draw_knuth_loop_spec (m : nat) (N n : Z) skip :
  (N < 2 ^ 64)%Z ->
  forall result i j (g : engine),
  (Z.to_nat (N - j) <= m)%nat ->
  (0 <= i <= n)%Z -> (i <= j)%Z -> (n - i <= N - j)%Z ->
  length result = Z.to_nat n ->
  exists result' g' js,
    (forall fuel, (m <= fuel)%nat ->
       draw_knuth_loop fuel N n skip result i j g = Done (result', g')) /\
    length result' = length result /\
    take (Z.to_nat i) result' = take (Z.to_nat i) result /\
    drop (Z.to_nat i) result' = skip_shift skip <$> js /\
    StronglySorted Z.lt js /\
    Forall (fun x => (j <= x < N)%Z) js.
Proof.
  intros HN. induction m as [|m IH]; intros result i j g Hm Hi Hj Hleft Hlen.
  - assert (i = n) as -> by lia.
    exists result, g, []. split_and!; try done.
    + intros fuel _. by apply draw_knuth_loop_end.
    + rewrite drop_ge; [done | lia].
    + constructor.
  - destruct (decide (i = n)) as [->|Hne].
    { exists result, g, []. split_and!; try done.
      + intros fuel _. by apply draw_knuth_loop_end.
      + rewrite drop_ge; [done | lia].
      + constructor. }
    assert (Hlt : (i < n)%Z) by lia.
    pose proof (uniform_real_unit g) as [Hu0 Hu1].
    destruct (uniform_real g) as [u g1] eqn:Hdraw. simpl in Hu0, Hu1.
    destruct (dle (of_size (n - i)) (dmul (of_size (N - j)) u)) eqn:Htest.
    + (* the candidate [j] is passed over *)
      assert (Hmore : (n - i < N - j)%Z).
      { destruct (decide (n - i = N - j)%Z) as [Heq|]; [| lia].
        rewrite Heq in Htest. rewrite scale_below in Htest; [done | lia | done | done]. }
      destruct (IH result i (j + 1)%Z g1) as (result' & g' & js & Hrun & H1 & H2 & H3 & H4 & H5);
        [lia | lia | lia | lia | done |].
      exists result', g', js. split_and!; try done.
      * intros fuel Hfuel. destruct fuel as [|fuel]; [lia |].
        rewrite draw_knuth_loop_step by done. rewrite Hdraw.
        rewrite (wrap64_small (n - i)), (wrap64_small (N - j)) by lia.
        rewrite Htest, (wrap64_small (j + 1)) by lia. apply Hrun. lia.
      * eapply Forall_impl; [exact H5 |]. simpl. intros; lia.
    + (* the candidate [j] is selected *)
      destruct (IH (<[Z.to_nat i := skip_shift skip j]> result) (i + 1)%Z (j + 1)%Z g1)
        as (result' & g' & js & Hrun & H1 & H2 & H3 & H4 & H5);
        [lia | lia | lia | lia | by rewrite length_insert |].
      rewrite length_insert in H1.
      replace (Z.to_nat (i + 1)) with (S (Z.to_nat i)) in H2, H3 by lia.
      assert (Hat : result' !! Z.to_nat i = Some (skip_shift skip j)).
      { rewrite <- (lookup_take_lt _ (S (Z.to_nat i))) by lia.
        rewrite H2, lookup_take_lt by lia.
        apply list_lookup_insert_eq. lia. }
      exists result', g', (j :: js). split_and!; try done.
      * intros fuel Hfuel. destruct fuel as [|fuel]; [lia |].
        rewrite draw_knuth_loop_step by done. rewrite Hdraw.
        rewrite (wrap64_small (n - i)), (wrap64_small (N - j)) by lia.
        rewrite Htest, (wrap64_small (j + 1)), (wrap64_small (i + 1)) by lia.
        apply Hrun. lia.
      * assert (Ht : forall l : list Z,
          take (Z.to_nat i) (take (S (Z.to_nat i)) l) = take (Z.to_nat i) l).
        { intros l. rewrite take_take. f_equal. lia. }
        rewrite <- (Ht result'), H2, Ht. apply take_insert_ge. lia.
      * rewrite (drop_S _ _ _ Hat), H3. done.
      * constructor; [done |].
        eapply Forall_impl; [exact H5 |]. simpl. intros; lia.
      * constructor; [lia |].
        eapply Forall_impl; [exact H5 |]. simpl. intros; lia.
Qed.




End Knuth.

(** *** Rejection sampling *)

Section Simple.
Context {A : Arith} {R : StdRandom A} {RL : StdRandomLaws R}.




Lemma draw_simple_retry_step fuel upper skip temp (g : engine) :
  draw_simple_retry (S fuel) upper skip temp g =
    let '(draw, g1) := uniform_int 0 upper g in
    let draw := skip_shift skip draw in
    match temp !! Z.to_nat draw with
    | None => Fault
    | Some true => draw_simple_retry fuel upper skip temp g1
    | Some false => Done (draw, g1)
    end.
Proof. reflexivity. Qed.







End Simple.
End Drawing.


(** ** The R binding of regression training *)

Module Bindings.
Import Machine.

Section RegressionTrain.
(** The types and functions of Rcpp, of the binding utilities and of the
    trainer, none of them part of the sources. *)
Variables NumericMatrix SparseMatrix RData RList ForestTrainer ForestOptions Forest : Type.
(** [ForestTrainers::regression_trainer(outcome_index)] *)
Variable regression_trainer : Z -> ForestTrainer.
(** [RcppUtilities::convert_data] *)
Variable convert_data : NumericMatrix -> SparseMatrix -> RData.
(** The constructor of [ForestOptions], its arguments in its order. *)
Variable make_options :
  Z -> Z -> float -> Z -> Z -> bool -> float -> float -> Z -> Z -> list Z -> Z -> ForestOptions.
(** [trainer.train(data, options)] *)
Variable train : ForestTrainer -> RData -> ForestOptions -> Forest.
(** [RcppUtilities::create_forest_object] *)
Variable create_forest_object : Forest -> RData -> RList.
(** [options.get_tree_options().get_min_node_size()] *)
Variable get_min_node_size : ForestOptions -> Z.
(** [result.push_back(value, name)] *)
Variable push_back : RList -> Z -> string -> RList.

Definition regression_train
    (input_data : NumericMatrix) (sparse_input_data : SparseMatrix)
    (outcome_index mtry num_trees num_threads min_node_size : Z)
    (sample_fraction : float) (seed : Z) (honesty : bool) (ci_group_size : Z)
    (alpha imbalance_penalty : float) (clusters : list Z) (samples_per_cluster : Z)
    : RList :=
  let trainer := regression_trainer (wrap64 (outcome_index - 1)) in
  let data := convert_data input_data sparse_input_data in
  let options := make_options num_trees ci_group_size sample_fraction mtry min_node_size
                   honesty alpha imbalance_penalty num_threads seed clusters
                   samples_per_cluster in
  let forest := train trainer data options in
  let result := create_forest_object forest data in
  push_back result (get_min_node_size options) "min.node.size"%string.

End RegressionTrain.
End Bindings.


(** * The specification's claims about local linear prediction *)

Module PredictionClaims.
Import Eigen Machine.

(** ** A one-sample, one-covariate query against the dense strategy

    The training row has covariate 0, the query has covariate 1, the only
    weight is 1 and the penalty is 1 with the standard ridge type. *)

Definition one_row_training : Data :=
  {| get := fun _ _ => 0%float; get_num_rows := 1; get_num_cols := 1 |}.
Definition one_row_query : Data :=
  {| get := fun _ _ => 1%float; get_num_rows := 1; get_num_cols := 1 |}.
Definition one_row_observations : Observations :=
  {| obs_get := fun _ _ => 0%float; get_num_samples := 1 |}.
Definition one_row_strategy : LocalLinear.Strategy :=
  {| LocalLinear.original_data := one_row_training;
     LocalLinear.test_data := one_row_query;
     LocalLinear.lambda := 1%float;
     LocalLinear.ridge_type := true |}.
Definition one_row_weights : list (nat * float) := [(0, 1%float)].

(** ** Two training samples of which one carries weight *)

Definition two_row_observations : Observations :=
  {| obs_get := fun _ _ => 0%float; get_num_samples := 2 |}.

(** The multi-penalty strategy: with [use_unweighted_penalty = true], for
    every query and every penalty [lambda], the matrix handed to the solver
    has [M(j,j) + lambda * (trace(M) / (|V| + 1))] on the diagonal for
    [1 <= j <= |V|], where [M = X^T W X] is the matrix before the penalty;
    every other entry, the intercept's included, is that of [M]. *)
Lemma multi_unweighted_penalty_adds_scaled_trace
    (OUT : nat) (self : LocalLinearMulti.Strategy) (sampleID : nat)
    (weights : list (nat * float)) (observations : Observations) (lambda : float) :
  let nv := length (LocalLinearMulti.linear_correction_variables self) in
  let X := (LocalLinearMulti.design OUT self sampleID weights observations).1 in
  let M := LocalLinearMulti.XtWX nv X weights.*2 in
  let M' := LocalLinearMulti.regularize true nv lambda M in
  (forall j, 1 <= j <= nv ->
     coeff M' j j = (coeff M j j + lambda * (trace M / double_of_nat (nv + 1)))%float) /\
  (forall a b, a <> b \/ a = 0 \/ nv < a -> coeff M' a b = coeff M a b).
Proof.
  intros nv X M M'. split.
  - intros j Hj. apply LocalLinearMulti.regularize_unweighted_diagonal; [|done].
    apply LocalLinearMulti.XtWX_shaped.
  - intros a b Hab. apply LocalLinearMulti.regularize_elsewhere; [|done].
    apply LocalLinearMulti.XtWX_shaped.
Qed.

(** C1, [LocalLinearPredictionStrategy.cpp]: with the standard ridge type the
    penalty added to [M(1,1)] is [lambda * (trace(M)/p + 1)], not
    [lambda * trace(M)/(p + 1)]. On the one-sample query [M] is all ones, its
    trace is 2 and [p = 1]: the code leaves [1 + 1 * (2/1 + 1) = 4] in
    [M(1,1)], where the claimed penalty gives [1 + 1 * (2/2) = 2]. *)
Theorem dense_standard_penalty_is_trace_over_p_plus_one :
  let M := LocalLinear.gram 0 one_row_strategy 0 one_row_weights one_row_observations in
  let M' := LocalLinear.ridge_matrix 0 one_row_strategy 0 one_row_weights one_row_observations in
  M = [[1; 1]; [1; 1]]%float /\
  trace M = 2%float /\
  coeff M' 1 1 = 4%float /\
  (coeff M 1 1 + 1 * (trace M / double_of_nat (1 + 1)))%float = 2%float.
Proof. vm_compute. done. Qed.

(** The same divergence for every matrix: the dense strategy's standard
    penalty on entry [(j,j)] is [lambda * (trace(M)/p + 1)]. *)
Lemma dense_standard_penalty_formula (p : nat) (lam : float) (M : Matrix) (j : nat) :
  shaped (p + 1) (p + 1) M -> 1 <= j <= p ->
  coeff (LocalLinear.regularize true p lam M) j j =
    (coeff M j j + lam * (trace M / double_of_nat p + 1))%float.
Proof. apply LocalLinear.dense_regularize_diagonal. Qed.

(** The multi-penalty strategy with its penalties replaced. *)
Definition with_lambdas (self : LocalLinearMulti.Strategy) (ls : list float)
    : LocalLinearMulti.Strategy :=
  {| LocalLinearMulti.original_data := LocalLinearMulti.original_data self;
     LocalLinearMulti.test_data := LocalLinearMulti.test_data self;
     LocalLinearMulti.lambdas := ls;
     LocalLinearMulti.use_unweighted_penalty := LocalLinearMulti.use_unweighted_penalty self;
     LocalLinearMulti.linear_correction_variables :=
       LocalLinearMulti.linear_correction_variables self |}.

Lemma predict_one_with_lambdas OUT solve self ls sampleID weights observations lambda :
  LocalLinearMulti.predict_one OUT solve (with_lambdas self ls) sampleID weights observations lambda
  = LocalLinearMulti.predict_one OUT solve self sampleID weights observations lambda.
Proof. reflexivity. Qed.

(** The multi-penalty strategy: for every query the design matrix has one
    row per entry of the weight map ([k] rows of [|V| + 1] entries), with
    [X(i,0) = 1] and [X(i,j+1) = data(indices[i], V[j]) - q(V[j])], and [Y(i)]
    is the outcome of the sample of the [i]-th entry. *)
Lemma design_matrix_of_weight_map
    (OUT : nat) (self : LocalLinearMulti.Strategy) (sampleID : nat)
    (weights : list (nat * float)) (observations : Observations) :
  let V := LocalLinearMulti.linear_correction_variables self in
  let k := length weights in
  let indices := weights.*1 in
  let XY := LocalLinearMulti.design OUT self sampleID weights observations in
  shaped k (length V + 1) XY.1 /\ length XY.2 = k /\
  forall i, i < k ->
    coeff XY.1 i 0 = 1%float /\
    (forall j, j < length V ->
       coeff XY.1 i (j + 1) =
         (get (LocalLinearMulti.original_data self)
              (LocalLinearMulti.at_index indices i) (LocalLinearMulti.at_index V j)
          - get (LocalLinearMulti.test_data self) sampleID
              (LocalLinearMulti.at_index V j))%float) /\
    vcoeff XY.2 i = obs_get observations OUT (LocalLinearMulti.at_index indices i).
Proof.
  intros V k indices XY. subst XY. unfold LocalLinearMulti.design.
  assert (Hk : length indices = k) by (unfold indices; apply length_fmap).
  pose proof (LocalLinearMulti.fill_design_spec OUT self sampleID indices observations
    (Zero k (length V + 1)) (replicate k 0%float)) as H.
  cbv zeta in H. rewrite Hk in H.
  apply H; [apply shaped_Zero | apply length_replicate].
Qed.

(** [LocalLinearPredictionStrategy.cpp]: the design matrix has one row
    for every training sample, weighted or not, over all [p] columns, with
    [X(i,j+1) = q(j) - data(i,j)]. *)
Lemma dense_design_matrix_of_all_samples
    (OUT : nat) (self : LocalLinear.Strategy) (sampleID : nat)
    (observations : Observations) :
  let n := get_num_samples observations in
  let p := get_num_cols (LocalLinear.test_data self) in
  let XY := LocalLinear.design OUT self sampleID observations in
  shaped n (p + 1) XY.1 /\ length XY.2 = n /\
  forall i, i < n ->
    coeff XY.1 i 0 = 1%float /\
    (forall j, j < p ->
       coeff XY.1 i (j + 1) =
         (get (LocalLinear.test_data self) sampleID j
          - get (LocalLinear.original_data self) i j)%float) /\
    vcoeff XY.2 i = obs_get observations OUT i.
Proof. apply LocalLinear.dense_design_spec. Qed.

(** C4 as amended: in the multi-penalty strategy the design matrix has one
    row per entry of the weight map ([k] rows), with [X(i,0) = 1],
    [X(i,j+1) = data(indices[i], V[j]) - q(V[j])] and [Y(i)] the outcome of
    the sample of the [i]-th entry; in the single-penalty strategy of
    [LocalLinearPredictionStrategy.cpp] it has one row per training sample
    ([n] rows, those of weight zero included) over all [p] columns, with
    [X(i,0) = 1], [X(i,j+1) = q(j) - data(i,j)] and [Y(i)] the outcome of
    sample [i]. *)
Theorem design_matrix_of_each_strategy
    (OUT : nat) (multi : LocalLinearMulti.Strategy) (dense : LocalLinear.Strategy)
    (sampleID : nat) (weights : list (nat * float)) (observations : Observations) :
  (let V := LocalLinearMulti.linear_correction_variables multi in
   let k := length weights in
   let indices := weights.*1 in
   let XY := LocalLinearMulti.design OUT multi sampleID weights observations in
   shaped k (length V + 1) XY.1 /\ length XY.2 = k /\
   forall i, i < k ->
     coeff XY.1 i 0 = 1%float /\
     (forall j, j < length V ->
        coeff XY.1 i (j + 1) =
          (get (LocalLinearMulti.original_data multi)
               (LocalLinearMulti.at_index indices i) (LocalLinearMulti.at_index V j)
           - get (LocalLinearMulti.test_data multi) sampleID
               (LocalLinearMulti.at_index V j))%float) /\
     vcoeff XY.2 i = obs_get observations OUT (LocalLinearMulti.at_index indices i)) /\
  (let n := get_num_samples observations in
   let p := get_num_cols (LocalLinear.test_data dense) in
   let XY := LocalLinear.design OUT dense sampleID observations in
   shaped n (p + 1) XY.1 /\ length XY.2 = n /\
   forall i, i < n ->
     coeff XY.1 i 0 = 1%float /\
     (forall j, j < p ->
        coeff XY.1 i (j + 1) =
          (get (LocalLinear.test_data dense) sampleID j
           - get (LocalLinear.original_data dense) i j)%float) /\
     vcoeff XY.2 i = obs_get observations OUT i).
Proof.
  split.
  - apply design_matrix_of_weight_map.
  - apply dense_design_matrix_of_all_samples.
Qed.

(** C4 fails on [LocalLinearPredictionStrategy.cpp]: with two training
    samples of which one carries weight, [X] has two rows, not one, and
    [X(0,1)] is [q - data = 1], not [data - q = -1]. *)
Lemma dense_design_counts_unweighted_samples :
  let XY := LocalLinear.design 0 one_row_strategy 0 two_row_observations in
  length one_row_weights = 1 /\
  length XY.1 = 2 /\
  coeff XY.1 0 1 = 1%float /\
  (get one_row_training 0 0 - get one_row_query 0 0)%float = (-1)%float.
Proof. vm_compute. done. Qed.

(** C5: with the penalties [ls], [predict] returns [length ls] estimates; the
    [i]-th is the intercept solved from the stored matrix [M = X^T W X]
    penalised with [ls[i]] alone, which is what [predict] returns for the
    single penalty [ls[i]]; so it is the same at whatever position, and
    beside whatever other penalties, the value [ls[i]] is supplied. *)
Theorem predictions_per_penalty
    (OUT : nat) (solve : Matrix -> Vector -> Vector)
    (self : LocalLinearMulti.Strategy) (ls ls' : list float) (sampleID : nat)
    (weights : list (nat * float)) (observations : Observations) :
  let run := fun l =>
    LocalLinearMulti.predict OUT solve (with_lambdas self l) sampleID weights observations in
  length (run ls) = LocalLinearMulti.prediction_length (with_lambdas self ls) /\
  length (run ls) = length ls /\
  (forall i lambda, ls !! i = Some lambda ->
     run ls !! i =
       Some (LocalLinearMulti.predict_one OUT solve self sampleID weights observations lambda)
     /\ run ls !! i = run [lambda] !! 0) /\
  (forall i j lambda, ls !! i = Some lambda -> ls' !! j = Some lambda ->
     run ls !! i = run ls' !! j).
Proof.
  intros run.
  assert (Hrun : forall l, run l =
    LocalLinearMulti.predict_one OUT solve self sampleID weights observations <$> l).
  { intros l. unfold run. rewrite LocalLinearMulti.predict_eq. done. }
  split_and!.
  - by rewrite Hrun, length_fmap.
  - by rewrite Hrun, length_fmap.
  - intros i lambda Hi. rewrite !Hrun, list_lookup_fmap, Hi. done.
  - intros i j lambda Hi Hj. by rewrite !Hrun, !list_lookup_fmap, Hi, Hj.
Qed.

(** ** The variance estimate *)

(** Modelled from the spec: the class of [bayes_debiaser] is missing from the
    sources. Section 9 asks for a fixed-form estimator that equals
    [var_between - noise] when that is positive, shrinks toward 0 as the two
    approach each other, and never returns a negative value: the positive
    part of the difference. *)
Definition positive_part_debias (var_between group_noise num_good_groups : float) : float :=
  let d := (var_between - group_noise)%float in
  if (0 <? d)%float then d else 0%float.

(** [M.ldlt().solve(b)] for a one by one system. *)
Definition solve_1x1 (M : Matrix) (b : Vector) : Vector :=
  [(vcoeff b 0 / coeff M 0 0)%float].

(** Two weighted samples with outcomes 0 and 2, no correction variable. *)
Definition two_outcomes : Observations :=
  {| obs_get := fun _ s => match s with O => 0%float | _ => 2%float end;
     get_num_samples := 2 |}.
Definition intercept_only : LocalLinearMulti.Strategy :=
  {| LocalLinearMulti.original_data := one_row_training;
     LocalLinearMulti.test_data := one_row_query;
     LocalLinearMulti.lambdas := [0.5%float];
     LocalLinearMulti.use_unweighted_penalty := true;
     LocalLinearMulti.linear_correction_variables := [] |}.
Definition two_halves : list (nat * float) := [(0, 0.5%float); (1, 0.5%float)].
Definition no_leaf_values : PredictionValues := {| values := [] |}.

(** C3 as amended: [compute_variance] never tests the number of good groups.
    When no group is good, the sums are all zero, [var_between] and
    [group_noise] are [0/0], and the result is the debiaser's value at
    [(NaN, NaN, 0)]. *)
Theorem variance_without_good_groups
    (OUT : nat) (solve : Matrix -> Vector -> Vector)
    (debias : float -> float -> float -> float)
    (self : LocalLinearMulti.Strategy) (samples_by_tree : list (list nat))
    (ci_group_size sampleID : nat) (weights : list (nat * float))
    (observations : Observations) (leaf_values : PredictionValues) :
  LocalLinearMulti.lambdas self <> [] -> 0 < ci_group_size ->
  LocalLinearMulti.count_good_groups samples_by_tree ci_group_size = 0 ->
  LocalLinearMulti.compute_variance OUT solve debias self samples_by_tree
    ci_group_size sampleID weights observations leaf_values
  = Some [debias nan nan 0%float].
Proof.
  intros Hl Hg Hcount. unfold LocalLinearMulti.compute_variance.
  rewrite (LocalLinearMulti.scores_without_good_groups OUT solve) by done.
  simpl. by rewrite LocalLinearMulti.group_noise_no_scores.
Qed.

Lemma variance_without_good_groups_witness :
  LocalLinearMulti.compute_variance 0 solve_1x1 positive_part_debias intercept_only
    [[0]; []] 2 0 two_halves two_outcomes no_leaf_values
  = Some [positive_part_debias nan nan 0%float].
Proof.
  apply (variance_without_good_groups 0 solve_1x1 positive_part_debias intercept_only
    [[0]; []] 2 0 two_halves two_outcomes no_leaf_values); [done | lia | reflexivity].
Defined.

(** Whatever the number of good groups, the result is the debiaser's value
    at the sums' statistics, and [num_good_groups] is the count itself. *)
Lemma variance_is_the_debiased_value
    (OUT : nat) (solve : Matrix -> Vector -> Vector)
    (debias : float -> float -> float -> float)
    (self : LocalLinearMulti.Strategy) (samples_by_tree : list (list nat))
    (ci_group_size sampleID : nat) (weights : list (nat * float))
    (observations : Observations) (leaf_values : PredictionValues) (r : list float) :
  LocalLinearMulti.compute_variance OUT solve debias self samples_by_tree
    ci_group_size sampleID weights observations leaf_values = Some r ->
  exists sc,
    LocalLinearMulti.scores OUT solve self samples_by_tree ci_group_size sampleID
      weights observations = Some sc /\
    LocalLinearMulti.num_good_groups sc =
      LocalLinearMulti.counted
        (LocalLinearMulti.count_good_groups samples_by_tree ci_group_size) /\
    r = [debias (LocalLinearMulti.var_between sc)
                (LocalLinearMulti.group_noise ci_group_size sc)
                (LocalLinearMulti.num_good_groups sc)].
Proof.
  unfold LocalLinearMulti.compute_variance. intros H.
  destruct (LocalLinearMulti.scores _ _ _ _ _ _ _ _) as [sc|] eqn:Hsc; [|done].
  simpl in H. injection H as <-. exists sc. split_and!; [done | | done].
  by eapply LocalLinearMulti.scores_count.
Qed.

(** C3 fails with one good group: two trees in one group, each with one
    sample, give [var_between = 0] and [group_noise = 1], and the result is
    the debiaser's value there, the number 0. *)
Lemma variance_with_one_good_group_is_a_number :
  LocalLinearMulti.count_good_groups [[0]; [1]] 2 = 1 /\
  LocalLinearMulti.scores 0 solve_1x1 intercept_only [[0]; [1]] 2 0 two_halves two_outcomes
    = Some {| LocalLinearMulti.num_good_groups := 1;
              LocalLinearMulti.psi_squared := 2;
              LocalLinearMulti.psi_grouped_squared := 0;
              LocalLinearMulti.avg_score := 0 |} /\
  LocalLinearMulti.compute_variance 0 solve_1x1 positive_part_debias intercept_only
    [[0]; [1]] 2 0 two_halves two_outcomes no_leaf_values
    = Some [positive_part_debias 0 1 1] /\
  positive_part_debias 0 1 1 = 0%float /\
  is_nan 0%float = false.
Proof. vm_compute. done. Qed.

(** ** The debiased error *)

(** C10 as amended: [compute_debiased_error] returns NaN when at most one
    node has a leaf value; otherwise it returns
    [outcome^2 - (sum of squared leaf values) / (num_trees * (num_trees - 1))],
    [num_trees] counting the nodes that have a value. So the result is NaN
    exactly when at most one node has a value or that expression is itself
    NaN. *)
Theorem debiased_error_guard
    (OUT sample : nat) (leaf_values : PredictionValues) (observations : Observations) :
  (Z.of_nat (get_num_nodes leaf_values) < 2 ^ 32)%Z ->
  let vs := LocalLinearMulti.leaf_outcomes leaf_values in
  let n := length vs in
  let outcome := obs_get observations OUT sample in
  let value := (outcome * outcome
                - LocalLinearMulti.sum_of_squares vs
                  / double_of_Z (Z.of_nat n * (Z.of_nat n - 1)))%float in
  let r := LocalLinearMulti.compute_debiased_error OUT sample leaf_values observations in
  (n <= 1 -> r = [nan]) /\
  (2 <= n -> r = [value]) /\
  (r = [nan] <-> n <= 1 \/ value = nan).
Proof.
  intros Hn vs n outcome value r.
  assert (Hlen : n <= get_num_nodes leaf_values).
  { apply LocalLinearMulti.leaf_outcomes_length. }
  assert (Hr : r = if (Z.of_nat n <=? 1)%Z then [nan] else [value]).
  { unfold r, LocalLinearMulti.compute_debiased_error.
    rewrite LocalLinearMulti.squared_leaf_values_spec by lia. fold vs n.
    destruct (Z.leb_spec (Z.of_nat n) 1) as [H|H]; [done |].
    unfold value, outcome.
    rewrite (wrap64_small (Z.of_nat n - 1)) by lia.
    rewrite wrap64_small by nia. done. }
  rewrite Hr. destruct (Z.leb_spec (Z.of_nat n) 1) as [H|H].
  - split_and!; [done | lia |]. split; [intros _; left; lia | done].
  - split_and!; [lia | done |]. split.
    + intros [= ->]. by right.
    + intros [Hle| ->]; [lia | done].
Qed.

Definition two_big_leaves : PredictionValues := {| values := [[0x1p600%float]; [0x1p600%float]] |}.
Definition big_outcome : Observations :=
  {| obs_get := fun _ _ => 0x1p600%float; get_num_samples := 1 |}.
Definition two_unit_leaves : PredictionValues := {| values := [[1%float]; [1%float]] |}.
Definition missing_outcome : Observations :=
  {| obs_get := fun _ _ => nan; get_num_samples := 1 |}.

Lemma debiased_error_guard_witness :
  LocalLinearMulti.compute_debiased_error 0 0 two_unit_leaves two_outcomes = [(-1)%float].
Proof.
  pose proof (debiased_error_guard 0 0 two_unit_leaves two_outcomes) as H.
  destruct H as (_ & H & _); [vm_compute; done |].
  rewrite H by (vm_compute; lia). vm_compute. done.
Defined.

(** C10 fails as stated: two nodes have a leaf value and the result is NaN
    all the same, once because [outcome^2] and the bias both overflow
    ([inf - inf]), once because the outcome is itself NaN. *)
Lemma debiased_error_nan_with_two_trees :
  length (LocalLinearMulti.leaf_outcomes two_big_leaves) = 2 /\
  LocalLinearMulti.compute_debiased_error 0 0 two_big_leaves big_outcome = [nan] /\
  length (LocalLinearMulti.leaf_outcomes two_unit_leaves) = 2 /\
  LocalLinearMulti.compute_debiased_error 0 0 two_unit_leaves missing_outcome = [nan].
Proof. vm_compute. done. Qed.

End PredictionClaims.


(** * The specification's claims about sampling and the binding *)

Module SamplingClaims.
Import Machine Sampling SamplingLaws Binary64 Subsampling Clusters Drawing.

(** ** Concrete samplers *)

Definition four_rows : list Z := [10; 11; 12; 13]%Z.

(** One cluster of four rows, two rows drawn per cluster; IEEE arithmetic. *)
Definition two_of_four : SamplingOptions binary64 :=
  {| sample_weights := []; cluster_map := {[ 0%Z := four_rows ]};
     samples_per_cluster := 2 |}.

(** One cluster of twenty-five rows, seven rows asked per cluster. *)
Definition seven_of_twenty_five : SamplingOptions binary64 :=
  {| sample_weights := []; cluster_map := {[ 0%Z := first_indices 25 ]};
     samples_per_cluster := 7 |}.

Definition sampler64 (seed : Z) (o : SamplingOptions binary64)
    : RandomSampler binary64 (counting_engine binary64) :=
  new seed o.

Definition one_half : @double binary64 := 0.5%float.

(** What a call leaves in its output vector. *)
Definition drawn_rows {A : Arith} {R : StdRandom A}
    (o : outcome (list Z * RandomSampler A R)) : outcome (list Z) :=
  match o with
  | Done (drawn, _) => Done drawn
  | Fault => Fault
  | OutOfFuel => OutOfFuel
  end.

(** A pool of [2^32] rows. *)
Definition pool_2_32 : list Z := replicate (Z.to_nat (2 ^ 32)) 0%Z.

(** ** Sampling from clusters *)

(** C2, [sample_from_clusters]: the fraction handed to [subsample] is
    [(double) samples_per_cluster / cluster_obs.size()] and the number of
    rows drawn is [(uint) ceil(cluster_obs.size() * fraction)]. Without
    rounding that number is [samples_per_cluster]. For a cluster of
    twenty-five rows and seven rows per cluster, [7.0 / 25] is rounded up in
    binary64, [25 * (7.0 / 25)] is above 7 and its ceiling is 8: the call
    returns eight rows of the cluster where the claim has seven. *)
Theorem sample_from_clusters_draws_eight_for_seven :
  samples_per_cluster seven_of_twenty_five = 7%Z /\
  cluster_map seven_of_twenty_five !! 0%Z = Some (first_indices 25) /\
  @subsample_size exact (first_indices 25) (7 / 25)%Q = Some 7%Z /\
  (7 <? 25 * (7 / 25))%float = true /\
  @subsample_size binary64 (first_indices 25) (7 / 25)%float = Some 8%Z /\
  drawn_rows (sample_from_clusters [0%Z] [] (sampler64 0 seven_of_twenty_five))
  = Done [0; 1; 2; 3; 4; 5; 6; 7]%Z.
Proof.
  split; [reflexivity |]. split; [reflexivity |].
  split; [apply (exact_fraction_size (first_indices 25) 7); by vm_compute |].
  split_and!; vm_compute; reflexivity.
Qed.

(** ** Subsampling with two outputs *)

(** Under the two facts of arithmetic and the contract of [std::shuffle], a
    pool of fewer than [2^32] rows is split at the computed size. *)
Lemma split_under_laws
    {A : Arith} {R : StdRandom A} (AL : ArithLaws A) (RL : StdRandomLaws R)
    (pool : list Z) (fraction : double) (subsamples oob_samples : list Z)
    (s : RandomSampler A R) :
  dle (of_size 0) fraction = true -> dle fraction (of_size 1) = true ->
  (size_of pool < 2 ^ 32)%Z ->
  exists c ins outs s',
    subsample_size pool fraction = Some c /\
    subsample_oob pool fraction subsamples oob_samples s = Done (ins, outs, s') /\
    size_of ins = c /\
    size_of outs = (size_of pool - c)%Z /\
    ins ++ outs ≡ₚ pool.
Proof.
  intros Hf0 Hf1 Hsize.
  assert (Hn : (0 <= size_of pool < 2 ^ 32)%Z) by (unfold size_of in *; lia).
  destruct (ceil_fraction (size_of pool) fraction Hn Hf0 Hf1) as (c & Hc & Hrange).
  destruct (shuffle_spec pool s) as [Hperm _].
  assert (Hlen : length (shuffle pool s).1 = length pool) by (by rewrite Hperm).
  exists c, (take (Z.to_nat c) (shuffle pool s).1),
         (drop (Z.to_nat c) (shuffle pool s).1), (shuffle pool s).2.
  split_and!.
  - done.
  - apply subsample_oob_cut; [done | lia | rewrite max_size_value; lia].
  - unfold size_of in *. rewrite length_take. lia.
  - unfold size_of in *. rewrite length_drop. lia.
  - by rewrite take_drop.
Qed.

(** C7 for pools of fewer than [2^32] rows: for a fraction between 0 and 1,
    the two-output [subsample] returns an in-set of
    [(uint) ceil(|pool| * fraction)] rows, the product and the ceiling taken
    in binary64 as the code takes them, and an out-set of the remaining
    [|pool| - ceil(|pool| * fraction)] rows, and the two together are a
    permutation of the pool. [std::shuffle] is taken by its contract. *)
Theorem subsample_splits_the_pool
    {R : StdRandom binary64} (RL : StdRandomLaws R)
    (pool : list Z) (fraction : @double binary64) (subsamples oob_samples : list Z)
    (s : RandomSampler binary64 R) :
  (0 <=? fraction)%float = true -> (fraction <=? 1)%float = true ->
  (size_of pool < 2 ^ 32)%Z ->
  exists c ins outs s',
    subsample_size pool fraction = Some c /\
    subsample_oob pool fraction subsamples oob_samples s = Done (ins, outs, s') /\
    size_of ins = c /\
    size_of outs = (size_of pool - c)%Z /\
    ins ++ outs ≡ₚ pool.
Proof.
  intros Hf0 Hf1 Hsize.
  by apply (split_under_laws binary64_laws RL).
Qed.

Lemma subsample_splits_the_pool_witness :
  exists c ins outs s',
    @subsample_size binary64 [1; 2; 3; 4; 5]%Z one_half = Some c /\
    @subsample_oob binary64 (counting_engine binary64)
      [1; 2; 3; 4; 5]%Z one_half [] [] (sampler64 3 two_of_four) = Done (ins, outs, s') /\
    size_of ins = c /\
    size_of outs = (size_of [1; 2; 3; 4; 5]%Z - c)%Z /\
    ins ++ outs ≡ₚ [1; 2; 3; 4; 5]%Z.
Proof.
  apply (subsample_splits_the_pool counting_binary64_laws
           [1; 2; 3; 4; 5]%Z one_half [] [] (sampler64 3 two_of_four));
    by vm_compute.
Defined.

(** C7 fails for a pool of [2^32] rows and the fraction 1: the in-set would
    have [2^32] rows, and its size is computed as a [uint]. The product is
    [4294967296.0], whose conversion is undefined, and no value a [uint] can
    hold is the number of rows of the pool. *)
Lemma subsample_of_2_32_rows_fails :
  size_of pool_2_32 = (2 ^ 32)%Z /\
  @dmul binary64 (@of_size binary64 (size_of pool_2_32)) 1%float = 4294967296%float /\
  @subsample_size binary64 pool_2_32 1%float = None /\
  (forall c : Z, in_range 32 c = Some c -> c <> size_of pool_2_32).
Proof.
  assert (Hsize : size_of pool_2_32 = (2 ^ 32)%Z).
  { unfold size_of, pool_2_32. rewrite length_replicate.
    apply Z2Nat.id. by apply Z.pow_nonneg. }
  split; [exact Hsize |].
  split; [rewrite Hsize; vm_compute; reflexivity |].
  split; [unfold subsample_size; rewrite Hsize; vm_compute; reflexivity |].
  intros c Hc. rewrite Hsize. unfold in_range in Hc.
  destruct (Z.leb_spec 0 c); [| done].
  destruct (Z.ltb_spec c (2 ^ 32)); [lia | done].
Qed.

(** ** Drawing *)





End SamplingClaims.


(** * The specification's claim about the R binding *)

Module BindingClaims.

(** C9: [regression_train] constructs the regression trainer with the
    host's outcome index less one: a host index [k] of [1 .. 2^64-1], counted
    from one, becomes the index [k - 1], counted from zero. *)
Theorem regression_train_shifts_outcome_index
    (NumericMatrix SparseMatrix RData RList ForestTrainer ForestOptions Forest : Type)
    (regression_trainer : Z -> ForestTrainer)
    (convert_data : NumericMatrix -> SparseMatrix -> RData)
    (make_options : Z -> Z -> float -> Z -> Z -> bool -> float -> float -> Z -> Z ->
                    list Z -> Z -> ForestOptions)
    (train : ForestTrainer -> RData -> ForestOptions -> Forest)
    (create_forest_object : Forest -> RData -> RList)
    (get_min_node_size : ForestOptions -> Z)
    (push_back : RList -> Z -> string -> RList)
    (input_data : NumericMatrix) (sparse_input_data : SparseMatrix)
    (outcome_index mtry num_trees num_threads min_node_size : Z)
    (sample_fraction : float) (seed : Z) (honesty : bool) (ci_group_size : Z)
    (alpha imbalance_penalty : float) (clusters : list Z) (samples_per_cluster : Z) :
  (1 <= outcome_index < 2 ^ 64)%Z ->
  Bindings.regression_train _ _ _ _ _ _ _ regression_trainer convert_data make_options
    train create_forest_object get_min_node_size push_back
    input_data sparse_input_data outcome_index mtry num_trees num_threads min_node_size
    sample_fraction seed honesty ci_group_size alpha imbalance_penalty clusters
    samples_per_cluster
  = let data := convert_data input_data sparse_input_data in
    let options := make_options num_trees ci_group_size sample_fraction mtry min_node_size
                     honesty alpha imbalance_penalty num_threads seed clusters
                     samples_per_cluster in
    push_back
      (create_forest_object
         (train (regression_trainer (outcome_index - 1)%Z) data options) data)
      (get_min_node_size options) "min.node.size"%string.
Proof.
  intros H. unfold Bindings.regression_train. by rewrite Machine.wrap64_small by lia.
Qed.

(** Stand-ins for the binding's collaborators: a trainer and a forest are the
    outcome index they were built with, the options are their minimal node
    size, the result lists named values. *)
Definition named_values : Type := list (string * Z).
Definition trained_column (forest : Z) (data : unit) : named_values :=
  [("outcome.column"%string, forest)].
Definition named_value (l : named_values) (v : Z) (name : string) : named_values :=
  l ++ [(name, v)].

Lemma regression_train_shifts_outcome_index_witness :
  Bindings.regression_train unit unit unit named_values Z Z Z
    (fun k => k) (fun _ _ => tt)
    (fun _ _ _ _ min_node_size _ _ _ _ _ _ _ => min_node_size)
    (fun trainer _ _ => trainer) trained_column (fun o => o) named_value
    tt tt 3 2 500 4 5 0.5 42 true 2 0.25 0 [] 0
  = [("outcome.column"%string, 2%Z); ("min.node.size"%string, 5%Z)].
Proof.
  rewrite (regression_train_shifts_outcome_index unit unit unit named_values Z Z Z
    (fun k => k) (fun _ _ => tt)
    (fun _ _ _ _ min_node_size _ _ _ _ _ _ _ => min_node_size)
    (fun trainer _ _ => trainer) trained_column (fun o => o) named_value
    tt tt 3 2 500 4 5 0.5 42 true 2 0.25 0 [] 0) by lia.
  reflexivity.
Defined.

End BindingClaims.


(** * Truncating a fraction of a size, and dividing by zero, in binary64 *)

Module Binary64Facts.
Import Machine Sampling SamplingLaws Binary64.
Local Open Scope Z_scope.

Lemma fraction_mantissa_below_53 (n M mf E ef : Z) :
  1 <= n < 2 ^ 53 -> -52 <= E <= 0 -> M = n * 2 ^ (- E) ->
  ef <= -52 -> 0 < mf <= 2 ^ (- ef) ->
  let r := round_mantissa (M * mf) (E + ef) in
  0 <= r.1 /\ r.2 <= 0 /\ r.1 <= n * 2 ^ (- r.2).
Proof.
  intros Hn HE HM Hef Hmf. cbv zeta. unfold round_mantissa. rewrite !fexp_eq.
  set (m := M * mf). set (e := E + ef).
  assert (HpE : 0 < 2 ^ (- E)) by lia.
  assert (HMpos : 0 < M) by nia.
  assert (Hm : 0 < m) by (unfold m; nia).
  assert (Hme : m <= n * 2 ^ (- e)).
  { unfold m, e. replace (- (E + ef)) with (- E + - ef) by lia.
    rewrite pow_split by lia. subst M. nia. }
  set (d := Zdigits2 m).
  assert (Hd : d <= 53 - e).
  { apply Zdigits2_le; [done |]. replace (53 - e) with (53 + - e) by lia.
    rewrite pow_split by (unfold e; lia).
    assert (0 < 2 ^ (- e)) by (unfold e; lia). nia. }
  set (e1 := Z.max e (Z.max (d + e - 53) (-1074))).
  assert (He1 : e <= e1 <= 0) by (unfold e1, e in *; lia).
  set (m2 := if e <? e1 then rounded m (e1 - e) else m).
  assert (Hm2 : 0 <= m2 <= n * 2 ^ (- e1)).
  { unfold m2. destruct (Z.ltb_spec e e1) as [Hlt|Hge].
    - destruct (rounded_spec m (e1 - e) ltac:(lia) ltac:(lia)) as [[Hq1 _] _].
      pose proof (Z.div_pos m (2 ^ (e1 - e)) ltac:(lia) ltac:(lia)).
      split; [lia |]. apply rounded_le; [lia | lia |].
      rewrite <- Z.mul_assoc, <- pow_split by lia.
      replace (- e1 + (e1 - e)) with (- e) by lia. done.
    - replace e1 with e by lia. lia. }
  cbn [fst snd].
  set (e3 := Z.max e1 (Z.max (Zdigits2 m2 + e1 - 53) (-1074))).
  assert (He3 : e1 <= e3 <= 0).
  { destruct (decide (m2 = 0)) as [->|Hne]; [change (Zdigits2 0) with 0 in e3; lia |].
    assert (Zdigits2 m2 <= 53 - e1); [| unfold e3 in *; lia].
    apply Zdigits2_le; [lia |]. replace (53 - e1) with (53 + - e1) by lia.
    rewrite pow_split by lia.
    assert (0 < 2 ^ (- e1)) by lia. nia. }
  assert (Hsplit : 2 ^ (- e1) = 2 ^ (- e3) * 2 ^ (e3 - e1)).
  { rewrite <- pow_split by lia. f_equal. lia. }
  assert (Hp3 : 0 < 2 ^ (e3 - e1)) by lia.
  split_and!.
  - apply Z.div_pos; lia.
  - lia.
  - apply Z.div_le_upper_bound; [lia |]. rewrite Hsplit in Hm2. lia.
Qed.

Lemma integer_part_down_below (p : positive) (e n : Z) :
  e <= 0 -> Z.pos p <= n * 2 ^ (- e) ->
  exists c, integer_part false (S754_finite false p e) = Some c /\ 0 <= c <= n.
Proof.
  intros He Hp. unfold integer_part. cbn [andb].
  destruct (Z.leb_spec 0 e) as [Hnn|Hneg].
  - assert (e = 0) as -> by lia. change (- 0) with 0 in Hp.
    rewrite Z.pow_0_r in *. eexists. split; [done |]. lia.
  - assert (Hpow : 0 < 2 ^ (- e)) by lia.
    pose proof (Z.div_pos (Z.pos p) (2 ^ (- e)) ltac:(lia) Hpow) as Hq.
    eexists. split; [done |]. split; [done |].
    apply Z.div_le_upper_bound; lia.
Qed.

(** [(size_t) (n * f)] for a size [n < 2^53] and [0 <= f <= 1] is a size no
    larger than [n]. *)
Lemma binary64_trunc_fraction (n : Z) (f : float) :
  0 <= n < 2 ^ 53 ->
  (double_of_Z 0 <=? f)%float = true -> (f <=? double_of_Z 1)%float = true ->
  exists c,
    integer_part false (Prim2SF (double_of_Z n * f)) ≫= in_range 64 = Some c /\
    0 <= c <= n.
Proof.
  intros Hn H0 H1.
  assert (Hin : forall c, 0 <= c <= n -> in_range 64 c = Some c).
  { intros c Hc. unfold in_range.
    destruct (Z.leb_spec 0 c); [| lia]. destruct (Z.ltb_spec c (2 ^ 64)); [done | lia]. }
  rewrite mul_spec.
  destruct (decide (n = 0)) as [->|Hn0].
  { exists 0. rewrite zero_spec.
    destruct (at_most_one f H0 H1) as [[s Hf] | (mf & ef & Hf & _)]; rewrite Hf; done. }
  destruct (double_of_Z_spec n ltac:(lia)) as (M & E & HR & HdM & HE & Hexact).
  destruct (Hexact ltac:(lia)) as [HE0 HM]. rewrite HR.
  destruct (at_most_one f H0 H1) as [[s Hf] | (mf & ef & Hf & Hef & Hmf)]; rewrite Hf.
  { exists 0. split; [done | lia]. }
  unfold SF64mul, SFmul. cbn [xorb].
  change (Z.pos (M * mf)) with (Z.pos M * Z.pos mf).
  rewrite binary_round_aux_spec by lia.
  destruct (fraction_mantissa_below_53 n (Z.pos M) (Z.pos mf) E ef
              ltac:(lia) ltac:(lia) HM Hef ltac:(lia)) as (Hr0 & Hr1 & Hr2).
  destruct (round_mantissa (Z.pos M * Z.pos mf) (E + ef)) as [m3 e3].
  cbn [fst snd] in *.
  destruct m3 as [|p|p]; [| | lia].
  { exists 0. split; [done | lia]. }
  assert (He : (e3 <=? emax - prec) = true).
  { apply Z.leb_le. change (emax - prec) with 971. lia. }
  rewrite He.
  destruct (integer_part_down_below p e3 n Hr1 Hr2) as (c & Hc & Hrange).
  exists c. rewrite Hc. split; [| done]. by apply Hin.
Qed.


End Binary64Facts.


(** * Further properties of the sampler *)

Module SamplingFacts.
Import Machine Sampling SamplingLaws Binary64 Subsampling Clusters Drawing.

(** ** [subsample] with one output *)

Section OneOutput.
Context {A : Arith} {R : StdRandom A} {RL : StdRandomLaws R}.

(** When the computed size [c] fits the pool, the one-output [subsample]
    returns the first [c] elements of the shuffled pool. *)
Lemma subsample_cut (pool : list Z) (f : double) (sub : list Z)
    (s : RandomSampler A R) (c : Z) :
  subsample_size pool f = Some c -> (0 <= c <= size_of pool)%Z ->
  (size_of pool <= max_size)%Z ->
  subsample pool f sub s = Done (take (Z.to_nat c) (shuffle pool s).1, (shuffle pool s).2).
Proof.
  intros Hc Hrange Hmax. unfold subsample.
  destruct (shuffle_spec pool s) as [Hperm _].
  destruct (shuffle pool s) as [sh s'] eqn:Hsh. simpl in *.
  assert (Hlen : length sh = length pool) by (by rewrite Hperm).
  rewrite Hc. simpl.
  destruct (resize_done_length c sub) as (sub' & -> & Hsub'); [lia |]. simpl.
  unfold size_of in *.
  destruct (Z.ltb_spec (Z.of_nat (length sh)) (Z.of_nat (length sub'))); [lia |].
  by rewrite Hsub'.
Qed.

End OneOutput.

(** For a pool of fewer than [2^32] rows and a fraction between 0 and 1, the
    one-output [subsample] returns [(uint) ceil(|pool| * fraction)] rows, the
    size computed in binary64; the rows are rows of the pool, none taken more
    often than the pool holds it; and they are the in-set the two-output
    [subsample] returns from the same engine state, which ends in the same
    state. *)
Theorem subsample_is_the_in_set
    {R : StdRandom binary64} (RL : StdRandomLaws R)
    (pool : list Z) (fraction : @double binary64) (subsamples : list Z)
    (s : RandomSampler binary64 R) :
  (0 <=? fraction)%float = true -> (fraction <=? 1)%float = true ->
  (size_of pool < 2 ^ 32)%Z ->
  exists c ins s',
    subsample_size pool fraction = Some c /\
    subsample pool fraction subsamples s = Done (ins, s') /\
    size_of ins = c /\
    ins ⊆+ pool /\
    forall oob_samples, exists outs,
      subsample_oob pool fraction subsamples oob_samples s = Done (ins, outs, s').
Proof.
  intros Hf0 Hf1 Hsize.
  assert (Hn : (0 <= size_of pool < 2 ^ 32)%Z) by (unfold size_of in *; lia).
  destruct (@ceil_fraction binary64 binary64_laws (size_of pool) fraction Hn Hf0 Hf1)
    as (c & Hc & Hrange).
  destruct (shuffle_spec pool s) as [Hperm _].
  assert (Hlen : length (shuffle pool s).1 = length pool) by (by rewrite Hperm).
  assert (Hmax : (size_of pool <= max_size)%Z) by (rewrite max_size_value; lia).
  exists c, (take (Z.to_nat c) (shuffle pool s).1), (shuffle pool s).2.
  split_and!.
  - done.
  - by apply subsample_cut.
  - unfold size_of in *. rewrite length_take. lia.
  - trans (shuffle pool s).1; [apply submseteq_take | by apply Permutation_submseteq].
  - intros oob. eexists. by apply subsample_oob_cut.
Qed.

(** Whether a call returned. *)
Definition ended {T : Type} (o : outcome T) : bool :=
  match o with Done _ => true | _ => false end.

Definition ten_rows : list Z := [10; 11; 12; 13; 14; 15; 16; 17; 18; 19]%Z.

Definition no_clusters : SamplingOptions binary64 :=
  {| sample_weights := []; cluster_map := ∅; samples_per_cluster := 0 |}.

Definition counting_sampler (seed : Z) : RandomSampler binary64 (counting_engine binary64) :=
  new seed no_clusters.

Definition three_eighths : @double binary64 := 0.375%float.

Lemma subsample_is_the_in_set_witness :
  exists c ins s',
    @subsample_size binary64 ten_rows three_eighths = Some c /\
    @subsample binary64 (counting_engine binary64)
      ten_rows three_eighths [] (counting_sampler 4) = Done (ins, s') /\
    size_of ins = c /\
    ins ⊆+ ten_rows /\
    forall oob_samples, exists outs,
      @subsample_oob binary64 (counting_engine binary64)
        ten_rows three_eighths [] oob_samples (counting_sampler 4) = Done (ins, outs, s').
Proof.
  apply (subsample_is_the_in_set counting_binary64_laws
           ten_rows three_eighths [] (counting_sampler 4)); by vm_compute.
Defined.

(** When the computed size [c] exceeds the pool (a fraction above 1), the
    two-output [subsample] throws: the size given to [oob_samples.resize],
    [samples.size() - subsample_size], wraps around to more than a vector can
    hold, and the call ends there, before anything is copied. *)
Theorem subsample_with_oob_beyond_the_pool_throws
    {A : Arith} {R : StdRandom A}
    (pool : list Z) (fraction : double) (subsamples oob_samples : list Z)
    (s : RandomSampler A R) (c : Z) :
  subsample_size pool fraction = Some c -> (size_of pool < c < 2 ^ 32)%Z ->
  (max_size < wrap64 (size_of pool - c))%Z /\
  resize (wrap64 (size_of pool - c)) oob_samples = Fault /\
  subsample_oob pool fraction subsamples oob_samples s = Fault.
Proof.
  intros Hc Hrange.
  assert (Hwrap : (max_size < wrap64 (size_of pool - c))%Z).
  { unfold wrap64, size_of in *. rewrite max_size_value.
    replace ((Z.of_nat (length pool) - c) mod 2 ^ 64)%Z
      with (2 ^ 64 + (Z.of_nat (length pool) - c))%Z; [lia |].
    apply Z.mod_unique with (q := (-1)%Z); lia. }
  split; [exact Hwrap |]. split; [by apply resize_fault |].
  by apply (subsample_oob_overdraw pool fraction subsamples oob_samples s c).
Qed.

Definition three_halves : @double binary64 := 1.5%float.

Lemma subsample_with_oob_beyond_the_pool_throws_witness :
  (max_size < wrap64 (size_of [5; 6]%Z - 3))%Z /\
  resize (wrap64 (size_of [5; 6]%Z - 3)) [] = Fault /\
  @subsample_oob binary64 (counting_engine binary64)
    [5; 6]%Z three_halves [] [] (counting_sampler 0) = Fault.
Proof.
  apply (subsample_with_oob_beyond_the_pool_throws
           [5; 6]%Z three_halves [] [] (counting_sampler 0) 3); by vm_compute.
Defined.

(** ** [shuffle_and_split] *)

Lemma first_indices_spec (n : nat) (x : Z) :
  x ∈ first_indices n <-> (0 <= x < Z.of_nat n)%Z.
Proof.
  unfold first_indices. rewrite list_elem_of_fmap. split.
  - intros (k & -> & Hk). apply elem_of_seq in Hk. lia.
  - intros Hx. exists (Z.to_nat x). split; [lia |]. apply elem_of_seq. lia.
Qed.

Lemma first_indices_NoDup (n : nat) : NoDup (first_indices n).
Proof.
  unfold first_indices. apply NoDup_fmap_2; [| apply NoDup_seq].
  intros x y. lia.
Qed.

Lemma first_indices_length (n : nat) : length (first_indices n) = n.
Proof. unfold first_indices. by rewrite length_fmap, length_seq. Qed.

Section ShuffleAndSplit.
Context {A : Arith} {R : StdRandom A} {RL : StdRandomLaws R}.

(** What [shuffle_and_split] returns for fewer than [2^31] indices, the
    values the [int] counter of [std::iota] reaches: the shuffled indices
    [0 .. n_all-1], cut to [size] or padded with zeros up to [size]. *)
Lemma shuffle_and_split_spec (samples : list Z) (n_all size : Z) (s : RandomSampler A R) :
  (0 <= n_all < 2 ^ 31)%Z -> (size <= max_size)%Z ->
  let sh := shuffle (first_indices (Z.to_nat n_all)) s in
  shuffle_and_split samples n_all size s
  = Done (take (Z.to_nat size) sh.1 ++ replicate (Z.to_nat size - Z.to_nat n_all) 0%Z, sh.2)
  /\ sh.1 ≡ₚ first_indices (Z.to_nat n_all).
Proof.
  intros Hn Hsize sh. unfold shuffle_and_split.
  destruct (resize_done_length n_all samples) as (v & -> & Hv).
  { rewrite max_size_value. lia. }
  simpl. rewrite Hv. unfold iota.
  destruct (Z.ltb_spec (Z.of_nat (Z.to_nat n_all)) (2 ^ 31)) as [_|Hge]; [| lia].
  simpl. fold sh.
  destruct (shuffle_spec (first_indices (Z.to_nat n_all)) s) as [Hperm _]. fold sh in Hperm.
  destruct sh as [l s'] eqn:Hsh. simpl in *.
  rewrite resize_done by done. simpl.
  assert (Hlen : length l = Z.to_nat n_all) by (by rewrite Hperm, first_indices_length).
  rewrite Hlen. done.
Qed.

End ShuffleAndSplit.

Lemma shuffle_and_split_cut
    {A : Arith} {R : StdRandom A} (RL : StdRandomLaws R)
    (samples : list Z) (n_all size : Z) (s : RandomSampler A R) :
  (0 <= size <= n_all)%Z -> (n_all < 2 ^ 31)%Z ->
  exists out s',
    shuffle_and_split samples n_all size s = Done (out, s') /\
    size_of out = size /\ NoDup out /\
    (forall x, x ∈ out -> (0 <= x < n_all)%Z) /\
    options s' = options s.
Proof.
  intros Hsize Hn.
  destruct (shuffle_and_split_spec samples n_all size s ltac:(lia)
              ltac:(rewrite max_size_value; lia)) as [Hrun Hperm].
  destruct (shuffle_spec (first_indices (Z.to_nat n_all)) s) as [_ Hopt].
  set (sh := shuffle (first_indices (Z.to_nat n_all)) s) in *.
  assert (Hlen : length sh.1 = Z.to_nat n_all) by (by rewrite Hperm, first_indices_length).
  replace (Z.to_nat size - Z.to_nat n_all)%nat with 0%nat in Hrun by lia.
  simpl in Hrun. rewrite app_nil_r in Hrun.
  exists (take (Z.to_nat size) sh.1), sh.2. split_and!.
  - done.
  - unfold size_of. rewrite length_take. lia.
  - apply (sublist_NoDup _ sh.1); [| apply sublist_take].
    rewrite Hperm. apply first_indices_NoDup.
  - intros x Hx. apply elem_of_take in Hx as (i & Hx & _).
    apply list_elem_of_lookup_2 in Hx. rewrite Hperm in Hx.
    apply first_indices_spec in Hx. lia.
  - done.
Qed.

(** [shuffle_and_split] with [size <= n_all] and fewer than [2^31] indices
    (the [int] counter of [std::iota] goes no further): the result holds
    [size] pairwise different indices of [0 .. n_all-1], whatever [samples]
    held before. *)
Theorem shuffle_and_split_distinct_indices
    {A : Arith} {R : StdRandom A} (RL : StdRandomLaws R)
    (samples : list Z) (n_all size : Z) (s : RandomSampler A R) :
  (0 <= size <= n_all)%Z -> (n_all < 2 ^ 31)%Z ->
  exists out s',
    shuffle_and_split samples n_all size s = Done (out, s') /\
    size_of out = size /\ NoDup out /\
    (forall x, x ∈ out -> (0 <= x < n_all)%Z) /\
    options s' = options s.
Proof. apply shuffle_and_split_cut, RL. Qed.

Lemma shuffle_and_split_distinct_indices_witness :
  exists out s',
    shuffle_and_split [7; 7; 7]%Z 10 4 (counting_sampler 3) = Done (out, s') /\
    size_of out = 4%Z /\ NoDup out /\
    (forall x, x ∈ out -> (0 <= x < 10)%Z) /\
    options s' = options (counting_sampler 3).
Proof.
  apply (shuffle_and_split_distinct_indices counting_binary64_laws
           [7; 7; 7]%Z 10 4 (counting_sampler 3)); lia.
Defined.

(** [shuffle_and_split] with [size > n_all] (and fewer than [2^31] indices):
    the final [resize] pads. The result is a permutation of all of
    [0 .. n_all-1] followed by [size - n_all] zeros; when there is an index
    at all, the index 0 is in the result more than once. *)
Theorem shuffle_and_split_pads_with_zeros
    {A : Arith} {R : StdRandom A} (RL : StdRandomLaws R)
    (samples : list Z) (n_all size : Z) (s : RandomSampler A R) :
  (0 <= n_all < size)%Z -> (n_all < 2 ^ 31)%Z -> (size <= max_size)%Z ->
  exists out sh s',
    shuffle_and_split samples n_all size s = Done (out, s') /\
    out = sh ++ replicate (Z.to_nat (size - n_all)) 0%Z /\
    sh ≡ₚ first_indices (Z.to_nat n_all) /\
    ((1 <= n_all)%Z -> ~ NoDup out).
Proof.
  intros Hsize Hn Hmax.
  destruct (shuffle_and_split_spec samples n_all size s ltac:(lia) ltac:(lia)) as [Hrun Hperm].
  set (sh := shuffle (first_indices (Z.to_nat n_all)) s) in *.
  assert (Hlen : length sh.1 = Z.to_nat n_all) by (by rewrite Hperm, first_indices_length).
  exists (sh.1 ++ replicate (Z.to_nat (size - n_all)) 0%Z), sh.1, sh.2.
  split_and!; [| done | done |].
  - rewrite Hrun. rewrite take_ge by lia. repeat f_equal. lia.
  - intros Hone Hnd. apply NoDup_app in Hnd as (_ & Hdisj & _).
    apply (Hdisj 0%Z).
    + rewrite Hperm. apply first_indices_spec. lia.
    + replace (Z.to_nat (size - n_all)) with (S (Z.to_nat (size - n_all - 1))) by lia.
      simpl. by left.
Qed.

Lemma shuffle_and_split_pads_with_zeros_witness :
  exists out sh s',
    shuffle_and_split [] 3 5 (counting_sampler 1) = Done (out, s') /\
    out = sh ++ replicate (Z.to_nat (5 - 3)) 0%Z /\
    sh ≡ₚ first_indices (Z.to_nat 3) /\
    ((1 <= 3)%Z -> ~ NoDup out).
Proof.
  apply (shuffle_and_split_pads_with_zeros counting_binary64_laws
           [] 3 5 (counting_sampler 1)); [lia | lia | by vm_compute].
Defined.

End SamplingFacts.


(** * [sample] and [sample_from_clusters] at their edges *)

Module SampleCalls.
Import Machine Sampling SamplingLaws Binary64 Binary64Facts Subsampling Clusters.
Import SamplingFacts.

(** ** [sample] without weights *)

(** [sample] with no sample weights, a number of rows below [2^31] (the
    [int] counter of [std::iota] goes no further) and a fraction between 0
    and 1 returns [k] pairwise different row indices below [num_samples],
    where [k = (size_t) (num_samples * sample_fraction)], computed in
    binary64, is at most [num_samples]; what [samples] held before is gone. *)
Theorem sample_draws_distinct_rows
    {R : StdRandom binary64} (RL : StdRandomLaws R)
    (fuel : nat) (num_samples : Z) (sample_fraction : @double binary64)
    (samples : list Z) (s : RandomSampler binary64 R) :
  (0 <= num_samples < 2 ^ 31)%Z ->
  (0 <=? sample_fraction)%float = true -> (sample_fraction <=? 1)%float = true ->
  sample_weights (options s) = [] ->
  exists k out s',
    trunc_to_size (dmul (of_size num_samples) sample_fraction) = Some k /\
    (0 <= k <= num_samples)%Z /\
    sample fuel num_samples sample_fraction samples s = Done (out, s') /\
    size_of out = k /\ NoDup out /\
    (forall x, x ∈ out -> (0 <= x < num_samples)%Z).
Proof.
  intros Hn Hf0 Hf1 Hw.
  destruct (binary64_trunc_fraction num_samples sample_fraction ltac:(lia) Hf0 Hf1)
    as (k & Hk & Hrange).
  destruct (shuffle_and_split_cut RL samples num_samples k s ltac:(lia) ltac:(lia))
    as (out & s' & Hrun & Hsize & Hnd & Hin & _).
  assert (Hk' : @trunc_to_size binary64
                  (@dmul binary64 (@of_size binary64 num_samples) sample_fraction) = Some k)
    by exact Hk.
  exists k, out, s'. split; [exact Hk' |]. split; [lia |].
  split; [| done]. unfold sample. rewrite Hk', Hw. done.
Qed.

Lemma sample_draws_distinct_rows_witness :
  exists k out s',
    @trunc_to_size binary64 (@dmul binary64 (@of_size binary64 10) three_eighths) = Some k /\
    (0 <= k <= 10)%Z /\
    @sample binary64 (counting_engine binary64)
      0 10 three_eighths [7; 7]%Z (counting_sampler 5) = Done (out, s') /\
    size_of out = k /\ NoDup out /\
    (forall x, x ∈ out -> (0 <= x < 10)%Z).
Proof.
  apply (sample_draws_distinct_rows counting_binary64_laws
           0 10 three_eighths [7; 7]%Z (counting_sampler 5)); by vm_compute.
Defined.

(** ** [sample_from_clusters] on an empty cluster *)




End SampleCalls.


(** * Further properties of the draws without replacement *)

Module DrawFacts.
Import Machine Sampling SamplingLaws Binary64 Subsampling Drawing.

(** ** The rejection loops *)

Section Rejection.
Context {E : Type}.
(** The inner loop: it returns a value and the engine's next state. *)
Variable retry : list bool -> E -> outcome (Z * E).

(** The outer loop's body, shared by [draw_simple] and [draw_weighted]. *)
Definition accept (st : list Z * list bool * E) : outcome (list Z * list bool * E) :=
  let '(result, temp, g) := st in
  '(draw, g) ← retry temp g;
  Done (result ++ [draw], <[Z.to_nat draw := true]> temp, g).

(** The values already in [result] stay in front of the new ones. *)
Lemma repeat_loop_appends (m : nat) (pre acc : list Z) (temp : list bool) (g : E) :
  repeat_loop m accept (pre ++ acc, temp, g)
  = x ← repeat_loop m accept (acc, temp, g); Done (pre ++ x.1.1, x.1.2, x.2).
Proof.
  revert acc temp g. induction m as [|m IH]; intros acc temp g; [done |].
  cbn [repeat_loop]. unfold accept at 2 4.
  destruct (retry temp g) as [[draw g1]| |]; [| done | done].
  cbn [mbind outcome_bind obind]. rewrite <- app_assoc. apply IH.
Qed.

(** The flags of the values accepted so far. *)
Definition flagged (acc : list Z) (temp : list bool) : Prop :=
  forall x, x ∈ acc -> temp !! Z.to_nat x = Some true.

Variable ok : Z -> Prop.
Hypothesis retry_unflagged : forall temp g x g',
  retry temp g = Done (x, g') -> temp !! Z.to_nat x = Some false /\ ok x.

(** Whenever the outer loop returns, it has added [m] values whose flags
    were down when they were accepted: no two of them share an index, and
    none shares one with an earlier value. *)
Lemma repeat_loop_accepts (m : nat) (acc : list Z) (temp : list bool) (g : E)
    acc' temp' g' :
  repeat_loop m accept (acc, temp, g) = Done (acc', temp', g') ->
  flagged acc temp -> NoDup (Z.to_nat <$> acc) ->
  exists new,
    acc' = acc ++ new /\ length new = m /\ Forall ok new /\
    Forall (fun x => (Z.to_nat x < length temp)%nat) new /\
    NoDup (Z.to_nat <$> acc') /\ flagged acc' temp' /\ length temp' = length temp.
Proof.
  revert acc temp g. induction m as [|m IH]; intros acc temp g Hrun Hflag Hnd.
  - injection Hrun as <- <- <-. exists []. rewrite app_nil_r. split_and!; done.
  - cbn [repeat_loop] in Hrun. unfold accept at 2 in Hrun.
    destruct (retry temp g) as [[draw g1]| |] eqn:Hretry; [| done | done].
    cbn [mbind outcome_bind obind] in Hrun.
    destruct (retry_unflagged _ _ _ _ Hretry) as [Hdown Hok].
    assert (Hlt : (Z.to_nat draw < length temp)%nat).
    { by eapply lookup_lt_Some. }
    destruct (IH _ _ _ Hrun) as (new & -> & Hlen & Hall & Hin & Hnd' & Hflag' & Hlen').
    + intros x Hx. apply elem_of_app in Hx as [Hx|Hx].
      * destruct (decide (Z.to_nat x = Z.to_nat draw)) as [Heq|Hne].
        { rewrite Heq. by apply list_lookup_insert_eq. }
        rewrite list_lookup_insert_ne by done. by apply Hflag.
      * apply list_elem_of_singleton in Hx as ->. by apply list_lookup_insert_eq.
    + rewrite fmap_app. apply NoDup_app. split_and!; [done | | apply NoDup_singleton].
      intros i Hi Hi'. apply list_elem_of_singleton in Hi' as ->.
      apply list_elem_of_fmap in Hi as (x & Hx & Hxin).
      specialize (Hflag x Hxin). rewrite <- Hx in Hflag. congruence.
    + rewrite length_insert in Hlen'.
      rewrite <- app_assoc in Hnd', Hflag'.
      exists (draw :: new). rewrite <- app_assoc.
      split; [done |]. split; [simpl; lia |]. split; [by constructor |].
      split; [| done].
      constructor; [done |]. eapply Forall_impl; [exact Hin |].
      simpl. intros x. by rewrite length_insert.
Qed.

End Rejection.

(** ** [draw_simple] and [draw_weighted] append, [draw_knuth] overwrites *)

Section Appending.
Context {A : Arith} {R : StdRandom A}.

Lemma draw_simple_accept fuel result max skip n (s : RandomSampler A R) :
  draw_simple fuel result max skip n s
  = if (max_size <? n)%Z then Fault
    else
      '(result, temp, g) ←
        repeat_loop (Z.to_nat n)
          (accept (draw_simple_retry fuel (wrap64 (max - 1 - size_of skip)) skip))
          (result, replicate (Z.to_nat max) false, random_number_generator s);
      Done (result, with_engine s g).
Proof. reflexivity. Qed.

Lemma draw_weighted_accept fuel result max n weights (s : RandomSampler A R) :
  draw_weighted fuel result max n weights s
  = if (max_size <? n)%Z then Fault
    else
      '(result, temp, g) ←
        repeat_loop (Z.to_nat n) (accept (draw_weighted_retry fuel weights))
          (result, replicate (Z.to_nat (wrap64 (max + 1))) false, random_number_generator s);
      Done (result, with_engine s g).
Proof. reflexivity. Qed.

Lemma draw_knuth_loop_overwrites (fuel : nat) (N n : Z) skip (r1 r2 : list Z) i j (g : engine) :
  (n < 2 ^ 64)%Z -> (0 <= i)%Z ->
  length r1 = Z.to_nat n -> length r2 = Z.to_nat n ->
  take (Z.to_nat i) r1 = take (Z.to_nat i) r2 ->
  draw_knuth_loop fuel N n skip r1 i j g = draw_knuth_loop fuel N n skip r2 i j g.
Proof.
  intros Hn. revert r1 r2 i j g.
  induction fuel as [|fuel IH]; intros r1 r2 i j g Hi H1 H2 Ht.
  - simpl. destruct (Z.ltb_spec i n); [done |].
    rewrite take_ge in Ht by lia. rewrite take_ge in Ht by lia. by subst.
  - destruct (Z.ltb_spec i n) as [Hlt|Hge].
    + rewrite !draw_knuth_loop_step by done.
      destruct (uniform_real g) as [u g1].
      destruct (dle _ _); [by apply IH |].
      rewrite (wrap64_small (i + 1)) by lia.
      apply IH; [lia | by rewrite length_insert | by rewrite length_insert |].
      replace (Z.to_nat (i + 1)) with (S (Z.to_nat i)) by lia.
      rewrite !take_S_r with (x := skip_shift skip j)
        by (apply list_lookup_insert_eq; lia).
      rewrite !take_insert_ge by lia. by rewrite Ht.
    + rewrite !draw_knuth_loop_end by lia.
      rewrite take_ge in Ht by lia. rewrite take_ge in Ht by lia. by subst.
Qed.

End Appending.

Lemma draw_simple_appends
    {A : Arith} {R : StdRandom A}
    (fuel : nat) (result : list Z) (max : Z) (skip : list Z) (n : Z)
    (s : RandomSampler A R) :
  draw_simple fuel result max skip n s
  = (x ← draw_simple fuel [] max skip n s; Done (result ++ x.1, x.2)).
Proof.
  rewrite !draw_simple_accept. destruct (max_size <? n)%Z; [done |].
  rewrite <- (app_nil_r result) at 1. rewrite repeat_loop_appends.
  destruct (repeat_loop _ _ _) as [[[out temp] g]| |]; done.
Qed.

Lemma draw_weighted_appends
    {A : Arith} {R : StdRandom A}
    (fuel : nat) (result : list Z) (max n : Z)
    (weights : list double) (s : RandomSampler A R) :
  draw_weighted fuel result max n weights s
  = (x ← draw_weighted fuel [] max n weights s; Done (result ++ x.1, x.2)).
Proof.
  rewrite !draw_weighted_accept. destruct (max_size <? n)%Z; [done |].
  rewrite <- (app_nil_r result) at 1. rewrite repeat_loop_appends.
  destruct (repeat_loop _ _ _) as [[[out temp] g]| |]; done.
Qed.

Lemma draw_knuth_fresh_start
    {A : Arith} {R : StdRandom A}
    (fuel : nat) (result : list Z) (max : Z) (skip : list Z) (n : Z)
    (s : RandomSampler A R) :
  draw_knuth fuel result max skip n s = draw_knuth fuel [] max skip n s.
Proof.
  unfold draw_knuth, resize.
  destruct (Z.ltb_spec max_size n) as [|Hn]; [done |].
  cbn [mbind outcome_bind obind].
  rewrite (draw_knuth_loop_overwrites fuel _ n skip
             (take (Z.to_nat n) result ++ replicate (Z.to_nat n - length result) 0%Z)
             (take (Z.to_nat n) (@nil Z) ++ replicate (Z.to_nat n - length (@nil Z)) 0%Z));
    [done | rewrite max_size_value in Hn; lia | lia | | | done].
  - rewrite length_app, length_take, length_replicate. lia.
  - rewrite length_app, length_take, length_replicate. simpl. lia.
Qed.

(** [draw_simple] and [draw_weighted] push their draws behind what [result]
    already holds: a call on a vector that is not empty returns that vector
    followed by the values the same call returns on an empty one, from the
    same engine state. *)
Theorem rejection_draws_append
    {A : Arith} {R : StdRandom A}
    (fuel : nat) (result : list Z) (max : Z) (skip : list Z) (n : Z)
    (weights : list double) (s : RandomSampler A R) :
  draw_simple fuel result max skip n s
  = (x ← draw_simple fuel [] max skip n s; Done (result ++ x.1, x.2)) /\
  draw_weighted fuel result max n weights s
  = (x ← draw_weighted fuel [] max n weights s; Done (result ++ x.1, x.2)).
Proof. split; [apply draw_simple_appends | apply draw_weighted_appends]. Qed.

(** [draw_knuth] resizes [result] and assigns every position: what the
    vector held before the call has no effect on what the call returns. *)
Theorem draw_knuth_overwrites
    {A : Arith} {R : StdRandom A}
    (fuel : nat) (result : list Z) (max : Z) (skip : list Z) (n : Z)
    (s : RandomSampler A R) :
  draw_knuth fuel result max skip n s = draw_knuth fuel [] max skip n s.
Proof. apply draw_knuth_fresh_start. Qed.

(** ** [draw_knuth] returns its values in increasing order *)

Lemma shift_increasing skip (js : list Z) :
  StronglySorted Z.lt js -> StronglySorted Z.lt (shift skip <$> js).
Proof.
  induction 1 as [|x js Hs IH Hall]; [constructor |].
  rewrite fmap_cons. constructor; [done |].
  apply Forall_fmap. eapply Forall_impl; [exact Hall |].
  simpl. intros y Hy. by apply shift_mono.
Qed.

(** Under the hypotheses under which [draw] returns [n] unskipped values,
    [draw_knuth] returns them sorted, each below the next, and the same
    values whatever [result] held before. *)
Theorem draw_knuth_returns_increasing
    {R : StdRandom binary64} (RL : StdRandomLaws R)
    (max n : Z) (skip : list Z) (s : RandomSampler binary64 R) :
  (0 <= max < 2 ^ 64)%Z -> (0 <= n <= max_size)%Z ->
  StronglySorted Z.lt skip -> (n <= max - size_of skip)%Z ->
  exists drawn s',
    (forall fuel result, (Z.to_nat max <= fuel)%nat ->
       draw_knuth fuel result max skip n s = Done (drawn, s')) /\
    size_of drawn = n /\ StronglySorted Z.lt drawn.
Proof.
  intros Hmax Hn Hsorted Hfit.
  assert (Hskip : (0 <= size_of skip)%Z) by (unfold size_of; lia).
  destruct (resize_done_length n [] Hn) as (r0 & Hr0 & Hlen0).
  destruct (@draw_knuth_loop_spec binary64 R binary64_laws RL
              (Z.to_nat (max - size_of skip)) (max - size_of skip) n skip
              ltac:(lia) r0 0%Z 0%Z (random_number_generator s))
    as (result' & g' & js & Hrun & H1 & _ & H3 & H4 & H5); [lia | lia | lia | lia | done |].
  change (Z.to_nat 0) with 0%nat in H3. rewrite drop_0 in H3.
  assert (Heq : skip_shift skip <$> js = shift skip <$> js).
  { apply Forall_fmap_ext. eapply Forall_impl; [exact H5 |]. simpl.
    intros x Hx. apply skip_shift_shift; lia. }
  exists result', (with_engine s g'). split_and!.
  - intros fuel result Hfuel. rewrite draw_knuth_fresh_start. unfold draw_knuth.
    rewrite (wrap64_small (max - size_of skip)) by lia.
    rewrite Hr0. cbn [mbind outcome_bind obind]. rewrite Hrun by lia. done.
  - unfold size_of. rewrite H1, Hlen0. lia.
  - rewrite H3, Heq. by apply shift_increasing.
Qed.

Lemma draw_knuth_returns_increasing_witness :
  exists drawn s',
    (forall fuel result, (Z.to_nat 10 <= fuel)%nat ->
       draw_knuth fuel result 10 [2; 5]%Z 6 (SamplingFacts.counting_sampler 3)
       = Done (drawn, s')) /\
    size_of drawn = 6%Z /\ StronglySorted Z.lt drawn.
Proof.
  apply (draw_knuth_returns_increasing counting_binary64_laws
           10 6 [2; 5]%Z (SamplingFacts.counting_sampler 3));
    [lia | rewrite max_size_value; lia | repeat constructor | by vm_compute].
Defined.

(** ** What the rejection loops can return *)

Section Returned.
Context {A : Arith} {R : StdRandom A} {RL : StdRandomLaws R}.

Lemma skip_shift_nonneg skip d : (0 <= d)%Z -> (0 <= skip_shift skip d)%Z.
Proof.
  revert d. induction skip as [|sv skip IH]; intros d Hd; [done |].
  rewrite skip_shift_cons. apply IH.
  destruct (sv <=? d)%Z; [| done]. unfold wrap64. apply Z.mod_pos_bound. lia.
Qed.

(** The retry loop of [draw_simple] returns a shifted draw whose flag is
    down. *)
Lemma draw_simple_retry_returns fuel upper skip temp (g : engine) x g' :
  (0 <= upper)%Z ->
  draw_simple_retry fuel upper skip temp g = Done (x, g') ->
  temp !! Z.to_nat x = Some false /\
  exists d, (0 <= d <= upper)%Z /\ x = skip_shift skip d.
Proof.
  intros Hupper. revert g. induction fuel as [|fuel IH]; intros g Hrun; [done |].
  rewrite draw_simple_retry_step in Hrun.
  pose proof (uniform_int_range 0 upper g Hupper) as Hrange.
  destruct (uniform_int 0 upper g) as [d g1]. cbv zeta in Hrun. simpl in Hrange.
  destruct (temp !! Z.to_nat (skip_shift skip d)) as [[|]|] eqn:Hflag; [| | done].
  - by apply (IH g1).
  - injection Hrun as <- <-. split; [done |]. by exists d.
Qed.

End Returned.

(** Whatever the number of passes allowed, [draw_simple] called on an empty
    vector, with fewer skipped values than [max] and the skip set iterated in
    increasing order, returns only [n] pairwise different values of
    [0 .. max-1] that are not skipped; so it returns only when
    [n <= max - |skip|], and asked for more it never returns. *)
Theorem draw_simple_returns_only_what_fits
    {A : Arith} {R : StdRandom A} (RL : StdRandomLaws R)
    (fuel : nat) (max n : Z) (skip : list Z) (s : RandomSampler A R)
    (drawn : list Z) (s' : RandomSampler A R) :
  (0 <= max < 2 ^ 64)%Z -> (size_of skip < max)%Z ->
  StronglySorted Z.lt skip -> (0 <= n)%Z ->
  draw_simple fuel [] max skip n s = Done (drawn, s') ->
  size_of drawn = n /\ NoDup drawn /\
  (forall x, x ∈ drawn -> (0 <= x < max)%Z /\ x ∉ skip) /\
  (n <= max - size_of skip)%Z.
Proof.
  intros Hmax Hskip Hsorted Hn Hrun.
  assert (Hskip0 : (0 <= size_of skip)%Z) by (unfold size_of; lia).
  rewrite draw_simple_accept in Hrun.
  destruct (max_size <? n)%Z; [done |].
  rewrite (wrap64_small (max - 1 - size_of skip)) in Hrun by lia.
  set (upper := (max - 1 - size_of skip)%Z) in *.
  destruct (repeat_loop _ _ _) as [[[out temp'] g']| |] eqn:Hloop; [| done | done].
  cbn [mbind outcome_bind obind] in Hrun. injection Hrun as <- <-.
  destruct (repeat_loop_accepts (draw_simple_retry fuel upper skip)
              (fun x => exists d, (0 <= d <= upper)%Z /\ x = skip_shift skip d)
              (fun temp g x g' => draw_simple_retry_returns fuel upper skip temp g x g'
                                    ltac:(unfold upper; lia))
              _ _ _ _ _ _ _ Hloop)
    as (new & Hout & Hlen & Hok & Hin & Hnd & _ & _).
  { intros x Hx. by apply elem_of_nil in Hx. }
  { constructor. }
  simpl in Hout. subst out. rewrite length_replicate in Hin.
  apply NoDup_fmap_1 in Hnd.
  assert (Hshape : forall x, x ∈ new ->
            exists d, (0 <= d < max - size_of skip)%Z /\ x = shift skip d).
  { intros x Hx. rewrite Forall_forall in Hok. destruct (Hok x Hx) as (d & Hd & ->).
    exists d. split; [unfold upper in Hd; lia |].
    apply skip_shift_shift; unfold upper in Hd; lia. }
  split_and!.
  - unfold size_of. lia.
  - done.
  - intros x Hx. destruct (Hshape x Hx) as (d & Hd & ->).
    pose proof (shift_bounds skip d). split; [lia | by apply shift_not_skipped].
  - assert (Hsub : new ⊆+ candidates skip (max - size_of skip)).
    { apply NoDup_submseteq; [done |]. intros x Hx.
      destruct (Hshape x Hx) as (d & Hd & ->).
      unfold candidates. apply list_elem_of_fmap. exists d. split; [done |].
      apply elem_of_seqZ. lia. }
    apply submseteq_length in Hsub.
    unfold candidates in Hsub. rewrite length_fmap, length_seqZ in Hsub. lia.
Qed.

Lemma draw_simple_returns_only_what_fits_witness :
  exists drawn s',
    draw_simple 4 [] 10 [2; 5]%Z 3 (SamplingFacts.counting_sampler 7) = Done (drawn, s') /\
    size_of drawn = 3%Z /\ NoDup drawn /\
    (forall x, x ∈ drawn -> (0 <= x < 10)%Z /\ x ∉ [2; 5]%Z) /\
    (3 <= 10 - size_of [2; 5]%Z)%Z.
Proof.
  destruct (draw_simple 4 [] 10 [2; 5]%Z 3 (SamplingFacts.counting_sampler 7))
    as [[drawn s']| |] eqn:Hrun;
    [| apply (f_equal SamplingFacts.ended) in Hrun; by vm_compute in Hrun ..].
  exists drawn, s'. split; [done |].
  apply (draw_simple_returns_only_what_fits counting_binary64_laws
           4 10 3 [2; 5]%Z (SamplingFacts.counting_sampler 7) drawn s');
    [lia | by vm_compute | repeat constructor | lia | exact Hrun].
Defined.

(** ** What [draw_weighted] can return *)

(** The contract of [std::discrete_distribution<>] built from a range of
    weights that is not empty: it draws an index of the range. *)
Class DiscreteLaws {A : Arith} (R : StdRandom A) : Prop := {
  discrete_range : forall weights g,
    weights <> [] -> (0 <= (discrete weights g).1 < Z.of_nat (length weights))%Z
}.

Lemma counting_discrete_laws (A : Arith) : DiscreteLaws (counting_engine A).
Proof.
  split. intros weights g Hw. simpl. apply Z.mod_pos_bound.
  destruct weights; [done | simpl; lia].
Qed.

Section Weighted.
Context {A : Arith} {R : StdRandom A} {DL : DiscreteLaws R}.

(** The retry loop of [draw_weighted] returns an index of the weights whose
    flag is down. *)
Lemma draw_weighted_retry_returns fuel weights temp (g : engine) x g' :
  weights <> [] ->
  draw_weighted_retry fuel weights temp g = Done (x, g') ->
  temp !! Z.to_nat x = Some false /\ (0 <= x < Z.of_nat (length weights))%Z.
Proof.
  intros Hw. revert g. induction fuel as [|fuel IH]; intros g Hrun; [done |].
  cbn [draw_weighted_retry] in Hrun.
  pose proof (discrete_range weights g Hw) as Hrange.
  destruct (discrete weights g) as [d g1]. simpl in Hrange.
  destruct (temp !! Z.to_nat d) as [[|]|] eqn:Hflag; [| | done].
  - by apply (IH g1).
  - by injection Hrun as <- <-.
Qed.

Lemma draw_weighted_fresh
    (fuel : nat) (max n : Z) (weights : list double) (s : RandomSampler A R)
    (drawn : list Z) (s' : RandomSampler A R) :
  (0 <= max < 2 ^ 64 - 1)%Z -> (0 <= n)%Z ->
  weights <> [] -> (Z.of_nat (length weights) <= max + 1)%Z ->
  draw_weighted fuel [] max n weights s = Done (drawn, s') ->
  size_of drawn = n /\ NoDup drawn /\
  (forall x, x ∈ drawn -> (0 <= x < Z.of_nat (length weights))%Z) /\
  (n <= Z.of_nat (length weights))%Z.
Proof.
  intros Hmax Hn Hw Hfit Hrun.
  rewrite draw_weighted_accept in Hrun.
  destruct (max_size <? n)%Z; [done |].
  destruct (repeat_loop _ _ _) as [[[out temp'] g']| |] eqn:Hloop; [| done | done].
  cbn [mbind outcome_bind obind] in Hrun. injection Hrun as <- <-.
  destruct (repeat_loop_accepts (draw_weighted_retry fuel weights)
              (fun x => (0 <= x < Z.of_nat (length weights))%Z)
              (fun temp g x g' => draw_weighted_retry_returns fuel weights temp g x g' Hw)
              _ _ _ _ _ _ _ Hloop)
    as (new & Hout & Hlen & Hok & _ & Hnd & _ & _).
  { intros x Hx. by apply elem_of_nil in Hx. }
  { constructor. }
  simpl in Hout. subst out. apply NoDup_fmap_1 in Hnd.
  rewrite Forall_forall in Hok.
  split_and!.
  - unfold size_of. lia.
  - done.
  - done.
  - assert (Hsub : new ⊆+ seqZ 0 (Z.of_nat (length weights))).
    { apply NoDup_submseteq; [done |]. intros x Hx.
      apply elem_of_seqZ. specialize (Hok x Hx). lia. }
    apply submseteq_length in Hsub. rewrite length_seqZ in Hsub. lia.
Qed.

End Weighted.

(** [draw_weighted] with at most [max + 1] weights, the number of its flags,
    and [std::discrete_distribution] taken by its contract: whatever the
    number of passes allowed, the call, made on an empty vector, returns only
    [n] pairwise different indices of the weights; so it returns only when
    [n] is at most the number of weights. *)
Theorem draw_weighted_returns_distinct
    {A : Arith} {R : StdRandom A} (DL : DiscreteLaws R)
    (fuel : nat) (max n : Z) (weights : list double) (s : RandomSampler A R)
    (drawn : list Z) (s' : RandomSampler A R) :
  (0 <= max < 2 ^ 64 - 1)%Z -> (0 <= n)%Z ->
  weights <> [] -> (Z.of_nat (length weights) <= max + 1)%Z ->
  draw_weighted fuel [] max n weights s = Done (drawn, s') ->
  size_of drawn = n /\ NoDup drawn /\
  (forall x, x ∈ drawn -> (0 <= x < Z.of_nat (length weights))%Z) /\
  (n <= Z.of_nat (length weights))%Z.
Proof. apply draw_weighted_fresh. Qed.

Definition three_weights : list (@double binary64) := [1; 2; 3]%float.

Lemma draw_weighted_returns_distinct_witness :
  exists drawn s',
    draw_weighted 3 [] 2 2 three_weights (SamplingFacts.counting_sampler 2) = Done (drawn, s') /\
    size_of drawn = 2%Z /\ NoDup drawn /\
    (forall x, x ∈ drawn -> (0 <= x < Z.of_nat (length three_weights))%Z) /\
    (2 <= Z.of_nat (length three_weights))%Z.
Proof.
  destruct (draw_weighted 3 [] 2 2 three_weights (SamplingFacts.counting_sampler 2))
    as [[drawn s']| |] eqn:Hrun;
    [| apply (f_equal SamplingFacts.ended) in Hrun; by vm_compute in Hrun ..].
  exists drawn, s'. split; [done |].
  apply (draw_weighted_returns_distinct (counting_discrete_laws binary64)
           3 2 2 three_weights (SamplingFacts.counting_sampler 2) drawn s');
    [lia | lia | done | simpl; lia | exact Hrun].
Defined.

(** ** [sample] with weights *)

(** With sample weights, no more of them than [num_samples], a number of
    rows below [2^53] and a fraction between 0 and 1, [sample] draws through
    [draw_weighted] and, unlike the unweighted path, keeps what [samples]
    held: whenever it returns, the result is the old content followed by [k]
    pairwise different indices of the weights, where
    [k = (size_t) (num_samples * sample_fraction)], computed in binary64, is
    at most [num_samples]. *)
Theorem sample_with_weights_appends
    {R : StdRandom binary64} (DL : DiscreteLaws R)
    (fuel : nat) (num_samples : Z) (sample_fraction : @double binary64)
    (samples : list Z) (s : RandomSampler binary64 R)
    (out : list Z) (s' : RandomSampler binary64 R) :
  (1 <= num_samples < 2 ^ 53)%Z ->
  (0 <=? sample_fraction)%float = true -> (sample_fraction <=? 1)%float = true ->
  sample_weights (options s) <> [] ->
  (Z.of_nat (length (sample_weights (options s))) <= num_samples)%Z ->
  sample fuel num_samples sample_fraction samples s = Done (out, s') ->
  exists k added,
    trunc_to_size (dmul (of_size num_samples) sample_fraction) = Some k /\
    (0 <= k <= num_samples)%Z /\
    out = samples ++ added /\
    size_of added = k /\ NoDup added /\
    (forall x, x ∈ added ->
       (0 <= x < Z.of_nat (length (sample_weights (options s))))%Z).
Proof.
  intros Hn Hf0 Hf1 Hw Hfit Hrun.
  destruct (Binary64Facts.binary64_trunc_fraction num_samples sample_fraction
              ltac:(lia) Hf0 Hf1) as (k & Hk & Hrange).
  assert (Hk' : @trunc_to_size binary64
                  (@dmul binary64 (@of_size binary64 num_samples) sample_fraction) = Some k)
    by exact Hk.
  unfold sample in Hrun. rewrite Hk' in Hrun.
  cbn [of_option mbind outcome_bind obind] in Hrun.
  destruct (sample_weights (options s)) as [|w ws] eqn:Ew; [done |].
  rewrite draw_weighted_appends in Hrun.
  destruct (draw_weighted fuel [] (wrap64 (num_samples - 1)) k (w :: ws) s)
    as [[new s1]| |] eqn:Hdraw; [| done | done].
  cbn [mbind outcome_bind obind fst snd] in Hrun. injection Hrun as <- <-.
  rewrite (wrap64_small (num_samples - 1)) in Hdraw by lia.
  destruct (draw_weighted_fresh fuel (num_samples - 1) k (w :: ws) s new s1
              ltac:(lia) ltac:(lia) ltac:(done) ltac:(lia) Hdraw)
    as (Hsize & Hnd & Hin & _).
  exists k, new.
  split; [exact Hk' |]. split; [lia |]. split; [reflexivity |].
  split; [exact Hsize |]. split; [exact Hnd | exact Hin].
Qed.

Definition four_weights : list (@double binary64) := [1; 2; 3; 4]%float.

Definition weighted_rows : SamplingOptions binary64 :=
  {| sample_weights := four_weights; cluster_map := ∅; samples_per_cluster := 0 |}.

Definition one_half : @double binary64 := 0.5%float.

Lemma sample_with_weights_appends_witness :
  exists out s' k added,
    @sample binary64 (counting_engine binary64)
      3 4 one_half [9; 9]%Z (Sampling.new 1 weighted_rows) = Done (out, s') /\
    @trunc_to_size binary64 (@dmul binary64 (@of_size binary64 4) one_half) = Some k /\
    (0 <= k <= 4)%Z /\
    out = [9; 9]%Z ++ added /\
    size_of added = k /\ NoDup added /\
    (forall x, x ∈ added -> (0 <= x < Z.of_nat (length four_weights))%Z).
Proof.
  destruct (@sample binary64 (counting_engine binary64)
              3 4 one_half [9; 9]%Z (Sampling.new 1 weighted_rows))
    as [[out s']| |] eqn:Hrun;
    [| apply (f_equal SamplingFacts.ended) in Hrun; by vm_compute in Hrun ..].
  destruct (sample_with_weights_appends (counting_discrete_laws binary64)
              3 4 one_half [9; 9]%Z (Sampling.new 1 weighted_rows) out s'
              ltac:(lia) ltac:(by vm_compute) ltac:(by vm_compute) ltac:(done)
              ltac:(simpl; lia) Hrun)
    as (k & new & H).
  by exists out, s', k, new.
Defined.

End DrawFacts.


(** * Further properties of local linear prediction *)

Module PredictionFacts.
Import Loop Eigen Machine.

(** ** Small inputs to run the strategy on *)

(** A solver for a one by one system, standing in for [M.ldlt().solve(b)]. *)
Definition scalar_solve (M : Matrix) (b : Vector) : Vector :=
  [(vcoeff b 0 / coeff M 0 0)%float].

(** A stand-in for the debiaser, whose class is not in the sources. *)
Definition difference_debias (var_between group_noise num_good_groups : float) : float :=
  (var_between - group_noise)%float.

Definition constant_data (x : float) : Data :=
  {| get := fun _ _ => x; get_num_rows := 2; get_num_cols := 1 |}.

(** No correction variable, one penalty. *)
Definition mean_only : LocalLinearMulti.Strategy :=
  {| LocalLinearMulti.original_data := constant_data 0;
     LocalLinearMulti.test_data := constant_data 1;
     LocalLinearMulti.lambdas := [0.5%float];
     LocalLinearMulti.use_unweighted_penalty := true;
     LocalLinearMulti.linear_correction_variables := [] |}.

Definition even_weights : list (nat * float) := [(0, 0.5%float); (1, 0.5%float)].

Definition outcomes_0_2 : Observations :=
  {| obs_get := fun _ s => match s with O => 0%float | _ => 2%float end;
     get_num_samples := 2 |}.

Definition no_leaves : PredictionValues := {| values := [] |}.

(** ** The covariance ridge penalty *)

(** With the covariance penalty (the branch taken when the standard penalty
    is not asked for), both versions of [predict] add [lambda * M(j,j)] to
    [M(j,j)] for every [j] from 1 to the number of penalised columns, each
    from the entry's own value before the penalty, and leave every other
    entry, the intercept's [M(0,0)] included, as it was. *)
Theorem covariance_penalty_scales_the_diagonal
    (nv : nat) (lambda : float) (M : Matrix) :
  shaped (nv + 1) (nv + 1) M ->
  let M1 := LocalLinearMulti.regularize false nv lambda M in
  let M2 := LocalLinear.regularize false nv lambda M in
  M2 = M1 /\
  shaped (nv + 1) (nv + 1) M1 /\
  (forall j, 1 <= j <= nv -> coeff M1 j j = (coeff M j j + lambda * coeff M j j)%float) /\
  (forall a b, a <> b \/ a = 0 \/ nv < a -> coeff M1 a b = coeff M a b).
Proof.
  intros HM M1 M2. split_and!.
  - reflexivity.
  - by apply LocalLinearMulti.regularize_shaped.
  - intros j Hj. by apply LocalLinearMulti.regularize_covariance_diagonal.
  - intros a b Hab. by apply LocalLinearMulti.regularize_elsewhere.
Qed.

Lemma covariance_penalty_scales_the_diagonal_witness :
  let M := [[1; 2]; [2; 8]]%float in
  let M1 := LocalLinearMulti.regularize false 1 0.5%float M in
  let M2 := LocalLinear.regularize false 1 0.5%float M in
  M2 = M1 /\
  shaped (1 + 1) (1 + 1) M1 /\
  (forall j, 1 <= j <= 1 -> coeff M1 j j = (coeff M j j + 0.5 * coeff M j j)%float) /\
  (forall a b, a <> b \/ a = 0 \/ 1 < a -> coeff M1 a b = coeff M a b).
Proof.
  apply (covariance_penalty_scales_the_diagonal 1 0.5%float [[1; 2]; [2; 8]]%float).
  split; [done |]. repeat constructor.
Defined.

(** ** What [predict] reads *)

Section Reads.
Variable OUT : nat.
Variable solve : Matrix -> Vector -> Vector.

Lemma at_index_elem (l : list nat) (i : nat) :
  i < length l -> LocalLinearMulti.at_index l i ∈ l.
Proof.
  intros Hi. unfold LocalLinearMulti.at_index.
  destruct (lookup_lt_is_Some_2 l i Hi) as [x Hx]. rewrite Hx. simpl.
  by eapply list_elem_of_lookup_2.
Qed.

Lemma fill_design_reads (self1 self2 : LocalLinearMulti.Strategy) (sampleID : nat)
    (indices : list nat) (obs1 obs2 : Observations) (X : Matrix) (Y : Vector) :
  LocalLinearMulti.linear_correction_variables self1
    = LocalLinearMulti.linear_correction_variables self2 ->
  (forall i v, i ∈ indices -> v ∈ LocalLinearMulti.linear_correction_variables self1 ->
     get (LocalLinearMulti.original_data self1) i v
     = get (LocalLinearMulti.original_data self2) i v) ->
  (forall v, v ∈ LocalLinearMulti.linear_correction_variables self1 ->
     get (LocalLinearMulti.test_data self1) sampleID v
     = get (LocalLinearMulti.test_data self2) sampleID v) ->
  (forall i, i ∈ indices -> obs_get obs1 OUT i = obs_get obs2 OUT i) ->
  LocalLinearMulti.fill_design OUT self1 sampleID indices obs1 X Y
  = LocalLinearMulti.fill_design OUT self2 sampleID indices obs2 X Y.
Proof.
  intros HV Hdata Htest Hobs. unfold LocalLinearMulti.fill_design. rewrite <- HV.
  apply for_loop_ext. intros i [X' Y'] Hi.
  assert (Hin : LocalLinearMulti.at_index indices i ∈ indices)
    by (apply at_index_elem; lia).
  rewrite (Hobs _ Hin). f_equal. f_equal.
  apply for_loop_ext. intros j X'' Hj.
  assert (Hv : LocalLinearMulti.at_index
                 (LocalLinearMulti.linear_correction_variables self1) j
               ∈ LocalLinearMulti.linear_correction_variables self1)
    by (apply at_index_elem; lia).
  by rewrite (Hdata _ _ Hin Hv), (Htest _ Hv).
Qed.

End Reads.

(** The multi-penalty [predict] reads the training data only at the rows of
    the weight map and the linear correction variables, the query at those
    variables, and the outcomes of the weighted samples: two strategies and
    observations that agree there, with the same penalties and penalty type,
    give the same predictions. *)
Theorem predict_reads_the_weighted_rows
    (OUT : nat) (solve : Matrix -> Vector -> Vector)
    (self1 self2 : LocalLinearMulti.Strategy) (sampleID : nat)
    (weights : list (nat * float)) (obs1 obs2 : Observations) :
  LocalLinearMulti.lambdas self1 = LocalLinearMulti.lambdas self2 ->
  LocalLinearMulti.use_unweighted_penalty self1
    = LocalLinearMulti.use_unweighted_penalty self2 ->
  LocalLinearMulti.linear_correction_variables self1
    = LocalLinearMulti.linear_correction_variables self2 ->
  (forall i v, i ∈ weights.*1 -> v ∈ LocalLinearMulti.linear_correction_variables self1 ->
     get (LocalLinearMulti.original_data self1) i v
     = get (LocalLinearMulti.original_data self2) i v) ->
  (forall v, v ∈ LocalLinearMulti.linear_correction_variables self1 ->
     get (LocalLinearMulti.test_data self1) sampleID v
     = get (LocalLinearMulti.test_data self2) sampleID v) ->
  (forall i, i ∈ weights.*1 -> obs_get obs1 OUT i = obs_get obs2 OUT i) ->
  LocalLinearMulti.predict OUT solve self1 sampleID weights obs1
  = LocalLinearMulti.predict OUT solve self2 sampleID weights obs2.
Proof.
  intros Hl Hu HV Hdata Htest Hobs.
  unfold LocalLinearMulti.predict, LocalLinearMulti.design.
  rewrite (fill_design_reads OUT self1 self2 sampleID weights.*1 obs1 obs2) by done.
  by rewrite Hl, Hu, HV.
Qed.

(** Two training sets that differ in the row without weight, and in the
    column that is no correction variable. *)
Definition training_a : Data :=
  {| get := fun i v => match i, v with 0, 0 => 1 | _, _ => 5 end%float;
     get_num_rows := 2; get_num_cols := 2 |}.
Definition training_b : Data :=
  {| get := fun i v => match i, v with 0, 0 => 1 | _, _ => 7 end%float;
     get_num_rows := 2; get_num_cols := 2 |}.
Definition strategy_on (d : Data) : LocalLinearMulti.Strategy :=
  {| LocalLinearMulti.original_data := d;
     LocalLinearMulti.test_data := d;
     LocalLinearMulti.lambdas := [0.5; 1]%float;
     LocalLinearMulti.use_unweighted_penalty := false;
     LocalLinearMulti.linear_correction_variables := [0] |}.
Definition outcomes_a : Observations :=
  {| obs_get := fun _ s => match s with 0 => 3 | _ => 4 end%float; get_num_samples := 2 |}.
Definition outcomes_b : Observations :=
  {| obs_get := fun _ s => match s with 0 => 3 | _ => 9 end%float; get_num_samples := 2 |}.

Lemma predict_reads_the_weighted_rows_witness :
  LocalLinearMulti.predict 0 scalar_solve (strategy_on training_a) 0
    [(0, 1%float)] outcomes_a
  = LocalLinearMulti.predict 0 scalar_solve (strategy_on training_b) 0
    [(0, 1%float)] outcomes_b.
Proof.
  apply (predict_reads_the_weighted_rows 0 scalar_solve
           (strategy_on training_a) (strategy_on training_b) 0
           [(0, 1%float)] outcomes_a outcomes_b); try reflexivity.
  - intros i v Hi Hv. apply list_elem_of_singleton in Hi as ->.
    apply list_elem_of_singleton in Hv as ->. reflexivity.
  - intros v Hv. apply list_elem_of_singleton in Hv as ->. reflexivity.
  - intros i Hi. apply list_elem_of_singleton in Hi as ->. reflexivity.
Defined.

(** ** The groups of trees in [compute_variance] *)

Lemma for_loop_S {T : Type} (n : nat) (body : nat -> T -> T) (t : T) :
  for_loop 0 (S n) body t = body n (for_loop 0 n body t).
Proof.
  unfold for_loop. rewrite !Nat.sub_0_r.
  assert (H : forall m lo t0, for_up (S m) lo body t0 = body (lo + m) (for_up m lo body t0)).
  { induction m as [|m IH]; intros lo t0.
    - simpl. by rewrite Nat.add_0_r.
    - change (for_up (S (S m)) lo body t0) with (for_up (S m) (S lo) body (body lo t0)).
      rewrite IH. simpl. do 2 f_equal. lia. }
  apply (H n 0).
Qed.

Lemma at_tree_app_l (sbt extra : list (list nat)) (b : nat) :
  b < length sbt ->
  LocalLinearMulti.at_tree (sbt ++ extra) b = LocalLinearMulti.at_tree sbt b.
Proof. intros Hb. unfold LocalLinearMulti.at_tree. by rewrite lookup_app_l. Qed.

Lemma good_group_ext (s1 s2 : list (list nat)) (g group : nat) :
  (forall j, j < g ->
     LocalLinearMulti.at_tree s1 (group * g + j) = LocalLinearMulti.at_tree s2 (group * g + j)) ->
  LocalLinearMulti.good_group s1 g group = LocalLinearMulti.good_group s2 g group.
Proof.
  intros H. unfold LocalLinearMulti.good_group. apply for_loop_ext.
  intros j good Hj. rewrite H by lia. done.
Qed.

Lemma score_group_ext map pr (s1 s2 : list (list nat)) (g group : nat) acc :
  (forall j, j < g ->
     LocalLinearMulti.at_tree s1 (group * g + j) = LocalLinearMulti.at_tree s2 (group * g + j)) ->
  LocalLinearMulti.score_group map pr s1 g group acc
  = LocalLinearMulti.score_group map pr s2 g group acc.
Proof.
  intros H. unfold LocalLinearMulti.score_group.
  rewrite (good_group_ext s1 s2 g group H).
  destruct acc as [sc|]; [| done]. cbn [mbind option_bind].
  destruct (negb _); [done |].
  f_equal. apply for_loop_ext. intros j st Hj. rewrite H by lia. done.
Qed.

(** The sums read the trees of the complete groups only. *)
Lemma scores_ext OUT solve self (s1 s2 : list (list nat)) g sampleID weights observations :
  length s1 / g = length s2 / g ->
  (forall b, b < (length s1 / g) * g ->
     LocalLinearMulti.at_tree s1 b = LocalLinearMulti.at_tree s2 b) ->
  LocalLinearMulti.scores OUT solve self s1 g sampleID weights observations
  = LocalLinearMulti.scores OUT solve self s2 g sampleID weights observations.
Proof.
  intros HK H. unfold LocalLinearMulti.scores.
  destruct (LocalLinearMulti.lambdas self !! 0) as [lambda|]; [| done].
  cbn [mbind option_bind]. destruct (g =? 0); [done |].
  rewrite <- HK. apply for_loop_ext. intros group acc Hgroup.
  apply score_group_ext. intros j Hj. apply H. nia.
Qed.

(** A group with a tree that has no sample for the query is not good. *)
Lemma good_group_empty_tree (sbt : list (list nat)) (g group j0 : nat) :
  j0 < g -> LocalLinearMulti.at_tree sbt (group * g + j0) = [] ->
  LocalLinearMulti.good_group sbt g group = false.
Proof.
  intros Hj0 Hempty. unfold LocalLinearMulti.good_group.
  set (body := fun (j : nat) (good : bool) =>
    if length (LocalLinearMulti.at_tree sbt (group * g + j)) =? 0 then false else good).
  assert (H : (fun i (acc : bool) => j0 < i -> acc = false) g (for_loop 0 g body true)).
  { apply (for_loop_invariant (fun i (acc : bool) => j0 < i -> acc = false)); [lia | lia |].
    intros i acc Hi IH Hlt. unfold body.
    destruct (decide (i = j0)) as [->|Hne].
    - by rewrite Hempty.
    - rewrite IH by lia. by destruct (_ =? _). }
  by apply H.
Qed.

(** [compute_variance] uses [samples_by_tree.size() / ci_group_size] groups:
    trees behind the last complete group do not enter the estimate. Adding
    trees that do not complete another group leaves the result as it was. *)
Theorem variance_ignores_an_incomplete_group
    (OUT : nat) (solve : Matrix -> Vector -> Vector)
    (debias : float -> float -> float -> float)
    (self : LocalLinearMulti.Strategy) (samples_by_tree extra : list (list nat))
    (ci_group_size sampleID : nat) (weights : list (nat * float))
    (observations : Observations) (leaf_values : PredictionValues) :
  (length samples_by_tree + length extra) / ci_group_size
    = length samples_by_tree / ci_group_size ->
  LocalLinearMulti.compute_variance OUT solve debias self (samples_by_tree ++ extra)
    ci_group_size sampleID weights observations leaf_values
  = LocalLinearMulti.compute_variance OUT solve debias self samples_by_tree
    ci_group_size sampleID weights observations leaf_values.
Proof.
  intros HK. unfold LocalLinearMulti.compute_variance.
  rewrite (scores_ext OUT solve self (samples_by_tree ++ extra) samples_by_tree); [done | |].
  - by rewrite length_app.
  - rewrite length_app, HK. intros b Hb. apply at_tree_app_l.
    pose proof (Nat.Div0.mul_div_le (length samples_by_tree) ci_group_size). lia.
Qed.

Lemma variance_ignores_an_incomplete_group_witness :
  LocalLinearMulti.compute_variance 0 scalar_solve
    difference_debias mean_only
    ([[0]; [1]] ++ [[1]]) 2 0 even_weights outcomes_0_2
    no_leaves
  = LocalLinearMulti.compute_variance 0 scalar_solve
    difference_debias mean_only
    [[0]; [1]] 2 0 even_weights outcomes_0_2
    no_leaves.
Proof.
  apply (variance_ignores_an_incomplete_group 0 scalar_solve
    difference_debias mean_only
    [[0]; [1]] [[1]] 2 0 even_weights outcomes_0_2
    no_leaves).
  reflexivity.
Defined.

(** A group in which some tree has no sample for the query is skipped:
    appending such a group behind complete groups leaves the result as it
    was. *)
Theorem variance_ignores_a_bad_group
    (OUT : nat) (solve : Matrix -> Vector -> Vector)
    (debias : float -> float -> float -> float)
    (self : LocalLinearMulti.Strategy) (samples_by_tree bad : list (list nat))
    (ci_group_size sampleID : nat) (weights : list (nat * float))
    (observations : Observations) (leaf_values : PredictionValues) (k : nat) :
  0 < ci_group_size ->
  length samples_by_tree = k * ci_group_size ->
  length bad = ci_group_size -> [] ∈ bad ->
  LocalLinearMulti.compute_variance OUT solve debias self (samples_by_tree ++ bad)
    ci_group_size sampleID weights observations leaf_values
  = LocalLinearMulti.compute_variance OUT solve debias self samples_by_tree
    ci_group_size sampleID weights observations leaf_values.
Proof.
  intros Hg Hlen Hbad Hempty. unfold LocalLinearMulti.compute_variance.
  f_equal. unfold LocalLinearMulti.scores.
  destruct (LocalLinearMulti.lambdas self !! 0) as [lambda|]; [| done].
  cbn [mbind option_bind]. destruct (Nat.eqb_spec ci_group_size 0) as [|_]; [lia |].
  rewrite length_app, Hlen, Hbad.
  replace (k * ci_group_size + ci_group_size) with ((S k) * ci_group_size) by lia.
  rewrite !Nat.div_mul by lia. rewrite for_loop_S.
  rewrite LocalLinearMulti.score_group_bad.
  - apply for_loop_ext. intros group acc Hgroup.
    apply score_group_ext. intros j Hj. apply at_tree_app_l. nia.
  - apply list_elem_of_lookup_1 in Hempty as [j0 Hj0].
    pose proof (lookup_lt_Some _ _ _ Hj0) as Hlt.
    apply (good_group_empty_tree _ _ _ j0); [lia |].
    unfold LocalLinearMulti.at_tree.
    rewrite lookup_app_r by lia.
    replace (k * ci_group_size + j0 - length samples_by_tree) with j0 by lia.
    by rewrite Hj0.
Qed.

Lemma variance_ignores_a_bad_group_witness :
  LocalLinearMulti.compute_variance 0 scalar_solve
    difference_debias mean_only
    ([[0]; [1]] ++ [[1]; []]) 2 0 even_weights outcomes_0_2
    no_leaves
  = LocalLinearMulti.compute_variance 0 scalar_solve
    difference_debias mean_only
    [[0]; [1]] 2 0 even_weights outcomes_0_2
    no_leaves.
Proof.
  apply (variance_ignores_a_bad_group 0 scalar_solve
    difference_debias mean_only
    [[0]; [1]] [[1]; []] 2 0 even_weights outcomes_0_2
    no_leaves 1); [lia | reflexivity | reflexivity |].
  apply elem_of_cons. right. apply elem_of_cons. by left.
Defined.

(** ** What [compute_variance] needs in order to stay inside its vectors *)

Lemma sample_index_map_spec (num_samples : nat) (indices : list nat) (s : nat) :
  s ∈ indices -> s < num_samples ->
  exists i, i < length indices /\
    LocalLinearMulti.sample_index_map num_samples indices !! s = Some (Z.of_nat i).
Proof.
  intros Hin Hs. unfold LocalLinearMulti.sample_index_map.
  set (body := fun (i : nat) (map : list Z) =>
    <[LocalLinearMulti.at_index indices i := Z.of_nat i]> map).
  set (P := fun (n : nat) (map : list Z) =>
    length map = num_samples /\
    forall i t, i < n -> indices !! i = Some t -> t < num_samples ->
      exists i', i' < length indices /\ map !! t = Some (Z.of_nat i')).
  assert (H : P (length indices)
                (for_loop 0 (length indices) body (replicate num_samples (wrap64 (-1))))).
  { apply (for_loop_invariant P); [lia | |].
    - split; [apply length_replicate | intros; lia].
    - intros n map Hn [Hlen IH]. split; [unfold body; by rewrite length_insert |].
      intros i t Hi Ht Htn. unfold body.
      destruct (decide (t = LocalLinearMulti.at_index indices n)) as [->|Hne].
      + exists n. split; [lia |]. apply list_lookup_insert_eq. lia.
      + rewrite list_lookup_insert_ne by done.
        apply (IH i); [| done | done].
        destruct (decide (i = n)) as [->|]; [| lia].
        exfalso. apply Hne. unfold LocalLinearMulti.at_index. by rewrite Ht. }
  destruct H as [_ H]. apply list_elem_of_lookup_1 in Hin as [i Hi].
  apply (H i s); [by eapply lookup_lt_Some | done | done].
Qed.

Section Inside.
Variable OUT : nat.
Variable solve : Matrix -> Vector -> Vector.

Lemma pseudo_residuals_length self sampleID weights observations lambda :
  length (LocalLinearMulti.pseudo_residuals OUT solve self sampleID weights observations lambda)
  = length weights.
Proof.
  unfold LocalLinearMulti.pseudo_residuals.
  destruct (LocalLinearMulti.design OUT self sampleID weights observations) as [X Y].
  apply (for_loop_invariant (fun _ (v : Vector) => length v = length weights)); [lia | |].
  - apply length_replicate.
  - intros i v _ Hv. by rewrite length_insert.
Qed.

Lemma tree_score_inside (map : list Z) (pr : Vector) (tree : list nat) :
  (forall s, s ∈ tree -> is_Some (LocalLinearMulti.residual_of_sample map pr s)) ->
  is_Some (LocalLinearMulti.tree_score map pr tree).
Proof.
  intros H. unfold LocalLinearMulti.tree_score.
  assert (Hfold : forall acc : float, is_Some (foldl (fun acc s =>
      psi_1 ← acc; r ← LocalLinearMulti.residual_of_sample map pr s;
      Some (psi_1 + r)%float) (Some acc) tree)).
  { induction tree as [|s tree IH]; intros acc; [by eexists |].
    cbn [foldl]. destruct (H s ltac:(by left)) as [r Hr].
    cbn [mbind option_bind]. rewrite Hr. cbn [mbind option_bind].
    apply IH. intros s' Hs'. apply H. by right. }
  destruct (Hfold 0%float) as [psi Hpsi]. rewrite Hpsi. by eexists.
Qed.

Lemma score_group_inside (map : list Z) (pr : Vector) (sbt : list (list nat))
    (g group : nat) (sc : LocalLinearMulti.Scores) :
  (forall tree s, tree ∈ sbt -> s ∈ tree ->
     is_Some (LocalLinearMulti.residual_of_sample map pr s)) ->
  is_Some (LocalLinearMulti.score_group map pr sbt g group (Some sc)).
Proof.
  intros H. unfold LocalLinearMulti.score_group. cbn [mbind option_bind].
  destruct (negb _); [by eexists |].
  set (body := fun (j : nat) (st : option (float * float)) =>
    '(psi_sq, group_psi) ← st;
    psi_1 ← LocalLinearMulti.tree_score map pr
               (LocalLinearMulti.at_tree sbt (group * g + j));
    Some ((psi_sq + psi_1 * psi_1)%float, (group_psi + psi_1)%float)).
  assert (Hloop : is_Some (for_loop 0 g body
                    (Some (LocalLinearMulti.psi_squared sc, 0%float)))).
  { apply (for_loop_invariant (fun _ (st : option (float * float)) => is_Some st));
      [lia | by eexists |].
    intros j st _ [[psi_sq group_psi] ->]. unfold body. cbn [mbind option_bind].
    destruct (tree_score_inside map pr (LocalLinearMulti.at_tree sbt (group * g + j)))
      as [psi Hpsi].
    { intros s Hs. unfold LocalLinearMulti.at_tree in Hs.
      destruct (sbt !! (group * g + j)) as [tree|] eqn:Htree; simpl in Hs.
      - apply (H tree s); [by eapply list_elem_of_lookup_2 | done].
      - by apply elem_of_nil in Hs. }
    rewrite Hpsi. by eexists. }
  destruct Hloop as [[psi_sq group_psi] Hloop]. fold body. rewrite Hloop. by eexists.
Qed.

End Inside.

(** With a penalty to read, a positive group size, every weighted sample a
    sample of the observations, and every sample of every tree a weighted
    one, [compute_variance] stays inside its vectors and returns one value:
    the debiaser's, at the statistics of the groups. *)
Theorem variance_of_weighted_samples_is_defined
    (OUT : nat) (solve : Matrix -> Vector -> Vector)
    (debias : float -> float -> float -> float)
    (self : LocalLinearMulti.Strategy) (samples_by_tree : list (list nat))
    (ci_group_size sampleID : nat) (weights : list (nat * float))
    (observations : Observations) (leaf_values : PredictionValues) :
  LocalLinearMulti.lambdas self <> [] -> 0 < ci_group_size ->
  (forall i, i ∈ weights.*1 -> i < get_num_samples observations) ->
  (forall tree s, tree ∈ samples_by_tree -> s ∈ tree -> s ∈ weights.*1) ->
  exists sc,
    LocalLinearMulti.scores OUT solve self samples_by_tree ci_group_size sampleID
      weights observations = Some sc /\
    LocalLinearMulti.compute_variance OUT solve debias self samples_by_tree
      ci_group_size sampleID weights observations leaf_values
    = Some [debias (LocalLinearMulti.var_between sc)
                   (LocalLinearMulti.group_noise ci_group_size sc)
                   (LocalLinearMulti.num_good_groups sc)].
Proof.
  intros Hl Hg Hweights Hsamples.
  assert (Hsc : is_Some (LocalLinearMulti.scores OUT solve self samples_by_tree
                           ci_group_size sampleID weights observations)).
  { unfold LocalLinearMulti.scores.
    destruct (LocalLinearMulti.lambdas self) as [|lambda ls] eqn:El; [done |].
    cbn [lookup list_lookup mbind option_bind].
    destruct (Nat.eqb_spec ci_group_size 0) as [|_]; [lia |].
    apply (for_loop_invariant (fun _ (acc : option LocalLinearMulti.Scores) => is_Some acc));
      [lia | by eexists |].
    intros group acc _ [sc ->]. apply score_group_inside.
    intros tree s Htree Hs. pose proof (Hsamples tree s Htree Hs) as Hw.
    pose proof (Hweights s Hw) as Hn.
    destruct (sample_index_map_spec (get_num_samples observations) weights.*1 s Hw Hn)
      as (i & Hi & Hmap).
    unfold LocalLinearMulti.residual_of_sample. rewrite Hmap. cbn [mbind option_bind].
    rewrite pseudo_residuals_length. rewrite length_fmap in Hi.
    destruct (Z.ltb_spec (Z.of_nat i) (Z.of_nat (length weights))); [| lia].
    rewrite Nat2Z.id. apply lookup_lt_is_Some_2. by rewrite pseudo_residuals_length. }
  destruct Hsc as [sc Hsc]. exists sc. split; [done |].
  unfold LocalLinearMulti.compute_variance. by rewrite Hsc.
Qed.

Lemma variance_of_weighted_samples_is_defined_witness :
  exists sc,
    LocalLinearMulti.scores 0 scalar_solve mean_only
      [[0]; [1]] 2 0 even_weights outcomes_0_2 = Some sc /\
    LocalLinearMulti.compute_variance 0 scalar_solve
      difference_debias mean_only
      [[0]; [1]] 2 0 even_weights outcomes_0_2
      no_leaves
    = Some [difference_debias
              (LocalLinearMulti.var_between sc)
              (LocalLinearMulti.group_noise 2 sc)
              (LocalLinearMulti.num_good_groups sc)].
Proof.
  apply (variance_of_weighted_samples_is_defined 0 scalar_solve
    difference_debias mean_only
    [[0]; [1]] 2 0 even_weights outcomes_0_2
    no_leaves); [done | lia | |].
  - intros i Hi. simpl in Hi.
    apply elem_of_cons in Hi as [->|Hi]; [simpl; lia |].
    apply list_elem_of_singleton in Hi as ->. simpl. lia.
  - intros tree s Htree Hs.
    apply elem_of_cons in Htree as [->|Htree].
    + apply list_elem_of_singleton in Hs as ->. by left.
    + apply list_elem_of_singleton in Htree as ->.
      apply list_elem_of_singleton in Hs as ->.
      right; by left.
Defined.

(** ** The dense weight matrix *)

Lemma coeff_Zero (n m a b : nat) : coeff (Zero n m) a b = 0%float.
Proof.
  unfold coeff, Zero.
  destruct (replicate n (replicate m 0%float) !! a) as [r|] eqn:Hr; [| done].
  apply lookup_replicate_1 in Hr as [-> _]. cbn [mbind option_bind].
  destruct (replicate m 0%float !! b) as [x|] eqn:Hx; [| done].
  by apply lookup_replicate_1 in Hx as [-> _].
Qed.

Lemma weights_matrix_spec (n : nat) (weights : list (nat * float)) :
  Forall (fun iw => iw.1 < n) weights -> NoDup weights.*1 ->
  let W := LocalLinear.weights_matrix n weights in
  shaped n n W /\
  (forall i w, (i, w) ∈ weights -> coeff W i i = w) /\
  (forall a b, a <> b \/ a ∉ weights.*1 -> coeff W a b = 0%float).
Proof.
  intros Hin Hnd. cbv zeta. unfold LocalLinear.weights_matrix.
  assert (Hgen : forall (l : list (nat * float)) (W0 : Matrix),
    shaped n n W0 -> Forall (fun iw => iw.1 < n) l -> NoDup l.*1 ->
    let W := foldl (fun W '(i, weight) => set_coeff W i i weight) W0 l in
    shaped n n W /\
    (forall i w, (i, w) ∈ l -> coeff W i i = w) /\
    (forall a b, a <> b \/ a ∉ l.*1 -> coeff W a b = coeff W0 a b)).
  { induction l as [|[i w] l IH]; intros W0 HW0 Hl Hndl; cbv zeta.
    - split_and!; [done | | done]. intros i w Hiw. by apply elem_of_nil in Hiw.
    - cbn [foldl]. apply Forall_cons in Hl as [Hi Hl]. simpl in Hi.
      rewrite fmap_cons in Hndl. apply NoDup_cons in Hndl as [Hfresh Hndl].
      simpl in Hfresh.
      destruct (IH (set_coeff W0 i i w) (shaped_set_coeff _ _ _ _ _ _ HW0) Hl Hndl)
        as (Hshape & Hdiag & Helse).
      split_and!; [done | |].
      + intros i' w' Hiw. apply elem_of_cons in Hiw as [[= -> ->]|Hiw].
        * rewrite Helse by (by right).
          apply (coeff_set_coeff_eq n n); [done | done | done].
        * by apply Hdiag.
      + intros a b Hab. rewrite Helse.
        * apply coeff_set_coeff_ne.
          intros [= -> ->].
          destruct Hab as [Hne|Hout]; [done | apply Hout; rewrite fmap_cons; by left].
        * destruct Hab as [Hne|Hout]; [by left |].
          right. intros Ha. apply Hout. rewrite fmap_cons. by right. }
  destruct (Hgen weights (Zero n n) (shaped_Zero n n) Hin Hnd) as (H1 & H2 & H3).
  split_and!; [done | done |].
  intros a b Hab. rewrite H3 by done. apply coeff_Zero.
Qed.

(** In [LocalLinearPredictionStrategy.cpp] the [n] by [n] matrix [weights]
    is diagonal: for a weight map whose sample ids are below [n], its entry
    [(i,i)] is the weight of sample [i], and every other entry, the diagonal
    entries of samples without weight included, is zero. *)
Theorem dense_weights_are_diagonal
    (n : nat) (weights_by_sampleID : list (nat * float)) :
  Forall (fun iw => iw.1 < n) weights_by_sampleID -> NoDup weights_by_sampleID.*1 ->
  let W := LocalLinear.weights_matrix n weights_by_sampleID in
  shaped n n W /\
  (forall i w, (i, w) ∈ weights_by_sampleID -> coeff W i i = w) /\
  (forall a b, a <> b \/ a ∉ weights_by_sampleID.*1 -> coeff W a b = 0%float).
Proof. apply weights_matrix_spec. Qed.

Lemma dense_weights_are_diagonal_witness :
  let W := LocalLinear.weights_matrix 3 [(2, 0.25%float); (0, 0.75%float)] in
  shaped 3 3 W /\
  (forall i w, (i, w) ∈ [(2, 0.25%float); (0, 0.75%float)] -> coeff W i i = w) /\
  (forall a b, a <> b \/ a ∉ [(2, 0.25%float); (0, 0.75%float)].*1 -> coeff W a b = 0%float).
Proof.
  apply (dense_weights_are_diagonal 3 [(2, 0.25%float); (0, 0.75%float)]).
  - repeat constructor.
  - apply (bool_decide_unpack _). by vm_compute.
Defined.

End PredictionFacts.
